(** * webfactory: the page assembly pipeline

    A shallow embedding of the Go packages [blueprint], [component],
    [assets], [template] and [builder], with the properties of the
    assembly pipeline stated and proved over it.

    Conventions of the embedding.
    - A Go [string] or [[]byte] is a Rocq [string]: a sequence of bytes.
      White space is the ASCII white space; the multi-byte Unicode spaces
      that [strings.TrimSpace] and [strings.Fields] also recognise are not
      modelled.
    - A Go [int] is a [Z]; the only place where its 64-bit range matters is
      [strconv.Atoi], which rejects numerals outside of it.
    - A Go [map] is a [gmap].  Where the source ranges over a map (an order
      Go leaves unspecified) the model ranges in a documented fixed order.
    - A run-time panic is the [Panic] result of the [Res] monad. *)

From Stdlib Require Import ZArith List String Ascii Lia Bool.
From Stdlib Require Import DecimalString DecimalZ DecimalPos.
From stdpp Require Import base option gmap strings list sorting.

Set Warnings "-register-all".

Open Scope string_scope.
Open Scope list_scope.
Open Scope Z_scope.

(** ** Go's [strings], [bytes] and [strconv], on byte strings *)

Module strings.

Definition byte_in (lo hi : nat) (c : ascii) : bool :=
  let n := nat_of_ascii c in (Nat.leb lo n) && (Nat.leb n hi).

(** ASCII white space: tab, line feed, vertical tab, form feed, carriage
    return, space. *)
Definition isSpace (c : ascii) : bool :=
  byte_in 9 13 c || byte_in 32 32 c.

(** [unicode.IsSpace(rune(b))] for a single byte [b]: the byte is read as a
    Latin-1 code point, where U+0085 and U+00A0 are spaces too. *)
Definition isSpaceRune (c : ascii) : bool :=
  isSpace c || byte_in 133 133 c || byte_in 160 160 c.

Fixpoint TrimLeftFunc (f : ascii -> bool) (s : string) : string :=
  match s with
  | String c s' => if f c then TrimLeftFunc f s' else s
  | EmptyString => EmptyString
  end.

Fixpoint TrimRightFunc (f : ascii -> bool) (s : string) : string :=
  match s with
  | EmptyString => EmptyString
  | String c s' =>
      match TrimRightFunc f s' with
      | EmptyString => if f c then EmptyString else String c EmptyString
      | r => String c r
      end
  end.

Definition TrimSpace (s : string) : string :=
  TrimRightFunc isSpace (TrimLeftFunc isSpace s).

(** [strings.Trim(s, cutset)] and [strings.TrimRight(s, cutset)] for a
    cutset of one byte. *)
Definition Trim (s : string) (c : ascii) : string :=
  TrimRightFunc (Ascii.eqb c) (TrimLeftFunc (Ascii.eqb c) s).

Definition TrimRight (s : string) (c : ascii) : string :=
  TrimRightFunc (Ascii.eqb c) s.

Fixpoint drop (n : nat) (s : string) : string :=
  match n, s with
  | O, _ => s
  | S k, String _ s' => drop k s'
  | S _, EmptyString => EmptyString
  end.

Fixpoint take (n : nat) (s : string) : string :=
  match n, s with
  | O, _ => EmptyString
  | S k, String c s' => String c (take k s')
  | S _, EmptyString => EmptyString
  end.

Definition HasPrefix (s p : string) : bool := String.prefix p s.

Definition TrimPrefix (s p : string) : string :=
  if HasPrefix s p then drop (String.length p) s else s.

Definition HasSuffix (s suf : string) : bool :=
  Nat.leb (String.length suf) (String.length s)
  && String.eqb (drop (String.length s - String.length suf) s) suf.

Definition TrimSuffix (s suf : string) : string :=
  if HasSuffix s suf then take (String.length s - String.length suf) s else s.

(** [strings.Split(s, sep)] for a separator of one byte: always at least
    one piece. *)
Fixpoint Split (s : string) (sep : ascii) : list string :=
  match s with
  | EmptyString => [EmptyString]
  | String a s' =>
      if Ascii.eqb a sep then EmptyString :: Split s' sep
      else match Split s' sep with
           | h :: t => String a h :: t
           | [] => [String a EmptyString]
           end
  end.

(** [strings.Fields]: the maximal runs of bytes that are not white space. *)
Fixpoint Fields (s : string) : list string :=
  match s with
  | EmptyString => []
  | String c s' =>
      let r := Fields s' in
      if isSpace c then r
      else match s' with
           | EmptyString => [String c EmptyString]
           | String c' _ =>
               if isSpace c' then String c EmptyString :: r
               else match r with
                    | h :: t => String c h :: t
                    | [] => [String c EmptyString]
                    end
           end
  end.

(** [strings.IndexByte]; Go's [-1] is [None]. *)
Fixpoint IndexByte (s : string) (c : ascii) : option nat :=
  match s with
  | EmptyString => None
  | String a s' => if Ascii.eqb a c then Some O else S <$> IndexByte s' c
  end.

(** [bytes.Index] / [strings.Index]; Go's [-1] is [None]. *)
Fixpoint Index (s sub : string) : option nat :=
  if String.prefix sub s then Some O
  else match s with
       | EmptyString => None
       | String _ s' => S <$> Index s' sub
       end.

Definition Contains (s sub : string) : bool :=
  match Index s sub with Some _ => true | None => false end.

Definition Join (l : list string) (sep : string) : string := String.concat sep l.

(** [strings.ReplaceAll(s, old, new)] for a non-empty [old]: the
    occurrences are replaced from left to right and do not overlap.  [skip]
    counts the bytes of a matched occurrence still to be passed over. *)
Fixpoint replaceFrom (old new : string) (skip : nat) (s : string) : string :=
  match s with
  | EmptyString => EmptyString
  | String c s' =>
      match skip with
      | S k => replaceFrom old new k s'
      | O => if String.prefix old s
             then new +:+ replaceFrom old new (String.length old - 1) s'
             else String c (replaceFrom old new O s')
      end
  end.

Definition ReplaceAll (s old new : string) : string := replaceFrom old new O s.

Fixpoint Map (f : ascii -> ascii) (s : string) : string :=
  match s with
  | EmptyString => EmptyString
  | String c s' => String (f c) (Map f s')
  end.

End strings.

Module strconv.

(** [strconv.Itoa]: decimal digits, a leading [-] for a negative number. *)
Definition Itoa (z : Z) : string := NilZero.string_of_int (Z.to_int z).

Definition isDigit (c : ascii) : bool := strings.byte_in 48 57 c.

Fixpoint digitsVal (s : string) (acc : Z) : option Z :=
  match s with
  | EmptyString => Some acc
  | String c s' =>
      if isDigit c
      then digitsVal s' (10 * acc + (Z.of_nat (nat_of_ascii c) - 48))
      else None
  end.

(** [strconv.Atoi]: an optional sign, then at least one decimal digit, and
    a value that fits a 64-bit [int]; anything else is an error ([None]). *)
Definition Atoi (s : string) : option Z :=
  let neg := match s with String "-" _ => true | _ => false end in
  let body := match s with
              | String "+" r => r
              | String "-" r => r
              | _ => s
              end in
  match body with
  | EmptyString => None
  | _ =>
      n ← digitsVal body 0;
      let v := if neg then - n else n in
      if (- 2 ^ 63 <=? v) && (v <=? 2 ^ 63 - 1) then Some v else None
  end.

End strconv.

(** [sort.Slice] on a slice of at most twelve elements is an insertion
    sort (Go 1.19 and later): each element in turn is swapped leftwards while
    it is less than its left neighbour.  Longer slices are sorted by a
    pattern-defeating quicksort, which may order elements that compare equal
    differently.  What is proved of the sorted children below rests on the
    result being a sorted permutation, which holds of either; where the keys
    are all different it is the only one (lemma [Slice_unique]). *)
Module sort.

Section Slice.
Context {A : Type} (less : A -> A -> bool).

(** [r] is the sorted prefix, last element first. *)
Fixpoint insertLeft (x : A) (r : list A) : list A :=
  match r with
  | [] => [x]
  | y :: r' => if less x y then y :: insertLeft x r' else x :: r
  end.

Definition Slice (l : list A) : list A :=
  rev (fold_left (fun r x => insertLeft x r) l []).
End Slice.

End sort.

(** ** Package [blueprint]: blueprint text to component tree *)

Module blueprint.

Record Block := mkBlock {
  Path : string;
  Index : list Z;
  ID : Z;
  Vars : gmap string (list string)
}.

(** The finished tree, as the template processor walks it: a node owns its
    children. *)
Inductive Node := mkNode { NodeBlock : Block; Children : list Node }.

Definition parseLine (line : string) (id : Z) : option Block :=
  let line := strings.TrimSpace line in
  if String.eqb line "" || strings.HasPrefix line "#" then None
  else if strings.HasPrefix line "." then None
  else match strings.Fields line with
       | [p0; p1] =>
           let indexStr := strings.Split (strings.TrimRight p0 ".") "." in
           index ← mapM strconv.Atoi indexStr;
           Some {| Path := strings.TrimSpace p1; Index := index; ID := id;
                   Vars := ∅ |}
       | _ => None
       end.

(** [currentBlock.Vars[name] = append(currentBlock.Vars[name], value)] *)
Definition appendVar (name value : string) (b : Block) : Block :=
  {| Path := Path b; Index := Index b; ID := ID b;
     Vars := <[name := default [] (Vars b !! name) ++ [value]]> (Vars b) |}.

(** One turn of the line loop of [New].  [currentBlock] is [nil] until the
    first block is appended and points to the last element of [blocks]
    from then on. *)
Definition scanLine (st : list Block * Z) (line : string) : list Block * Z :=
  let '(blocks, id) := st in
  let line := strings.TrimSpace line in
  if strings.HasPrefix line "." then
    match blocks with
    | [] => st
    | _ =>
        match strings.IndexByte line "=" with
        | None => st
        | Some eqIndex =>
            let varName := strings.TrimSpace (strings.take eqIndex line) in
            let value :=
              strings.TrimLeftFunc strings.isSpaceRune
                (strings.drop (S eqIndex) line) in
            if strings.HasPrefix varName "." then
              let name := strings.drop 1 varName in
              (alter (appendVar name value) (Nat.pred (length blocks)) blocks, id)
            else st
        end
    end
  else
    match parseLine line id with
    | Some block => (blocks ++ [block], id + 1)
    | None => st
    end.

Definition parseBlocks (content : string) : list Block :=
  fst (fold_left scanLine (strings.Split content "010") ([], 0)).

Definition indexKey (index : list Z) : string :=
  strings.Join (map strconv.Itoa index) ".".

(** While [buildTree] runs, the nodes live in a heap and refer to their
    children by address; the root is at address [0]. *)
Record cell := mkCell { cellBlock : Block; cellChildren : list nat }.

Definition rootCell : cell :=
  {| cellBlock := {| Path := ""; Index := []; ID := -1; Vars := ∅ |};
     cellChildren := [] |}.

Definition appendChild (child : nat) (c : cell) : cell :=
  {| cellBlock := cellBlock c; cellChildren := cellChildren c ++ [child] |}.

(** One turn of the block loop of [buildTree]; [None] is the early
    [return nil] on a duplicate index. *)
Definition attach (st : list cell * gmap string nat) (block : Block)
  : option (list cell * gmap string nat) :=
  let '(heap, nodeMap) := st in
  let node := length heap in
  let key := indexKey (Index block) in
  match nodeMap !! key with
  | Some _ => None
  | None =>
      let nodeMap := <[key := node]> nodeMap in
      let heap := heap ++ [ {| cellBlock := block; cellChildren := [] |} ] in
      let parent :=
        match Index block with
        | [] => O
        | _ => default O (nodeMap !! indexKey (removelast (Index block)))
        end in
      Some (alter (appendChild node) parent heap, nodeMap)
  end.

Fixpoint attachAll (blocks : list Block) (st : list cell * gmap string nat)
  : option (list cell * gmap string nat) :=
  match blocks with
  | [] => Some st
  | block :: rest => st' ← attach st block; attachAll rest st'
  end.

Definition indexOf (heap : list cell) (node : nat) : list Z :=
  from_option (fun c => Index (cellBlock c)) [] (heap !! node).

(** The comparison handed to [sort.Slice].  Go would panic on an empty
    index here; no child has one (lemma [child_index_nonempty]). *)
Definition lessChild (heap : list cell) (isRoot : bool) (i j : nat) : bool :=
  let iIdx := indexOf heap i in
  let jIdx := indexOf heap j in
  if isRoot then hd 0 iIdx <? hd 0 jIdx
  else List.last iIdx 0 <? List.last jIdx 0.

(** [sortNodes] sorts the children of a node and then those of every child.
    Here it also reads the sorted subtree off the heap.  [fuel] bounds the
    depth; [None] is a depth beyond [fuel] or a dangling address, neither of
    which occurs on a heap built by [attachAll] (lemma
    [sortNodes_total]). *)
Fixpoint sortNodes (fuel : nat) (heap : list cell) (node : nat) : option Node :=
  match fuel with
  | O => None
  | S fuel' =>
      c ← heap !! node;
      let sorted :=
        sort.Slice (lessChild heap (Nat.eqb node O)) (cellChildren c) in
      kids ← mapM (sortNodes fuel' heap) sorted;
      Some (mkNode (cellBlock c) kids)
  end.

Definition buildTree (blocks : list Block) : option Node :=
  match blocks with
  | [] => None
  | _ =>
      match attachAll blocks ([rootCell], {[ "" := O ]}) with
      | None => None
      | Some (heap, _) => sortNodes (length heap) heap O
      end
  end.

(** [New] returns the tree and an error; the error is always [nil]. *)
Definition New (content : string) : option Node * option string :=
  (buildTree (parseBlocks content), None).

(** The component paths of a tree in rendering order, for reading examples. *)
Fixpoint paths (n : Node) : list string :=
  Path (NodeBlock n) :: concat (map paths (Children n)).

End blueprint.

(** ** Go errors, panics and the file store *)

(** A Go result [(value, error)]. *)
Inductive result (A : Type) : Type :=
  | ok (a : A)
  | err (msg : string).
Arguments ok {A} a.
Arguments err {A} msg.

(** [fmt.Errorf("<prefix>: %w", e)] *)
Definition wrap {A : Type} (prefix : string) (r : result A) : result A :=
  match r with
  | ok a => ok a
  | err msg => err (prefix +:+ ": " +:+ msg)
  end.

(** A computation that may panic. *)
Inductive Res (A : Type) : Type :=
  | Ok (a : A)
  | Panic.
Arguments Ok {A} a.
Arguments Panic {A}.

Definition bindRes {A B : Type} (m : Res A) (k : A -> Res B) : Res B :=
  match m with
  | Ok a => k a
  | Panic => Panic
  end.

#[global] Instance Res_bind : MBind Res := fun A B k m => bindRes m k.
#[global] Instance Res_ret : MRet Res := fun A a => Ok a.

Fixpoint mapRes {A B : Type} (f : A -> Res B) (l : list A) : Res (list B) :=
  match l with
  | [] => Ok []
  | x :: l' =>
      y ← f x; ys ← mapRes f l'; Ok (y :: ys)
  end.

(** [s[lo:hi]]: Go panics unless [0 <= lo <= hi <= len(s)]. *)
Definition slice {A : Type} (lo hi : Z) (l : list A) : Res (list A) :=
  if (0 <=? lo) && (lo <=? hi) && (hi <=? Z.of_nat (length l))
  then Ok (firstn (Z.to_nat (hi - lo)) (skipn (Z.to_nat lo) l))
  else Panic.

Module filepath.

Definition hasByte (c : ascii) (s : string) : bool :=
  match strings.IndexByte s c with Some _ => true | None => false end.

(** One path element met by [Clean]; [stack] holds the elements kept so
    far, last first. *)
Definition cleanElem (rooted : bool) (stack : list string) (e : string)
  : list string :=
  if String.eqb e "" || String.eqb e "." then stack
  else if String.eqb e ".." then
    match stack with
    | top :: rest => if String.eqb top ".." then e :: stack else rest
    | [] => if rooted then stack else [e]
    end
  else e :: stack.

(** [filepath.Clean], with [/] as the separator. *)
Definition Clean (path : string) : string :=
  let rooted := strings.HasPrefix path "/" in
  let stack := fold_left (cleanElem rooted) (strings.Split path "/") [] in
  let out := (if rooted then "/" else "") +:+ strings.Join (rev stack) "/" in
  if String.eqb out "" then "." else out.

(** [filepath.Join]: empty elements are ignored, the rest is joined and
    cleaned; the result is empty when every element is. *)
Definition Join (elem : list string) : string :=
  match filter (fun e => negb (String.eqb e "")) elem with
  | [] => ""
  | ne => Clean (strings.Join ne "/")
  end.

(** [filepath.Ext]: from the last dot of the last path element. *)
Fixpoint Ext (path : string) : string :=
  match path with
  | EmptyString => EmptyString
  | String c s' =>
      if hasByte "/" s' || hasByte "." s' then Ext s'
      else if Ascii.eqb c "." then path else EmptyString
  end.

(** [filepath.Dir] is only used to create directories; not needed here. *)

End filepath.

Module storage.

(** What is on disk: the interface of the file system that [Storage] relies
    on.  [listFiles dir ext] are the files under a component directory with
    the given extension, in the order of the directory walk. *)
Record FS := mkFS {
  blueprintFile : string -> result string;
  listFiles : string -> string -> result (list string);
  readFile : string -> string -> result string;
  writeFile : string -> string -> option string
}.

(** The calls made on the file system, oldest first. *)
Inductive Call :=
  | CallReadBlueprint (path : string)
  | CallReadComponent (componentPath filename : string)
  | CallList (componentPath ext : string)
  | CallWrite (fullPath content : string).

Record Storage := mkStorage {
  sourcePath : string;
  targetPath : string;
  fs : FS;
  calls : list Call
}.

Definition New (sourcePath targetPath : string) (fs : FS) : Storage :=
  {| sourcePath := sourcePath; targetPath := targetPath; fs := fs; calls := [] |}.

Definition record (c : Call) (s : Storage) : Storage :=
  {| sourcePath := sourcePath s; targetPath := targetPath s; fs := fs s;
     calls := calls s ++ [c] |}.

Definition ReadBlueprint (path : string) (s : Storage)
  : result string * Storage :=
  (blueprintFile (fs s) path, record (CallReadBlueprint path) s).

Definition ReadComponent (componentPath filename : string) (s : Storage)
  : result string * Storage :=
  (readFile (fs s) componentPath filename,
   record (CallReadComponent componentPath filename) s).

Definition ListComponentFiles (componentPath ext : string) (s : Storage)
  : result (list string) * Storage :=
  (wrap "listing component files" (listFiles (fs s) componentPath ext),
   record (CallList componentPath ext) s).

Definition FindTemplateFile (componentPath : string) (s : Storage)
  : result string * Storage :=
  let '(r, s) := ListComponentFiles componentPath ".html" s in
  match r with
  | err msg => (err ("listing HTML files: " +:+ msg), s)
  | ok [] =>
      (err ("no HTML template found in component " +:+ componentPath), s)
  | ok [file] => (ok file, s)
  | ok _ =>
      (err ("multiple HTML templates found in component " +:+ componentPath), s)
  end.

Definition GetTargetPath (s : Storage) : string := targetPath s.

(** [WriteOutput] ranges over the map of files; the model takes them in the
    order of [map_to_list]. *)
Fixpoint writeAll (outputPath : string) (files : list (string * string))
  (s : Storage) : option string * Storage :=
  match files with
  | [] => (None, s)
  | (path, content) :: rest =>
      let fullPath := filepath.Join [outputPath; path] in
      let s := record (CallWrite fullPath content) s in
      match writeFile (fs s) fullPath content with
      | Some e => (Some e, s)
      | None => writeAll outputPath rest s
      end
  end.

Definition WriteOutput (outputPath : string) (files : gmap string string)
  (s : Storage) : option string * Storage :=
  writeAll outputPath (map_to_list files) s.

End storage.

(** A store operation: it may fail with a Go error and it leaves its trace
    in the store's list of calls. *)
Definition IO (A : Type) : Type := storage.Storage -> result A * storage.Storage.

Definition bindIO {A B : Type} (m : IO A) (k : A -> IO B) : IO B :=
  fun s =>
    match m s with
    | (ok a, s') => k a s'
    | (err msg, s') => (err msg, s')
    end.

#[global] Instance IO_bind : MBind IO := fun A B k m => bindIO m k.
#[global] Instance IO_ret : MRet IO := fun A a s => (ok a, s).

Definition wrapIO {A : Type} (prefix : string) (m : IO A) : IO A :=
  fun s => let '(r, s') := m s in (wrap prefix r, s').

(** ** Package [component]: the registry of loaded components *)

Module component.

(** The field [Children] of the source is never filled nor read. *)
Record Component := mkComponent {
  Path : string;
  Template : string;
  Styles : string;
  Scripts : gmap string string
}.

(** The registry's cache; its [store] is passed along as the state of [IO]. *)
Record Registry := mkRegistry { loaded : gmap string Component }.

Definition New : Registry := {| loaded := ∅ |}.

Fixpoint readCSS (fsPath : string) (cssFiles : list string) (cssContent : string)
  : IO string :=
  match cssFiles with
  | [] => mret cssContent
  | file :: rest =>
      content ← wrapIO ("reading CSS " +:+ file)
                  (storage.ReadComponent fsPath file);
      readCSS fsPath rest (cssContent +:+ content +:+ String "010" "")
  end.

Fixpoint readJS (fsPath : string) (jsFiles : list string)
  (scripts : gmap string string) : IO (gmap string string) :=
  match jsFiles with
  | [] => mret scripts
  | file :: rest =>
      content ← wrapIO ("reading JS " +:+ file)
                  (storage.ReadComponent fsPath file);
      readJS fsPath rest (<[file := content]> scripts)
  end.

(** The part of [Load] that reads the store. *)
Definition readComponent (path : string) : IO Component :=
  let parts := strings.Split path "." in
  let fsPath := filepath.Join parts in
  templateFile ← wrapIO "finding template" (storage.FindTemplateFile fsPath);
  template ← storage.ReadComponent fsPath templateFile;
  cssFiles ← wrapIO "listing CSS files"
               (storage.ListComponentFiles fsPath ".css");
  styles ← readCSS fsPath cssFiles "";
  jsFiles ← wrapIO "listing JS files"
              (storage.ListComponentFiles fsPath ".js");
  scripts ← readJS fsPath jsFiles ∅;
  mret {| Path := path; Template := template; Styles := styles;
          Scripts := scripts |}.

Definition Load (path : string) (r : Registry) (s : storage.Storage)
  : result Component * Registry * storage.Storage :=
  match loaded r !! path with
  | Some comp => (ok comp, r, s)
  | None =>
      match readComponent path s with
      | (ok comp, s') => (ok comp, {| loaded := <[path := comp]> (loaded r) |}, s')
      | (err msg, s') => (err msg, r, s')
      end
  end.

(** [Get] reads the cache and nothing else. *)
Definition Get (path : string) (r : Registry) : option Component :=
  loaded r !! path.

End component.

(** ** Package [assets]: the style sheets and scripts of a page *)

Module assets.

Definition dq : string := String "034" "".

Record jsAsset := mkJsAsset { content : string; files : list string }.

Record Manager := mkManager {
  css : gmap string string;
  cssKeys : list string;
  js : gmap string jsAsset;
  jsKeys : list string
}.

Definition New : Manager :=
  {| css := ∅; cssKeys := []; js := ∅; jsKeys := [] |}.

Definition isAlnum (r : ascii) : bool :=
  strings.byte_in 97 122 r || strings.byte_in 65 90 r || strings.byte_in 48 57 r.

(** [for strings.Contains(name, "--") { name = ReplaceAll(name, "--", "-") }];
    every turn shortens the name, so its length bounds the turns (lemma
    [collapseDashes_done]). *)
Fixpoint collapseDashes (fuel : nat) (name : string) : string :=
  match fuel with
  | O => name
  | S fuel' =>
      if strings.Contains name "--"
      then collapseDashes fuel' (strings.ReplaceAll name "--" "-")
      else name
  end.

Definition sanitizeFileName (path : string) : string :=
  let name := strings.Map (fun r => if isAlnum r then r else "-"%char) path in
  let name := collapseDashes (String.length name) name in
  strings.Trim name "-".

Section WithHash.

(** [generateHash] is the hexadecimal SHA-256 digest of the content.  The
    manager uses it as a key and nothing more, so it is left open here. *)
Variable generateHash : string -> string.

Definition addStyles (styles : string) (m : Manager) : Manager :=
  if Nat.ltb O (String.length styles) then
    let hash := generateHash styles in
    match css m !! hash with
    | Some _ => m
    | None =>
        {| css := <[hash := styles]> (css m); cssKeys := cssKeys m ++ [hash];
           js := js m; jsKeys := jsKeys m |}
    end
  else m.

Definition addScript (compPath : string) (m : Manager)
  (script : string * string) : Manager :=
  let '(origName, content) := script in
  let hash := generateHash content in
  let baseName := strings.TrimSuffix origName ".js" in
  let outName := sanitizeFileName compPath +:+ "-" +:+ baseName in
  match js m !! hash with
  | Some asset =>
      {| css := css m; cssKeys := cssKeys m;
         js := <[hash := {| content := assets.content asset;
                            files := files asset ++ [outName] |}]> (js m);
         jsKeys := jsKeys m |}
  | None =>
      {| css := css m; cssKeys := cssKeys m;
         js := <[hash := {| content := content; files := [outName] |}]> (js m);
         jsKeys := jsKeys m ++ [hash] |}
  end.

(** [ProcessComponent] for a component that is not [nil]; its error is
    always [nil].  The scripts of the component are taken in the order of
    [map_to_list]. *)
Definition ProcessComponent (comp : component.Component) (m : Manager) : Manager :=
  fold_left (addScript (component.Path comp))
    (map_to_list (component.Scripts comp))
    (addStyles (component.Styles comp) m).

End WithHash.

Definition scriptTag (prefix filename : string) : string :=
  let jsName := sanitizeFileName filename +:+ ".js" in
  "<script src=" +:+ dq +:+ filepath.Join [prefix; "js"; jsName] +:+ dq
  +:+ "></script>" +:+ String "010" "".

(** The assets of the manager in the order of [jsKeys], which holds every
    key of [js] once. *)
Definition jsAssets (m : Manager) : list jsAsset :=
  omap (fun hash => js m !! hash) (jsKeys m).

(** [GetAssetTags] ranges over the map [js], in an order that Go does not
    fix; the model takes the assets first seen first. *)
Definition GetAssetTags (prefix : string) (m : Manager) : string * string :=
  let styles :=
    if Nat.ltb O (size (css m)) then
      "<link rel=" +:+ dq +:+ "stylesheet" +:+ dq +:+ " href=" +:+ dq
      +:+ filepath.Join [prefix; "css"; "styles.css"] +:+ dq +:+ ">"
    else "" in
  let jsB :=
    String.concat ""
      (scriptTag prefix <$> concat (files <$> jsAssets m)) in
  (styles, strings.TrimSpace jsB).

Definition mergedCSS (m : Manager) : string :=
  String.concat ""
    ((fun content => content +:+ String "010" "")
       <$> omap (fun hash => css m !! hash) (cssKeys m)).

Definition putFile (content : string) (out : gmap string string)
  (filename : string) : gmap string string :=
  <[sanitizeFileName filename +:+ ".js" := content]> out.

Definition GetFiles (m : Manager) : gmap string string :=
  let out : gmap string string :=
    if Nat.ltb O (size (css m))
    then {[ "styles.css" := strings.TrimSuffix (mergedCSS m) (String "010" "") ]}
    else ∅ in
  fold_left
    (fun out asset => fold_left (putFile (content asset)) (files asset) out)
    (jsAssets m) out.

End assets.

(** ** Package [template]: the tokenizer and the template processor *)

Module template.

Inductive TokenType :=
  | TextToken
  | RangeStartToken
  | RangeEndToken
  | VarToken
  | ComponentToken
  | StyleToken
  | ScriptToken.

#[global] Instance TokenType_eq_dec : EqDecision TokenType.
Proof. solve_decision. Defined.

(** [Content] is the variable name of a [Var] or [RangeStart] token and the
    text of a [Text] token. *)
Record Token := mkToken { Type_ : TokenType; Content : string }.

#[global] Instance Token_eq_dec : EqDecision Token.
Proof. solve_decision. Defined.

(** The token of a directive body, if it is one of the known directives. *)
Definition directiveToken (directive : string) : list Token :=
  if String.eqb directive "component" then [mkToken ComponentToken ""]
  else if String.eqb directive "range end" then [mkToken RangeEndToken ""]
  else if strings.HasPrefix directive "range ." then
    [mkToken RangeStartToken (strings.TrimPrefix directive "range .")]
  else if String.eqb directive "styles" then [mkToken StyleToken ""]
  else if String.eqb directive "script" then [mkToken ScriptToken ""]
  else if strings.HasPrefix directive "." then
    [mkToken VarToken (strings.TrimPrefix directive ".")]
  else [].

(** The text left when the scan loop of [Tokenize] ends. *)
Definition remainingText (template : string) (tokens : list Token) : list Token :=
  if Nat.ltb O (String.length template)
  then tokens ++ [mkToken TextToken template]
  else tokens.

(** The scan loop of [Tokenize] with its three variables.  Every turn
    either moves [pos] forward or cuts the template short, so there are at
    most [len(template)] turns; [None] is a loop that needs more than
    [fuel] turns (there is none, lemma [tokenizeLoop_fuel]). *)
Fixpoint tokenizeLoop (fuel : nat) (template : string) (pos : nat)
  (tokens : list Token) : option (list Token) :=
  if negb (Nat.ltb pos (String.length template))
  then Some (remainingText template tokens)
  else
    match fuel with
    | O => None
    | S fuel' =>
        if strings.HasPrefix (strings.drop pos template) "{{" then
          let tokens :=
            if Nat.ltb O pos
            then tokens ++ [mkToken TextToken (strings.take pos template)]
            else tokens in
          let template := strings.drop pos template in
          match strings.Index (strings.drop 2 template) "}}" with
          | None =>
              Some (remainingText template
                      (tokens ++ [mkToken TextToken template]))
          | Some end_ =>
              let directive :=
                strings.TrimSpace (strings.take end_ (strings.drop 2 template)) in
              tokenizeLoop fuel' (strings.drop (end_ + 4) template) O
                (tokens ++ directiveToken directive)
          end
        else tokenizeLoop fuel' template (S pos) tokens
    end.

Definition Tokenize (template : string) : list Token :=
  default [] (tokenizeLoop (String.length template) template O []).

Record processError := mkProcessError {
  line : Z;
  directive : string;
  msg : string
}.

(** The field [vars] of the source is never read. *)
Record Processor := mkProcessor {
  registry : component.Registry;
  assets : assets.Manager;
  errLines : list processError;
  hasStyles : bool;
  hasScripts : bool
}.

Definition New (registry : component.Registry) : Processor :=
  {| registry := registry; assets := assets.New; errLines := [];
     hasStyles := false; hasScripts := false |}.

Definition setAssets (m : assets.Manager) (p : Processor) : Processor :=
  {| registry := registry p; assets := m; errLines := errLines p;
     hasStyles := hasStyles p; hasScripts := hasScripts p |}.

Definition setHasStyles (p : Processor) : Processor :=
  {| registry := registry p; assets := assets p; errLines := errLines p;
     hasStyles := true; hasScripts := hasScripts p |}.

Definition setHasScripts (p : Processor) : Processor :=
  {| registry := registry p; assets := assets p; errLines := errLines p;
     hasStyles := hasStyles p; hasScripts := true |}.

Definition sameError (line : Z) (directive : string) (e : processError) : bool :=
  (template.line e =? line) && String.eqb (template.directive e) directive.

Definition addError (line : Z) (directive msg : string) (p : Processor)
  : Processor :=
  if existsb (sameError line directive) (errLines p) then p
  else {| registry := registry p; assets := assets p;
          errLines := errLines p ++ [mkProcessError line directive msg];
          hasStyles := hasStyles p; hasScripts := hasScripts p |}.

(** The variables of the token loop of [processTemplate]. *)
Record loopVars := mkLoopVars {
  buf : string;
  rangeVar : string;
  rangeContent : list string;
  inRange : bool;
  rangeStart : Z
}.

Definition loopInit : loopVars :=
  {| buf := ""; rangeVar := ""; rangeContent := []; inRange := false;
     rangeStart := -1 |}.

Definition write (s : string) (v : loopVars) : loopVars :=
  {| buf := buf v +:+ s; rangeVar := rangeVar v;
     rangeContent := rangeContent v; inRange := inRange v;
     rangeStart := rangeStart v |}.

Definition openRange (name : string) (values : option (list string)) (i : Z)
  (v : loopVars) : loopVars :=
  {| buf := buf v; rangeVar := name;
     rangeContent := default (rangeContent v) values; inRange := true;
     rangeStart := i |}.

Definition closeRange (v : loopVars) : loopVars :=
  {| buf := buf v; rangeVar := rangeVar v; rangeContent := rangeContent v;
     inRange := false; rangeStart := -1 |}.

(** What one token of a loop body writes in one iteration. *)
Definition rangeToken (vars : gmap string (list string))
  (rangeVar rangeValue : string) (t : Token) : string :=
  match Type_ t with
  | TextToken => Content t
  | VarToken =>
      if String.eqb (Content t) rangeVar then rangeValue
      else match vars !! Content t with
           | Some (value :: _) => value
           | _ => ""
           end
  | _ => ""
  end.

Definition rangeBody (vars : gmap string (list string))
  (rangeVar rangeValue : string) (body : list Token) : string :=
  String.concat "" (rangeToken vars rangeVar rangeValue <$> body).

(** One iteration at [RangeEnd]: the body [tokens[rangeStart+1 : i]] is
    sliced anew in every iteration. *)
Definition rangeIteration (tokens : list Token)
  (vars : gmap string (list string)) (v : loopVars) (i : Z)
  (rangeValue : string) : Res string :=
  body ← slice (rangeStart v + 1) i tokens;
  Ok (rangeBody vars (rangeVar v) rangeValue body).

Section Process.

Variable generateHash : string -> string.

(** One turn of the token loop.  [children] processes the child nodes, as
    the loop over [children] of the [ComponentToken] case does. *)
Definition processToken (tokens : list Token) (vars : gmap string (list string))
  (children : Processor -> Res (string * Processor))
  (i : Z) (token : Token) (st : loopVars * Processor)
  : Res (loopVars * Processor) :=
  let '(v, p) := st in
  match Type_ token with
  | TextToken =>
      if inRange v then Ok (v, p) else Ok (write (Content token) v, p)
  | StyleToken => Ok (v, setHasStyles p)
  | ScriptToken => Ok (v, setHasScripts p)
  | ComponentToken =>
      if inRange v then Ok (v, p)
      else '(childContent, p') ← children p; Ok (write childContent v, p')
  | RangeStartToken =>
      if inRange v then Ok (v, p)
      else Ok (openRange (Content token) (vars !! Content token) i v, p)
  | RangeEndToken =>
      if inRange v then
        outs ← mapRes (rangeIteration tokens vars v i) (rangeContent v);
        Ok (closeRange (write (String.concat "" outs) v), p)
      else Ok (v, p)
  | VarToken =>
      if inRange v then Ok (v, p)
      else match vars !! Content token with
           | Some (value :: _) => Ok (write value v, p)
           | Some [] => Panic
           | None => Ok (v, p)
           end
  end.

(** The token loop from index [i] on; [rest] are the tokens from [i]. *)
Fixpoint processTokens (tokens : list Token) (vars : gmap string (list string))
  (children : Processor -> Res (string * Processor))
  (i : Z) (rest : list Token) (st : loopVars * Processor)
  : Res (loopVars * Processor) :=
  match rest with
  | [] => Ok st
  | token :: rest' =>
      st' ← processToken tokens vars children i token st;
      processTokens tokens vars children (i + 1) rest' st'
  end.

Definition processTemplate (tmpl : string) (vars : gmap string (list string))
  (children : Processor -> Res (string * Processor)) (p : Processor)
  : Res (string * Processor) :=
  let tokens := Tokenize tmpl in
  '(v, p') ← processTokens tokens vars children 0 tokens (loopInit, p);
  Ok (buf v, p').

Definition processAssets (comp : component.Component) (path : string)
  (p : Processor) : Processor :=
  setAssets (assets.ProcessComponent generateHash comp (assets p)) p.

(** The error that [Process] returns along with the output. *)
Definition errorMessage (e : processError) : string :=
  "line " +:+ strconv.Itoa (line e) +:+ " [" +:+ directive e +:+ "]: "
  +:+ msg e.

Definition processingError (p : Processor) : option string :=
  match errLines p with
  | [] => None
  | errs =>
      Some ("template processing errors: "
            +:+ strings.Join (errorMessage <$> errs) "; ")
  end.

(** The loop over the children shared by [processChildren] and the
    [ComponentToken] case; the error of each child is dropped. *)
Fixpoint eachChild {N : Type}
  (Process : N -> Processor -> Res (string * option string * Processor))
  (children : list N) (p : Processor) : Res (string * Processor) :=
  match children with
  | [] => Ok ("", p)
  | child :: rest =>
      '(childContent, _, p1) ← Process child p;
      '(out, p2) ← eachChild Process rest p1;
      Ok (childContent +:+ out, p2)
  end.

(** [Process] on a node that is not [nil]. *)
Fixpoint ProcessNode (node : blueprint.Node) (p : Processor)
  : Res (string * option string * Processor) :=
  match node with
  | blueprint.mkNode block children =>
      if blueprint.ID block =? -1 then
        '(output, p') ← eachChild ProcessNode children p;
        Ok (output, processingError p', p')
      else
        let path := blueprint.Path block in
        match component.Get path (registry p) with
        | None =>
            Ok ("{{" +:+ path +:+ "}}", None,
                addError 0 path ("component not found: " +:+ path) p)
        | Some comp =>
            let p := processAssets comp path p in
            '(output, p') ←
              processTemplate (component.Template comp) (blueprint.Vars block)
                (eachChild ProcessNode children) p;
            Ok (output, processingError p', p')
        end
  end.

Definition processChildren (node : blueprint.Node) (p : Processor)
  : Res (string * Processor) :=
  eachChild ProcessNode (blueprint.Children node) p.

(** [Process]: a [nil] node gives no output and no error. *)
Definition Process (node : option blueprint.Node) (p : Processor)
  : Res (string * option string * Processor) :=
  match node with
  | None => Ok ("", None, p)
  | Some node => ProcessNode node p
  end.

Definition GetUsedComponents (p : Processor) : gmap string string :=
  list_to_map
    ((fun kc => (component.Path (snd kc),
                 strings.ReplaceAll (component.Path (snd kc)) "." "/"))
       <$> map_to_list (component.loaded (registry p))).

Record ProcessResult := mkProcessResult {
  HTML : string;
  Files : gmap string string;
  Components : gmap string string
}.

(** [Assembler] wraps [Process] and places the asset tags. *)
Definition Assembler (node : option blueprint.Node) (p : Processor)
  : Res (result ProcessResult * Processor) :=
  '(html, e, p) ← Process node p;
  match e with
  | Some msg => Ok (err ("processing template: " +:+ msg), p)
  | None =>
      let '(stylesTag, scriptTags) := assets.GetAssetTags "" (assets p) in
      let '(html, finalBuf) :=
        if hasStyles p
        then (strings.ReplaceAll html "{{styles}}" stylesTag, "")
        else if negb (String.eqb stylesTag "") then (html, stylesTag)
        else (html, "") in
      let finalBuf := finalBuf +:+ html in
      let finalBuf :=
        if hasScripts p then strings.ReplaceAll finalBuf "{{script}}" scriptTags
        else if negb (String.eqb scriptTags "") then finalBuf +:+ scriptTags
        else finalBuf in
      Ok (ok {| HTML := finalBuf; Files := assets.GetFiles (assets p);
                Components := GetUsedComponents p |}, p)
  end.

End Process.

End template.

(** ** Package [builder]: one blueprint from source text to written files *)

Module builder.

Section Build.

Variable generateHash : string -> string.

(** The pre-pass that loads the component of every node. *)
Fixpoint eachLoad {N : Type}
  (load : N -> component.Registry -> storage.Storage
          -> option string * component.Registry * storage.Storage)
  (children : list N) (r : component.Registry) (s : storage.Storage)
  : option string * component.Registry * storage.Storage :=
  match children with
  | [] => (None, r, s)
  | child :: rest =>
      match load child r s with
      | (Some e, r', s') => (Some e, r', s')
      | (None, r', s') => eachLoad load rest r' s'
      end
  end.

Fixpoint loadNode (node : blueprint.Node) (r : component.Registry)
  (s : storage.Storage) : option string * component.Registry * storage.Storage :=
  match node with
  | blueprint.mkNode block children =>
      let path := blueprint.Path block in
      if blueprint.ID block =? -1 then eachLoad loadNode children r s
      else
        match component.Load path r s with
        | (err msg, r', s') =>
            (Some ("loading component " +:+ path +:+ ": " +:+ msg), r', s')
        | (ok _, r', s') => eachLoad loadNode children r' s'
        end
  end.

Definition loadComponents (node : option blueprint.Node)
  (r : component.Registry) (s : storage.Storage)
  : option string * component.Registry * storage.Storage :=
  match node with
  | None => (None, r, s)
  | Some node => loadNode node r s
  end.

Definition outputDir (name : string) : string :=
  let ext := filepath.Ext name in
  if String.eqb ext ".css" then "css"
  else if String.eqb ext ".js" then "js"
  else "assets".

(** [writeOutput] ranges over [result.Files] in the order of
    [map_to_list]. *)
Definition writeOutput (outputRel : string) (result : template.ProcessResult)
  (s : storage.Storage) : option string * storage.Storage :=
  let outputPath := strings.TrimPrefix outputRel "blueprints/" in
  let files : gmap string string :=
    {[ outputPath +:+ ".html" := template.HTML result ]} in
  let files :=
    fold_left
      (fun files nc =>
         <[filepath.Join [outputDir (fst nc); fst nc] := snd nc]> files)
      (map_to_list (template.Files result)) files in
  storage.WriteOutput (storage.GetTargetPath s) files s.

Definition wrapErr (prefix : string) (e : option string) : option string :=
  (fun msg => prefix +:+ ": " +:+ msg) <$> e.

(** [processBlueprint]: the error it returns ([None] is [nil]) and the
    store with the calls made.  The source makes the processor before the
    components are loaded; it holds the registry by reference, so it sees all
    of them, as the processor made here after the loading does. *)
Definition processBlueprint (path outputRel : string) (s : storage.Storage)
  : Res (option string * storage.Storage) :=
  match storage.ReadBlueprint path s with
  | (err msg, s) => Ok (Some ("reading blueprint: " +:+ msg), s)
  | (ok content, s) =>
      let registry := component.New in
      match blueprint.New content with
      | (_, Some e) => Ok (Some ("parsing blueprint: " +:+ e), s)
      | (tree, None) =>
          match loadComponents tree registry s with
          | (Some e, _, s) => Ok (Some ("loading components: " +:+ e), s)
          | (None, registry, s) =>
              let processor := template.New registry in
              '(r, _) ← template.Assembler generateHash tree processor;
              match r with
              | err msg => Ok (Some ("processing template: " +:+ msg), s)
              | ok result =>
                  let '(e, s) := writeOutput outputRel result s in
                  Ok (wrapErr "writing output" e, s)
              end
          end
      end
  end.

End Build.

End builder.


(** ** Vocabulary of the properties *)

Module templateSpec.
Import template.

Definition notRangeStart (t : Token) : Prop := Type_ t <> RangeStartToken.
Definition notRangeEnd (t : Token) : Prop := Type_ t <> RangeEndToken.

(** Every bound variable has at least one value. *)
Definition goodVars (vars : gmap string (list string)) : Prop :=
  forall name values, vars !! name = Some values -> values <> [].

(** What the tokens of a loop body do while the loop is open: nothing but
    to record the style and script markers. *)
Definition markToken (p : Processor) (t : Token) : Processor :=
  match Type_ t with
  | StyleToken => setHasStyles p
  | ScriptToken => setHasScripts p
  | _ => p
  end.

Definition skipRange (body : list Token) (p : Processor) : Processor :=
  fold_left markToken body p.

(** The loop variables once a range over [name] with the given body is
    closed, having been opened with the variables [v]. *)
Definition afterRange (vars : gmap string (list string)) (name : string)
  (body : list Token) (v : loopVars) : loopVars :=
  let values := default (rangeContent v) (vars !! name) in
  {| buf := buf v +:+
            String.concat ""
              ((fun value => rangeBody vars name value body) <$> values);
     rangeVar := name; rangeContent := values; inRange := false;
     rangeStart := -1 |}.

(** The output of [processTemplate], from the final loop variables. *)
Definition finish (r : Res (loopVars * Processor)) : Res (string * Processor) :=
  '(v, p) ← r; Ok (buf v, p).

End templateSpec.

(** ** Concrete inputs used to exercise the properties *)

Module Examples.

Definition nl : string := String "010" "".

(** A hash for the examples: the content itself. *)
Definition idHash (content : string) : string := content.

Definition noChildren (p : template.Processor)
  : Res (string * template.Processor) := Ok ("", p).

Definition freshProcessor : template.Processor := template.New component.New.

Definition listTemplate : string :=
  "<ul>{{range .items}}<li>{{.items}}: {{.title}}</li>{{range end}}</ul>".

Definition listVars : gmap string (list string) :=
  {[ "items" := ["a"; "b"; "c"]; "title" := ["T"] ]}.

Definition twoRangesTemplate : string :=
  "{{range .items}}[{{.items}}]{{range end}} and {{range .missing}}<{{.missing}}>{{range end}}.".

End Examples.

Module treeSpec.
Import blueprint.

(** All the nodes of a tree, the node itself first. *)
Fixpoint nodes (n : Node) : list Node :=
  n :: concat (map nodes (Children n)).

(** The last and the first segment of the index of a node. *)
Definition lastSegment (n : Node) : Z := List.last (Index (NodeBlock n)) 0.
Definition firstSegment (n : Node) : Z := hd 0 (Index (NodeBlock n)).

End treeSpec.

Module processSpec.
Import template.

(** [p'] is [p] after some processing: the registry is the same and no
    collected error is lost. *)
Definition extends (p p' : Processor) : Prop :=
  registry p' = registry p /\ (forall e, e ∈ errLines p -> e ∈ errLines p').

(** The error that [Process] collects for a node whose component is
    missing. *)
Definition notFound (path : string) (p : Processor) : Processor :=
  addError 0 path ("component not found: " +:+ path) p.

End processSpec.

Module TreeExamples.
Import blueprint.

Definition rootBlock : Block :=
  {| Path := ""; Index := []; ID := -1; Vars := ∅ |}.

Definition plain : component.Component :=
  {| component.Path := "plain"; component.Template := "<p>{{.x}}</p>";
     component.Styles := ""; component.Scripts := ∅ |}.

Definition smallRegistry : component.Registry :=
  {| component.loaded := {[ "plain" := plain ]} |}.

Definition smallProcessor : template.Processor := template.New smallRegistry.

Definition plainNode (id : Z) (x : string) (children : list Node) : Node :=
  mkNode {| Path := "plain"; Index := [id + 1]; ID := id;
            Vars := {[ "x" := [x] ]} |} children.

Definition missingNode (id : Z) (index : list Z) : Node :=
  mkNode {| Path := "missing"; Index := index; ID := id; Vars := ∅ |} [].

(** A missing component between two siblings. *)
Definition missingBetween : Node :=
  mkNode rootBlock [plainNode 0 "1" []; missingNode 1 [2]; plainNode 2 "2" []].

(** A missing component below a component whose template has no
    [{{component}}] directive. *)
Definition missingBelow : Node :=
  mkNode rootBlock [plainNode 0 "1" [missingNode 1 [1; 1]]].

End TreeExamples.

Module PageExamples.
Import blueprint.

(** A page whose template declares where the style sheet goes. *)
Definition markedPage : component.Component :=
  {| component.Path := "page";
     component.Template := "<head>{{styles}}</head><body>{{.x}}</body>";
     component.Styles := "body{}" +:+ Examples.nl;
     component.Scripts := ∅ |}.

(** The same page without the marker. *)
Definition unmarkedPage : component.Component :=
  {| component.Path := "page";
     component.Template := "<head></head><body>{{.x}}</body>";
     component.Styles := "body{}" +:+ Examples.nl;
     component.Scripts := ∅ |}.

Definition processorOf (page : component.Component) : template.Processor :=
  template.New {| component.loaded := {[ "page" := page ]} |}.

Definition pageTree : Node :=
  mkNode TreeExamples.rootBlock
    [mkNode {| Path := "page"; Index := [1]; ID := 0;
               Vars := {[ "x" := ["hi"] ]} |} []].

Definition linkTag : string :=
  "<link rel=" +:+ assets.dq +:+ "stylesheet" +:+ assets.dq +:+ " href="
  +:+ assets.dq +:+ "css/styles.css" +:+ assets.dq +:+ ">".

(** The page built from an assembled result, if there is one. *)
Definition htmlOf (r : Res (result template.ProcessResult * template.Processor))
  : option string :=
  match r with
  | Ok (ok res, _) => Some (template.HTML res)
  | _ => None
  end.

Definition filesOf (r : Res (result template.ProcessResult * template.Processor))
  : option (gmap string string) :=
  match r with
  | Ok (ok res, _) => Some (template.Files res)
  | _ => None
  end.

(** A blueprint with the index [1] given twice. *)
Definition duplicateIndex : string := "1 a" +:+ Examples.nl +:+ "1 b".

Definition diskWith (blueprint : string) : storage.FS :=
  {| storage.blueprintFile := fun _ => ok blueprint;
     storage.listFiles := fun _ _ => ok [];
     storage.readFile := fun _ _ => ok "";
     storage.writeFile := fun _ _ => None |}.

End PageExamples.

Module componentSpec.
Import storage.

(** The calls that load one component: find and read the template, list and
    read the style sheets, list and read the scripts. *)
Definition readSet (fsPath templateFile : string) (cssFiles jsFiles : list string)
  : list Call :=
  [CallList fsPath ".html"; CallReadComponent fsPath templateFile;
   CallList fsPath ".css"]
  ++ (CallReadComponent fsPath <$> cssFiles)
  ++ [CallList fsPath ".js"]
  ++ (CallReadComponent fsPath <$> jsFiles).

(** A component directory with one template, one style sheet, one script. *)
Definition cardDisk : FS :=
  {| blueprintFile := fun _ => err "no blueprint";
     listFiles := fun _ ext =>
       if String.eqb ext ".html" then ok ["card.html"]
       else if String.eqb ext ".css" then ok ["card.css"]
       else ok ["card.js"];
     readFile := fun _ filename => ok ("content of " +:+ filename);
     writeFile := fun _ _ => None |}.

Definition cardStore : Storage := New "in" "out" cardDisk.

Definition card : component.Component :=
  {| component.Path := "sample.card";
     component.Template := "content of card.html";
     component.Styles := "content of card.css" +:+ String "010" "";
     component.Scripts := {[ "card.js" := "content of card.js" ]} |}.

End componentSpec.

Module assetsSpec.
Import assets.

(** The name under which a script of a component is put out. *)
Definition outName (comp : component.Component) (origName : string) : string :=
  sanitizeFileName (component.Path comp) +:+ "-"
  +:+ strings.TrimSuffix origName ".js".

Definition jsName (filename : string) : string :=
  sanitizeFileName filename +:+ ".js".




End assetsSpec.

Module blueprintSpec.
Import blueprint.

(** What the parser guarantees of every block: an index with at least one
    segment, and at least one value for every variable bound. *)
Definition goodBlock (b : Block) : Prop :=
  Index b <> [] /\ templateSpec.goodVars (Vars b).

(** The key of a block in the index map of [buildTree]. *)
Definition blockKey (b : Block) : string := indexKey (Index b).

End blueprintSpec.

Module heapSpec.
Import blueprint.

Definition keyAt (heap : list cell) (node : nat) : string :=
  indexKey (indexOf heap node).

(** What holds of the heap and the index map all along the block loop of
    [buildTree]: the root is at address [0]; the map sends the key of every
    node to its address and nothing else; children have a later address than
    their parent and are listed once; and the children of a node other than
    the root are those whose index, less its last segment, has the key of
    the node. *)
Record heapInv (heap : list cell) (nodeMap : gmap string nat) : Prop := {
  inv_root : indexOf heap O = [] /\ (0 < length heap)%nat;
  inv_map : forall key a,
    nodeMap !! key = Some a -> (a < length heap)%nat /\ keyAt heap a = key;
  inv_reg : forall a, (a < length heap)%nat -> nodeMap !! keyAt heap a = Some a;
  inv_later : forall a c ca,
    heap !! a = Some ca -> c ∈ cellChildren ca -> (a < c < length heap)%nat;
  inv_parent : forall a c ca,
    heap !! a = Some ca -> a <> O -> c ∈ cellChildren ca ->
    indexOf heap c <> []
    /\ indexKey (removelast (indexOf heap c)) = keyAt heap a;
  inv_nodup : forall a ca, heap !! a = Some ca -> NoDup (cellChildren ca)
}.

End heapSpec.

Module orderSpec.
Import blueprint treeSpec.

(** The children of a node are in strictly ascending order of the last
    segment of their index. *)
Definition childrenAscending (n : Node) : Prop :=
  StronglySorted Z.lt (lastSegment <$> Children n).

(** The same of every node of a subtree. *)
Definition subtreeAscending (n : Node) : Prop :=
  Forall childrenAscending (nodes n).

(** The children of the root are in ascending order of the first segment
    of their index, and may tie. *)
Definition rootOrdered (root : Node) : Prop :=
  StronglySorted Z.le (firstSegment <$> Children root).

End orderSpec.

Module ParseExamples.
Import blueprint.

Definition line (l : list string) : string := String.concat Examples.nl l.

(** A parent with two children given out of order. *)
Definition family : string := line ["1 p"; "1.2 a"; "1.1 b"].

(** The same with the children given in order. *)
Definition familyInOrder : string := line ["1 p"; "1.1 b"; "1.2 a"].

Definition familyTree : Node :=
  mkNode {| Path := ""; Index := []; ID := -1; Vars := ∅ |}
    [mkNode {| Path := "p"; Index := [1]; ID := 0; Vars := ∅ |}
       [mkNode {| Path := "b"; Index := [1; 1]; ID := 2; Vars := ∅ |} [];
        mkNode {| Path := "a"; Index := [1; 2]; ID := 1; Vars := ∅ |} []]].

(** The two children alone: their parent [1] is not in the blueprint. *)
Definition orphans : string := line ["1.2 a"; "1.1 b"].

(** Components [a] and [b] that write their own name, and [p] that writes
    its children in brackets. *)
Definition lettersRegistry : component.Registry :=
  {| component.loaded :=
       {[ "a" := {| component.Path := "a"; component.Template := "A";
                    component.Styles := ""; component.Scripts := ∅ |};
          "b" := {| component.Path := "b"; component.Template := "B";
                    component.Styles := ""; component.Scripts := ∅ |};
          "p" := {| component.Path := "p";
                    component.Template := "P({{component}})";
                    component.Styles := ""; component.Scripts := ∅ |} ]} |}.

(** The page of a blueprint over [lettersRegistry]. *)
Definition render (content : string) : option string :=
  match template.Process Examples.idHash (fst (New content))
          (template.New lettersRegistry) with
  | Ok (html, _, _) => Some html
  | Panic => None
  end.

Definition onlyComment : string := line ["# nothing but a comment"; ""].

End ParseExamples.

Module tokenSpec.
Import template.

(** The text token for the text before a directive, if there is any. *)
Definition textToken (text : string) : list Token :=
  if Nat.ltb O (String.length text) then [mkToken TextToken text] else [].

End tokenSpec.

Module walkSpec.
Import template.

(** The pair by which [addError] tells a duplicate. *)
Definition errorKey (e : processError) : Z * string := (line e, directive e).

(** No two collected errors have the same line and directive. *)
Definition distinctErrors (p : Processor) : Prop :=
  NoDup (errorKey <$> errLines p).

(** The error that [Process] collects for a component that is missing. *)
Definition notFoundError (path : string) : processError :=
  mkProcessError 0 path ("component not found: " +:+ path).

(** A node, other than the virtual root, whose component is not in the
    registry. *)
Definition unresolved (r : component.Registry) (n : blueprint.Node) : Prop :=
  blueprint.ID (blueprint.NodeBlock n) <> -1
  /\ component.Get (blueprint.Path (blueprint.NodeBlock n)) r = None.

(** The processor after a walk over nodes among [among]: the registry is
    the same, and every error is an old one or the error of an unresolved
    node among them. *)
Definition soundErrors (among : list blueprint.Node) (p p' : Processor) : Prop :=
  registry p' = registry p
  /\ forall e, e ∈ errLines p' ->
       e ∈ errLines p
       \/ exists m, m ∈ among /\ unresolved (registry p) m
                    /\ e = notFoundError (blueprint.Path (blueprint.NodeBlock m)).

(** No [{{component}}] directive among the tokens. *)
Definition noComponentToken (tokens : list Token) : Prop :=
  Forall (fun t => Type_ t <> ComponentToken) tokens.

End walkSpec.

Module registrySpec.
Import component.

(** Every cached component is cached under its own path. *)
Definition keyed (r : Registry) : Prop :=
  forall k c, loaded r !! k = Some c -> Path c = k.

(** The calls that change the disk. *)
Definition isWrite (c : storage.Call) : bool :=
  match c with storage.CallWrite _ _ => true | _ => false end.

(** The store [s'] is the store [s] after some calls that read: the paths
    and the disk are the same, and the calls made since are no writes. *)
Definition readOnly (s s' : storage.Storage) : Prop :=
  storage.sourcePath s' = storage.sourcePath s
  /\ storage.targetPath s' = storage.targetPath s
  /\ storage.fs s' = storage.fs s
  /\ exists new, storage.calls s' = storage.calls s ++ new
                 /\ Forall (fun c => isWrite c = false) new.

(** A store operation that only reads, whether it fails or not. *)
Definition reads {A : Type} (m : IO A) : Prop :=
  forall s, readOnly s (snd (m s)).

(** What the pre-pass does from a node on: it only reads the store, it
    only adds to the registry, and if it returns no error the component of
    every node it went through is in the registry. *)
Definition loadSpec (among : list blueprint.Node) (r : Registry)
    (s : storage.Storage) (out : option string * Registry * storage.Storage)
  : Prop :=
  let '(e, r', s') := out in
  readOnly s s' /\ loaded r ⊆ loaded r' /\ (keyed r -> keyed r')
  /\ (e = None -> Forall (fun m => ~ walkSpec.unresolved r' m) among).

End registrySpec.

Module storeSpec.
Import storage.

(** The call that writes one file of the map handed to [WriteOutput]. *)
Definition writeCall (outputPath : string) (file : string * string) : Call :=
  CallWrite (filepath.Join [outputPath; fst file]) (snd file).

(** What the disk answers to that write. *)
Definition writeResult (s : Storage) (outputPath : string)
  (file : string * string) : option string :=
  writeFile (fs s) (filepath.Join [outputPath; fst file]) (snd file).

End storeSpec.

Module managerSpec.
Import assets.

(** The lists of keys and the maps of the manager agree: each list holds
    the keys of its map, every key once, and every content is kept under
    its own hash. *)
Record inSync (generateHash : string -> string) (m : Manager) : Prop := {
  css_nodup : NoDup (cssKeys m);
  css_keys : forall h, h ∈ cssKeys m <-> is_Some (css m !! h);
  css_hash : forall h c, css m !! h = Some c -> h = generateHash c;
  js_nodup : NoDup (jsKeys m);
  js_keys : forall h, h ∈ jsKeys m <-> is_Some (js m !! h);
  js_hash : forall h a,
    js m !! h = Some a -> h = generateHash (content a) /\ files a <> []
}.

(** A component with one script, and the manager after two nodes that use
    it. *)
Definition widget : component.Component :=
  {| component.Path := "ui.widget"; component.Template := "<b></b>";
     component.Styles := "b{}"; component.Scripts := {[ "main.js" := "go()" ]} |}.

Definition widgetTwice : Manager :=
  ProcessComponent Examples.idHash widget
    (ProcessComponent Examples.idHash widget New).

End managerSpec.

Module nameSpec.

(** Every byte of the string passes the test. *)
Fixpoint allBytes (test : ascii -> bool) (s : string) : bool :=
  match s with
  | EmptyString => true
  | String c s' => test c && allBytes test s'
  end.

(** The bytes of a sanitized name: letters, digits and the dash. *)
Definition safeByte (c : ascii) : bool := assets.isAlnum c || Ascii.eqb c "-".

(** The replacement that [sanitizeFileName] maps over the path. *)
Definition dashOther (r : ascii) : ascii :=
  if assets.isAlnum r then r else "-"%char.

End nameSpec.

Module parseSpec.
Import blueprint.

(** The state of the line loop of [New] is in step: [id] counts the
    blocks, and the block at position [i] has the ID [i]. *)
Definition numbered (st : list Block * Z) : Prop :=
  snd st = Z.of_nat (length (fst st))
  /\ forall i b, fst st !! i = Some b -> ID b = Z.of_nat i.

(** A line that the parser passes over: blank, or a comment. *)
Definition skipped (line : string) : Prop :=
  strings.TrimSpace line = ""
  \/ strings.HasPrefix (strings.TrimSpace line) "#" = true.

(** The index of a child is the index of its parent and one segment
    more. *)
Definition extendsIndex (parent child : Node) : Prop :=
  Index (NodeBlock child) <> []
  /\ removelast (Index (NodeBlock child)) = Index (NodeBlock parent).

End parseSpec.

Module coverSpec.
Import blueprint.

(** The children of the cell at an address, none if nothing is there. *)
Definition kidsAt (heap : list cell) (a : nat) : list nat :=
  from_option cellChildren [] (heap !! a).

(** The block of the cell at an address. *)
Definition blockAt (heap : list cell) (a : nat) : Block :=
  from_option cellBlock (cellBlock rootCell) (heap !! a).

(** The addresses of the subtree at [a], the address itself first, as far
    as [fuel] levels down. *)
Fixpoint subtree (fuel : nat) (heap : list cell) (a : nat) : list nat :=
  match fuel with
  | O => []
  | S fuel' => a :: concat (subtree fuel' heap <$> kidsAt heap a)
  end.

(** The new node once for every occurrence of its parent. *)
Definition under (parent node : nat) (l : list nat) : list nat :=
  l ≫= (fun x => if decide (x = parent) then [node] else []).

(** Every address of the heap is in the subtree of the root, once. *)
Definition covered (heap : list cell) : Prop :=
  forall fuel, (length heap <= fuel)%nat ->
    subtree fuel heap O ≡ₚ seq O (length heap).

End coverSpec.

Module clashSpec.
Import assets.




End clashSpec.

Module reachSpec.
Import template.

(** Whether the token loop of [processTemplate] meets a [{{component}}]
    directive with no range open, from a point where [inRange] tells
    whether one is: a range start opens a range, a range end closes it, and
    a [{{component}}] in between is passed over. *)
Fixpoint componentOutside (inRange : bool) (tokens : list Token) : bool :=
  match tokens with
  | [] => false
  | t :: rest =>
      match Type_ t with
      | ComponentToken =>
          if inRange then componentOutside inRange rest else true
      | RangeStartToken => componentOutside true rest
      | RangeEndToken => componentOutside false rest
      | _ => componentOutside inRange rest
      end
  end.

End reachSpec.

Module MissingExamples.
Import blueprint.

Definition leaf (path : string) (id : Z) (index : list Z) : Node :=
  mkNode {| Path := path; Index := index; ID := id; Vars := ∅ |} [].

(** The component [p], whose template puts its children in brackets,
    with a missing component between two children. *)
Definition pFamily : Node :=
  mkNode {| Path := "p"; Index := [1]; ID := 0; Vars := ∅ |}
    [leaf "a" 1 [1; 1]; leaf "missing" 2 [1; 2]; leaf "b" 3 [1; 3]].

Definition lettersProcessor : template.Processor :=
  template.New ParseExamples.lettersRegistry.

(** A component whose only [{{component}}] directive is inside a range,
    with a missing component below it. *)
Definition guarded : component.Component :=
  {| component.Path := "guarded";
     component.Template := "<{{range .x}}{{component}}{{range end}}>";
     component.Styles := ""; component.Scripts := ∅ |}.

Definition guardedProcessor : template.Processor :=
  template.New {| component.loaded := {[ "guarded" := guarded ]} |}.

Definition guardedBlock : Block :=
  {| Path := "guarded"; Index := [1]; ID := 0; Vars := ∅ |}.

Definition guardedFamily : Node :=
  mkNode guardedBlock [leaf "missing" 1 [1; 1]].

End MissingExamples.

Module filesSpec.

(** The path, below the target directory, under which [writeOutput] files
    an asset. *)
Definition assetPath (name : string) : string :=
  filepath.Join [builder.outputDir name; name].

(** One turn of the loop of [writeOutput] over the files of the result. *)
Definition fileAsset (files : gmap string string) (nc : string * string)
  : gmap string string :=
  <[assetPath (fst nc) := snd nc]> files.

(** The page of the widget, with the files of its two uses. *)
Definition widgetPage : template.ProcessResult :=
  {| template.HTML := "<b></b><b></b>";
     template.Files := assets.GetFiles managerSpec.widgetTwice;
     template.Components := {[ "ui.widget" := "ui/widget" ]} |}.

Definition emptyStore : storage.Storage :=
  storage.New "in" "out" (PageExamples.diskWith "").

End filesSpec.

(** ** Package [builder]: the whole site *)

Module site.

Section Build.

Variable generateHash : string -> string.

(** The loop of [Build] over the blueprints found, which stops at the
    first that fails. *)
Fixpoint buildEach (blueprints : list (string * string)) (s : storage.Storage)
  : Res (option string * storage.Storage) :=
  match blueprints with
  | [] => Ok (None, s)
  | (path, outputRel) :: rest =>
      '(e, s) ← builder.processBlueprint generateHash path outputRel s;
      match e with
      | Some msg =>
          Ok (Some ("processing blueprint " +:+ path +:+ ": " +:+ msg), s)
      | None => buildEach rest s
      end
  end.

(** [Build], given what [ListBlueprints] returns: the output path of every
    blueprint file found below the source directory, or the error of the
    directory walk.  Go leaves open the order in which [range] yields the
    entries of the map; [order] is that order, some arrangement of the
    entries. *)
Definition Build (listed : result (gmap string string))
  (order : list (string * string)) (s : storage.Storage)
  : Res (option string * storage.Storage) :=
  match listed with
  | err msg => Ok (Some ("finding blueprints: " +:+ msg), s)
  | ok _ => buildEach order s
  end.

End Build.

End site.

Module siteSpec.

(** The errors with which one blueprint can fail. *)
Definition diskError (msg : string) : Prop :=
  exists cause,
    msg = "reading blueprint: " +:+ cause
    \/ msg = "loading components: " +:+ cause
    \/ msg = "writing output: " +:+ cause.

(** Every blueprint of the list has been processed, one after the other
    from the store [s] on, each with no error; [s'] is the store after the
    last. *)
Fixpoint built (generateHash : string -> string)
  (blueprints : list (string * string)) (s s' : storage.Storage) : Prop :=
  match blueprints with
  | [] => s' = s
  | (path, outputRel) :: rest =>
      exists s1,
        builder.processBlueprint generateHash path outputRel s = Ok (None, s1)
        /\ built generateHash rest s1 s'
  end.

(** A site with one blueprint, whose component has no template. *)
Definition brokenSite : gmap string string :=
  {[ "index.blueprint" := "blueprints/index" ]}.

Definition brokenStore : storage.Storage :=
  storage.New "in" "out" (PageExamples.diskWith "1 a").

End siteSpec.

(** * Properties of the pipeline *)

(** ** Byte strings *)

Module StringFacts.

Lemma append_cons (c : ascii) (s1 s2 : string) :
  String c s1 +:+ s2 = String c (s1 +:+ s2).
Proof. reflexivity. Qed.

Lemma append_assoc (s1 s2 s3 : string) : (s1 +:+ s2) +:+ s3 = s1 +:+ (s2 +:+ s3).
Proof.
  induction s1 as [|c s1 IH]; [done|]. by rewrite !append_cons, IH.
Qed.

Lemma append_nil_r (s : string) : s +:+ "" = s.
Proof. induction s as [|c s IH]; [done|]. by rewrite append_cons, IH. Qed.

Lemma length_append (s1 s2 : string) :
  String.length (s1 +:+ s2) = (String.length s1 + String.length s2)%nat.
Proof.
  induction s1 as [|c s1 IH]; [done|]. rewrite append_cons. simpl. by rewrite IH.
Qed.

Lemma append_eq_nil (s1 s2 : string) : s1 +:+ s2 = "" -> s1 = "" /\ s2 = "".
Proof. destruct s1; [done|]. by rewrite append_cons. Qed.

End StringFacts.

(** ** The token loop of [processTemplate] *)

Module TemplateFacts.
Import template templateSpec.

Section Loop.
Variable tokens : list Token.
Variable vars : gmap string (list string).
Variable children : Processor -> Res (string * Processor).

Abbreviation run := (processTokens tokens vars children).

Lemma processTokens_app l1 l2 i st :
  run i (l1 ++ l2) st = run i l1 st ≫= run (i + Z.of_nat (length l1)) l2.
Proof.
  revert i st. induction l1 as [|t l1 IH]; intros i st; simpl.
  - by rewrite Z.add_0_r.
  - destruct (processToken tokens vars children i t st) as [st'|]; simpl; [|done].
    rewrite IH. do 2 f_equal. lia.
Qed.

(** Inside an open range no token writes anything. *)
Lemma run_in_range body i v p :
  inRange v = true -> Forall notRangeEnd body ->
  run i body (v, p) = Ok (v, skipRange body p).
Proof.
  intros Hin Hbody. revert i p.
  induction Hbody as [|t body Ht _ IH]; intros i p; simpl; [done|].
  unfold processToken, skipRange. simpl. unfold notRangeEnd in Ht.
  unfold markToken at 2.
  destruct (Type_ t) eqn:E; rewrite ?Hin; simpl; try apply IH; done.
Qed.

Lemma slice_middle {A} (pre body post : list A) (x y : A) :
  slice (Z.of_nat (length pre) + 1)
        (Z.of_nat (length pre) + 1 + Z.of_nat (length body))
        (pre ++ x :: body ++ y :: post) = Ok body.
Proof.
  unfold slice.
  rewrite !length_app. simpl. rewrite !length_app. simpl.
  match goal with |- (if ?c then _ else _) = _ =>
    assert (c = true) as ->
      by (repeat (apply andb_true_intro; split); apply Z.leb_le; lia)
  end.
  f_equal.
  replace (Z.to_nat (Z.of_nat (length pre) + 1)) with (length (pre ++ [x]))
    by (rewrite length_app; simpl; lia).
  replace (Z.to_nat _) with (length body) by lia.
  replace (pre ++ x :: body ++ y :: post) with ((pre ++ [x]) ++ body ++ y :: post)
    by (by rewrite <- app_assoc).
  rewrite drop_app_length. apply take_app_length.
Qed.

Lemma mapRes_Ok {A B} (f : A -> B) (l : list A) :
  mapRes (fun x => Ok (f x)) l = Ok (f <$> l).
Proof. induction l as [|x l IH]; simpl; [done|]. by rewrite IH. Qed.

(** A whole range block, from a closed state: the body is written once for
    every value of the range variable, or of the values left by an earlier
    range when the variable is unbound. *)
Lemma range_block pre name body post i v p :
  tokens = pre ++ mkToken RangeStartToken name :: body
               ++ mkToken RangeEndToken "" :: post ->
  i = Z.of_nat (length pre) ->
  inRange v = false ->
  Forall notRangeEnd body ->
  run i (mkToken RangeStartToken name :: body ++ [mkToken RangeEndToken ""]) (v, p)
  = Ok (afterRange vars name body v, skipRange body p).
Proof.
  intros Htok -> Hv Hbody.
  cbn [processTokens]. unfold processToken at 1. cbn [Type_ Content]. rewrite Hv.
  cbn [mbind Res_bind bindRes].
  rewrite processTokens_app.
  rewrite run_in_range by done.
  cbn [mbind Res_bind bindRes processTokens].
  unfold processToken. cbn [Type_ inRange openRange rangeContent].
  unfold rangeIteration. cbn [rangeStart openRange rangeVar].
  rewrite Htok, slice_middle.
  cbn [mbind Res_bind bindRes]. rewrite mapRes_Ok.
  cbn [mbind Res_bind bindRes]. done.
Qed.

(** Tokens that open no range leave a closed loop closed and the saved
    values as they are. *)
Lemma run_keeps_range mid i v p v' p' :
  inRange v = false -> Forall notRangeStart mid ->
  run i mid (v, p) = Ok (v', p') ->
  inRange v' = false /\ rangeContent v' = rangeContent v.
Proof.
  intros Hv Hmid. revert i v p Hv.
  induction Hmid as [|t mid Ht _ IH]; intros i v p Hv; simpl.
  - intros [= <- <-]. done.
  - unfold notRangeStart in Ht. unfold processToken.
    destruct (Type_ t) eqn:E; rewrite ?Hv; try done; simpl.
    + intros H. by apply IH in H.
    + intros H. by apply IH in H.
    + destruct (vars !! Content t) as [[|value ?]|]; simpl; try done;
        intros H; by apply IH in H.
    + destruct (children p) as [[childContent p1]|]; simpl; [|done].
      intros H. by apply IH in H.
    + intros H. by apply IH in H.
    + intros H. by apply IH in H.
Qed.

(** The loop does not panic: the body of a range is always a valid slice,
    and [values[0]] exists when every bound variable has a value. *)
Lemma run_total rest i v p :
  goodVars vars -> (forall q, children q <> Panic) ->
  0 <= i -> i + Z.of_nat (length rest) <= Z.of_nat (length tokens) ->
  (inRange v = true -> 0 <= rangeStart v < i) ->
  run i rest (v, p) <> Panic.
Proof.
  intros Hvars Hch. revert i v p.
  induction rest as [|t rest IH]; intros i v p Hi Hlen Hrs; simpl; [done|].
  simpl in Hlen.
  assert (forall v' p', (inRange v' = true -> 0 <= rangeStart v' < i + 1) ->
            run (i + 1) rest (v', p') <> Panic) as Hnext.
  { intros v' p' H. apply IH; [lia|lia|done]. }
  unfold processToken.
  destruct (Type_ t) eqn:E; destruct (inRange v) eqn:Hv; simpl;
    try (apply Hnext; simpl; intros;
         first [congruence | specialize (Hrs eq_refl); lia | lia]).
  - (* RangeEnd in a range *)
    specialize (Hrs eq_refl).
    assert (mapRes (rangeIteration tokens vars v i) (rangeContent v)
            = Ok ((fun value => rangeBody vars (rangeVar v) value
                     (firstn (Z.to_nat (i - (rangeStart v + 1)))
                        (skipn (Z.to_nat (rangeStart v + 1)) tokens)))
                    <$> rangeContent v)) as ->.
    { rewrite <- mapRes_Ok. f_equal.
      unfold rangeIteration, slice.
      match goal with |- context [if ?c then _ else _] =>
        assert (c = true) as ->
          by (repeat (apply andb_true_intro; split); apply Z.leb_le; lia)
      end. done. }
    simpl. apply Hnext. done.
  - (* Var outside a range *)
    destruct (vars !! Content t) as [[|value values]|] eqn:Hl; simpl.
    + by apply Hvars in Hl.
    + apply Hnext. simpl. congruence.
    + apply Hnext. congruence.
  - (* Component outside a range *)
    destruct (children p) as [[childContent p1]|] eqn:Hc; simpl.
    + apply Hnext. simpl. congruence.
    + by apply Hch in Hc.
Qed.

End Loop.

Lemma processTemplate_unfold tmpl vars children p :
  processTemplate tmpl vars children p
  = finish (processTokens (Tokenize tmpl) vars children 0 (Tokenize tmpl)
              (loopInit, p)).
Proof.
  unfold processTemplate, finish.
  by destruct (processTokens _ _ _ _ _ _) as [[v p']|].
Qed.

(** C6: in a template with a block [{{range .name}} body {{range end}}]
    that is met with no range open, and with [name] bound to three values
    [a], [b], [c], the body is written three times, for [a], for [b] and for
    [c] in this order; in an iteration a text token writes its text, the
    variable [name] writes the value of the iteration and any other
    variable the first value of its own binding (nothing when it has
    none).  The rest of the template carries on from there. *)
Theorem range_renders_each_value tmpl vars children p pre name body post a b c v q :
  Tokenize tmpl = pre ++ mkToken RangeStartToken name :: body
                      ++ mkToken RangeEndToken "" :: post ->
  Forall notRangeEnd body ->
  vars !! name = Some [a; b; c] ->
  processTokens (Tokenize tmpl) vars children 0 pre (loopInit, p) = Ok (v, q) ->
  inRange v = false ->
  processTemplate tmpl vars children p
  = finish (processTokens (Tokenize tmpl) vars children
              (Z.of_nat (length pre + length body + 2)) post
              ({| buf := buf v +:+ rangeBody vars name a body
                               +:+ rangeBody vars name b body
                               +:+ rangeBody vars name c body;
                  rangeVar := name; rangeContent := [a; b; c];
                  inRange := false; rangeStart := -1 |},
               skipRange body q))
  /\ (forall value text,
        rangeToken vars name value (mkToken TextToken text) = text)
  /\ (forall value,
        rangeToken vars name value (mkToken VarToken name) = value)
  /\ (forall value other, other <> name ->
        rangeToken vars name value (mkToken VarToken other)
        = match vars !! other with Some (first :: _) => first | _ => "" end).
Proof.
  intros Htok Hbody Hname Hpre Hv. split; [|split; [|split]].
  - rewrite processTemplate_unfold. f_equal.
    rewrite Htok at 2.
    replace (pre ++ mkToken RangeStartToken name :: body
                 ++ mkToken RangeEndToken "" :: post)
      with (pre ++ (mkToken RangeStartToken name :: body
                      ++ [mkToken RangeEndToken ""]) ++ post)
      by (simpl; by rewrite <- app_assoc).
    rewrite processTokens_app, Hpre. cbn [mbind Res_bind bindRes].
    rewrite processTokens_app.
    erewrite range_block by (try done; lia).
    cbn [mbind Res_bind bindRes]. unfold afterRange. rewrite Hname.
    cbn [default from_option id fmap list_fmap String.concat String.append].
    f_equal. cbn [length]. rewrite length_app. cbn [length]. lia.
  - intros value text. done.
  - intros value. unfold rangeToken. cbn [Type_ Content].
    by rewrite String.eqb_refl.
  - intros value other Hne. unfold rangeToken. cbn [Type_ Content].
    apply String.eqb_neq in Hne. by rewrite Hne.
Qed.

Lemma range_renders_each_value_witness :
  processTemplate Examples.listTemplate Examples.listVars Examples.noChildren
    Examples.freshProcessor
  = Ok ("<ul><li>a: T</li><li>b: T</li><li>c: T</li></ul>",
        Examples.freshProcessor).
Proof.
  rewrite (proj1 (range_renders_each_value
             Examples.listTemplate Examples.listVars Examples.noChildren
             Examples.freshProcessor
             [mkToken TextToken "<ul>"] "items"
             [mkToken TextToken "<li>"; mkToken VarToken "items";
              mkToken TextToken ": "; mkToken VarToken "title";
              mkToken TextToken "</li>"]
             [mkToken TextToken "</ul>"] "a" "b" "c"
             (write "<ul>" loopInit) Examples.freshProcessor
             ltac:(vm_compute; reflexivity)
             ltac:(repeat constructor; discriminate)
             ltac:(vm_compute; reflexivity)
             ltac:(vm_compute; reflexivity)
             ltac:(reflexivity))).
  vm_compute. reflexivity.
Defined.

(** C10: the values saved for a range are not cleared when the range is
    closed.  When a range over a bound variable [x] is followed by a range
    over a variable [y] that has no binding, the body of the second range
    is written once for every value of [x]. *)
Theorem second_range_reuses_values tmpl vars children p
    pre x body1 mid y body2 post values v0 p0 v1 p1 :
  Tokenize tmpl
  = pre ++ mkToken RangeStartToken x :: body1 ++ mkToken RangeEndToken ""
        :: mid ++ mkToken RangeStartToken y :: body2
        ++ mkToken RangeEndToken "" :: post ->
  Forall notRangeEnd body1 ->
  Forall notRangeStart mid ->
  Forall notRangeEnd body2 ->
  vars !! x = Some values ->
  vars !! y = None ->
  processTokens (Tokenize tmpl) vars children 0 pre (loopInit, p) = Ok (v0, p0) ->
  inRange v0 = false ->
  processTokens (Tokenize tmpl) vars children
    (Z.of_nat (length pre + length body1 + 2)) mid
    (afterRange vars x body1 v0, skipRange body1 p0) = Ok (v1, p1) ->
  processTemplate tmpl vars children p
  = finish (processTokens (Tokenize tmpl) vars children
              (Z.of_nat (length pre + length body1 + 2 + length mid
                         + length body2 + 2)) post
              ({| buf := buf v1 +:+
                         String.concat ""
                           ((fun value => rangeBody vars y value body2)
                              <$> values);
                  rangeVar := y; rangeContent := values;
                  inRange := false; rangeStart := -1 |},
               skipRange body2 p1)).
Proof.
  intros Htok Hb1 Hmid Hb2 Hx Hy Hpre Hv0 Hrun.
  rewrite processTemplate_unfold. f_equal.
  pose (first := mkToken RangeStartToken x :: body1 ++ [mkToken RangeEndToken ""]).
  pose (second := mkToken RangeStartToken y :: body2 ++ [mkToken RangeEndToken ""]).
  assert (length first = (length body1 + 2)%nat) as Hlen1
    by (unfold first; cbn [length]; rewrite length_app; cbn [length]; lia).
  assert (length second = (length body2 + 2)%nat) as Hlen2
    by (unfold second; cbn [length]; rewrite length_app; cbn [length]; lia).
  assert (Tokenize tmpl = pre ++ first ++ mid ++ second ++ post) as Hsplit.
  { rewrite Htok. unfold first, second. simpl.
    rewrite <- ?app_assoc. simpl. by rewrite <- ?app_assoc. }
  rewrite Hsplit at 2.
  rewrite processTokens_app, Hpre. cbn [mbind Res_bind bindRes].
  rewrite processTokens_app.
  rewrite (range_block _ _ _ pre x body1
             (mid ++ mkToken RangeStartToken y :: body2
                  ++ mkToken RangeEndToken "" :: post))
    by first [done | lia].
  cbn [mbind Res_bind bindRes].
  rewrite processTokens_app, Hlen1.
  replace (0 + Z.of_nat (length pre) + Z.of_nat (length body1 + 2))
    with (Z.of_nat (length pre + length body1 + 2)) by lia.
  rewrite Hrun. cbn [mbind Res_bind bindRes].
  apply run_keeps_range in Hrun as [Hv1 Hvalues]; [|done|done].
  rewrite processTokens_app.
  rewrite (range_block _ _ _ (pre ++ first ++ mid) y body2 post); try done.
  - cbn [mbind Res_bind bindRes]. unfold afterRange at 1.
    rewrite Hy, Hvalues. cbn [default from_option id afterRange rangeContent].
    rewrite Hx. cbn [default from_option id].
    f_equal. rewrite Hlen2. lia.
  - rewrite Hsplit. unfold second. rewrite <- ?app_assoc. simpl.
    by rewrite <- ?app_assoc.
  - rewrite !length_app, Hlen1. lia.
Qed.

Lemma second_range_reuses_values_witness :
  processTemplate Examples.twoRangesTemplate Examples.listVars
    Examples.noChildren Examples.freshProcessor
  = Ok ("[a][b][c] and <a><b><c>.", Examples.freshProcessor).
Proof.
  rewrite (second_range_reuses_values
             Examples.twoRangesTemplate Examples.listVars Examples.noChildren
             Examples.freshProcessor
             [] "items"
             [mkToken TextToken "["; mkToken VarToken "items";
              mkToken TextToken "]"]
             [mkToken TextToken " and "] "missing"
             [mkToken TextToken "<"; mkToken VarToken "missing";
              mkToken TextToken ">"]
             [mkToken TextToken "."] ["a"; "b"; "c"]
             loopInit Examples.freshProcessor
             (write " and "
                (afterRange Examples.listVars "items"
                   [mkToken TextToken "["; mkToken VarToken "items";
                    mkToken TextToken "]"] loopInit))
             Examples.freshProcessor
             ltac:(vm_compute; reflexivity)
             ltac:(repeat constructor; discriminate)
             ltac:(repeat constructor; discriminate)
             ltac:(repeat constructor; discriminate)
             ltac:(vm_compute; reflexivity)
             ltac:(vm_compute; reflexivity)
             ltac:(vm_compute; reflexivity)
             ltac:(reflexivity)
             ltac:(vm_compute; reflexivity)).
  vm_compute. reflexivity.
Defined.

End TemplateFacts.

(** ** The walk of the tree *)

Module ProcessFacts.
Import template templateSpec processSpec treeSpec.

Lemma Node_induction (P : blueprint.Node -> Prop) :
  (forall block children, Forall P children ->
     P (blueprint.mkNode block children)) ->
  forall n, P n.
Proof.
  intros H. fix IH 1. intros [block children]. apply H.
  induction children as [|c cs IHcs]; constructor; [apply IH | exact IHcs].
Qed.

Lemma extends_refl p : extends p p.
Proof. by split. Qed.

Lemma extends_trans p q r : extends p q -> extends q r -> extends p r.
Proof. intros [H1 H2] [H3 H4]. split; [congruence | auto]. Qed.

Lemma addError_extends line directive msg p :
  extends p (addError line directive msg p).
Proof.
  unfold addError. destruct (existsb _ _); split; simpl; try done.
  intros e He. apply elem_of_app. by left.
Qed.

Lemma addError_collected line directive msg p :
  exists e, e ∈ errLines (addError line directive msg p)
            /\ template.line e = line /\ template.directive e = directive.
Proof.
  unfold addError. destruct (existsb _ _) eqn:E.
  - apply existsb_exists in E as (e & He & Hsame).
    unfold sameError in Hsame. apply andb_true_iff in Hsame as [H1 H2].
    exists e. split; [by apply list_elem_of_In|].
    split; [by apply Z.eqb_eq | by apply String.eqb_eq].
  - exists (mkProcessError line directive msg). split; [|done].
    simpl. apply elem_of_app. right. by apply list_elem_of_singleton.
Qed.

Section Walk.
Variable generateHash : string -> string.

Abbreviation ProcessNode := (template.ProcessNode generateHash).

Lemma eachChild_app {N} (f : N -> Processor -> Res (string * option string * Processor))
    l1 l2 p :
  eachChild f (l1 ++ l2) p
  = '(out1, p1) ← eachChild f l1 p;
    '(out2, p2) ← eachChild f l2 p1;
    Ok (out1 +:+ out2, p2).
Proof.
  revert p. induction l1 as [|c l1 IH]; intros p; simpl.
  - by destruct (eachChild f l2 p) as [[out2 p2]|].
  - destruct (f c p) as [[[childContent e] p1]|]; simpl; [|done].
    rewrite IH.
    destruct (eachChild f l1 p1) as [[out1 p2]|]; simpl; [|done].
    destruct (eachChild f l2 p2) as [[out2 p3]|]; simpl; [|done].
    by rewrite StringFacts.append_assoc.
Qed.

Lemma eachChild_total {N}
    (f : N -> Processor -> Res (string * option string * Processor)) l p :
  Forall (fun c => forall q, f c q <> Panic) l -> eachChild f l p <> Panic.
Proof.
  intros Hl. revert p. induction Hl as [|c l Hc _ IH]; intros p; simpl; [done|].
  destruct (f c p) as [[[childContent e] p1]|] eqn:E; simpl.
  - specialize (IH p1). by destruct (eachChild f l p1) as [[out p2]|].
  - by apply Hc in E.
Qed.

Lemma eachChild_extends {N}
    (f : N -> Processor -> Res (string * option string * Processor)) l p out p' :
  Forall (fun c => forall q o e q', f c q = Ok (o, e, q') -> extends q q') l ->
  eachChild f l p = Ok (out, p') -> extends p p'.
Proof.
  intros Hl. revert p out p'.
  induction Hl as [|c l Hc _ IH]; intros p out p'; simpl.
  - intros [= <- <-]. apply extends_refl.
  - destruct (f c p) as [[[childContent e] p1]|] eqn:E; simpl; [|done].
    destruct (eachChild f l p1) as [[out1 p2]|] eqn:E2; simpl; [|done].
    intros [= <- <-]. eapply extends_trans; eauto.
Qed.

Lemma processTokens_extends tokens vars children i rest v p v' p' :
  (forall q o q', children q = Ok (o, q') -> extends q q') ->
  processTokens tokens vars children i rest (v, p) = Ok (v', p') ->
  extends p p'.
Proof.
  intros Hch. revert i v p.
  induction rest as [|t rest IH]; intros i v p; cbn [processTokens].
  - intros [= <- <-]. apply extends_refl.
  - destruct (processToken tokens vars children i t (v, p))
      as [[v1 p1]|] eqn:E; simpl; [|done].
    intros Hrest. apply IH in Hrest.
    eapply extends_trans; [|exact Hrest].
    unfold processToken in E.
    destruct (Type_ t); destruct (inRange v); simpl in E;
      try (injection E as <- <-; by split).
    + destruct (mapRes _ _); simpl in E; [|done].
      injection E as <- <-. apply extends_refl.
    + destruct (vars !! Content t) as [[|value ?]|]; try done;
        injection E as <- <-; apply extends_refl.
    + destruct (children p) as [[o q']|] eqn:Ec; simpl in E; [|done].
      injection E as <- <-. by eapply Hch.
Qed.

Lemma processAssets_extends comp path p :
  extends p (processAssets generateHash comp path p).
Proof. by split. Qed.

Lemma ProcessNode_extends n :
  forall p out e p', ProcessNode n p = Ok (out, e, p') -> extends p p'.
Proof.
  induction n as [block children IH] using Node_induction.
  intros p out e p'. simpl.
  destruct (blueprint.ID block =? -1).
  - destruct (eachChild _ children p) as [[o q]|] eqn:E; simpl; [|done].
    intros [= <- <- <-]. by eapply eachChild_extends.
  - destruct (component.Get _ _) as [comp|].
    + destruct (processTemplate _ _ _ _) as [[o q]|] eqn:E; simpl; [|done].
      intros [= <- <- <-].
      unfold processTemplate in E.
      destruct (processTokens _ _ _ _ _ _) as [[v q']|] eqn:E2; simpl in E; [|done].
      injection E as <- <-.
      eapply extends_trans; [apply processAssets_extends|].
      eapply processTokens_extends; [|exact E2].
      intros q1 o1 q2. by apply eachChild_extends.
    + intros [= <- <- <-]. apply addError_extends.
Qed.

Lemma eachChild_ProcessNode_extends children p out p' :
  eachChild ProcessNode children p = Ok (out, p') -> extends p p'.
Proof.
  apply eachChild_extends. apply Forall_forall. intros c _.
  apply ProcessNode_extends.
Qed.

End Walk.

Import reachSpec.

Lemma collected_is_reported p e :
  e ∈ errLines p -> exists msg, processingError p = Some msg.
Proof.
  unfold processingError. destruct (errLines p) as [|e0 errs].
  - by intros ?%elem_of_nil.
  - by eexists.
Qed.

(** The token loop only ever appends to the buffer. *)
Lemma processTokens_buf tokens vars children i rest v p v' p' :
  processTokens tokens vars children i rest (v, p) = Ok (v', p') ->
  exists tail, buf v' = buf v +:+ tail.
Proof.
  revert i v p. induction rest as [|t rest IH]; intros i v p;
    cbn [processTokens].
  - intros [= <- <-]. exists "". by rewrite StringFacts.append_nil_r.
  - destruct (processToken tokens vars children i t (v, p))
      as [[v1 p1]|] eqn:E; cbn [mbind Res_bind bindRes]; [|done].
    intros Hrest. apply IH in Hrest as [tail Htail].
    assert (exists tail1, buf v1 = buf v +:+ tail1) as [tail1 Htail1].
    { unfold processToken in E.
      destruct (Type_ t); destruct (inRange v); cbn [mbind Res_bind bindRes] in E;
        try (injection E as <- <-; first
               [by exists ""; rewrite StringFacts.append_nil_r
               |by eexists]).
      - destruct (mapRes _ _); cbn [mbind Res_bind bindRes] in E; [|done].
        injection E as <- <-. by eexists.
      - destruct (vars !! Content t) as [[|value ?]|]; try done;
          injection E as <- <-;
          first [by exists ""; rewrite StringFacts.append_nil_r|by eexists].
      - destruct (children p) as [[o q']|]; cbn [mbind Res_bind bindRes] in E;
          [|done].
        injection E as <- <-. by eexists. }
    exists (tail1 +:+ tail). by rewrite Htail, Htail1, StringFacts.append_assoc.
Qed.

(** With no [{{component}}] directive outside a range ahead, the token
    loop does not call the children. *)
Lemma processTokens_guarded tokens vars children children' i rest v p :
  componentOutside (inRange v) rest = false ->
  processTokens tokens vars children i rest (v, p)
  = processTokens tokens vars children' i rest (v, p).
Proof.
  revert i v p. induction rest as [|t rest IH]; intros i v p Hno; [done|].
  cbn [processTokens componentOutside] in *.
  unfold processToken.
  destruct (Type_ t) eqn:Et; destruct (inRange v) eqn:Ev;
    cbn [mbind Res_bind bindRes]; try done;
    try (apply IH; cbn [inRange write openRange setHasStyles]; by rewrite ?Ev).
  - destruct (mapRes _ _) as [outs|]; cbn [mbind Res_bind bindRes]; [|done].
    by apply IH.
  - destruct (vars !! Content t) as [[|value ?]|]; try done;
      cbn [mbind Res_bind bindRes]; apply IH; cbn [inRange write];
      by rewrite ?Ev.
Qed.

Section Reach.
Variable generateHash : string -> string.

Abbreviation ProcessNode := (template.ProcessNode generateHash).

(** C5, as the code has it.  When the loop over the children of a node
    meets a node whose component is not in the registry, it collects an
    error for the path of that node and writes the literal [{{<path>}}]
    between the output of the siblings before and the output of the siblings
    after, which are rendered all the same.  The loop runs under the root,
    whose output is the output of the loop, and at a [{{component}}]
    directive met with no range open, where the output of the loop is
    written after what the template has written before the directive and
    before what it writes after it.  No error collected is lost, and
    [Process] on a node that renders returns an error whenever one is
    collected.  Where the template of a node has no [{{component}}]
    directive outside a range, its children are not processed at all: the
    node gives what it gives without children. *)
Theorem unresolved_child_placeholder :
  (forall before node after path p out1 p1 out2 p2,
     blueprint.Path (blueprint.NodeBlock node) = path ->
     blueprint.ID (blueprint.NodeBlock node) <> -1 ->
     component.Get path (registry p) = None ->
     eachChild ProcessNode before p = Ok (out1, p1) ->
     eachChild ProcessNode after (notFound path p1) = Ok (out2, p2) ->
     eachChild ProcessNode (before ++ node :: after) p
     = Ok (out1 +:+ ("{{" +:+ path +:+ "}}") +:+ out2, p2)
     /\ (exists e, e ∈ errLines p2 /\ line e = 0 /\ directive e = path))
  /\ (forall block children p out p',
        blueprint.ID block = -1 ->
        eachChild ProcessNode children p = Ok (out, p') ->
        Process generateHash (Some (blueprint.mkNode block children)) p
        = Ok (out, processingError p', p'))
  /\ (forall block children comp p pre c post v q out q' v' p',
        blueprint.ID block <> -1 ->
        component.Get (blueprint.Path block) (registry p) = Some comp ->
        Tokenize (component.Template comp)
        = pre ++ mkToken ComponentToken c :: post ->
        processTokens (Tokenize (component.Template comp))
          (blueprint.Vars block) (eachChild ProcessNode children) 0 pre
          (loopInit, processAssets generateHash comp (blueprint.Path block) p)
        = Ok (v, q) ->
        inRange v = false ->
        eachChild ProcessNode children q = Ok (out, q') ->
        processTokens (Tokenize (component.Template comp))
          (blueprint.Vars block) (eachChild ProcessNode children)
          (Z.of_nat (length pre) + 1) post (write out v, q')
        = Ok (v', p') ->
        Process generateHash (Some (blueprint.mkNode block children)) p
        = Ok (buf v', processingError p', p')
        /\ (exists tail, buf v' = buf v +:+ out +:+ tail)
        /\ (forall e, e ∈ errLines q' -> e ∈ errLines p'))
  /\ (forall block children p out e p',
        Process generateHash (Some (blueprint.mkNode block children)) p
        = Ok (out, e, p') ->
        blueprint.ID block = -1
        \/ is_Some (component.Get (blueprint.Path block) (registry p)) ->
        e = processingError p'
        /\ (forall err, err ∈ errLines p -> err ∈ errLines p')
        /\ (forall err, err ∈ errLines p' -> exists msg, e = Some msg))
  /\ (forall block children comp p,
        blueprint.ID block <> -1 ->
        component.Get (blueprint.Path block) (registry p) = Some comp ->
        componentOutside false (Tokenize (component.Template comp)) = false ->
        Process generateHash (Some (blueprint.mkNode block children)) p
        = Process generateHash (Some (blueprint.mkNode block [])) p).
Proof.
  split; [|split; [|split; [|split]]].
  - intros before node after path p out1 p1 out2 p2
      Hpath Hid Hget Hbefore Hafter. split.
    + rewrite eachChild_app, Hbefore.
      cbn [mbind Res_bind bindRes eachChild].
      apply eachChild_ProcessNode_extends in Hbefore as [Hreg _].
      destruct node as [nb nch]. cbn [blueprint.NodeBlock] in *.
      cbn [template.ProcessNode].
      apply Z.eqb_neq in Hid. rewrite Hid, Hpath, Hreg, Hget.
      cbn [mbind Res_bind bindRes]. fold (notFound path p1). rewrite Hafter.
      cbn [mbind Res_bind bindRes]. done.
    + destruct (addError_collected 0 path
                  ("component not found: " +:+ path) p1)
        as (e & He & Hline & Hdir).
      exists e. split; [|done].
      apply eachChild_ProcessNode_extends in Hafter as [_ Hkeep].
      by apply Hkeep.
  - intros block children p out p' Hroot Hloop.
    cbn [Process template.ProcessNode].
    apply Z.eqb_eq in Hroot. rewrite Hroot, Hloop. done.
  - intros block children comp p pre c post v q out q' v' p'
      Hid Hget Htok Hpre Hv Hch Hpost.
    split; [|split].
    + cbn [Process template.ProcessNode].
      apply Z.eqb_neq in Hid. rewrite Hid, Hget.
      rewrite TemplateFacts.processTemplate_unfold. rewrite Htok at 2.
      rewrite TemplateFacts.processTokens_app, Hpre.
      cbn [mbind Res_bind bindRes processTokens].
      unfold processToken at 1. cbn [Type_]. rewrite Hv, Hch.
      cbn [mbind Res_bind bindRes]. rewrite Z.add_0_l, Hpost. done.
    + apply processTokens_buf in Hpost as [tail Htail]. exists tail.
      rewrite Htail. cbn [buf write]. by rewrite StringFacts.append_assoc.
    + apply processTokens_extends in Hpost as [_ Hkeep]; [done|].
      intros q1 o1 q2. apply eachChild_ProcessNode_extends.
  - intros block children p out e p' Hrun Hrenders.
    assert (e = processingError p') as ->.
    { cbn [Process template.ProcessNode] in Hrun.
      destruct (blueprint.ID block =? -1) eqn:Eid.
      - destruct (eachChild _ children p) as [[o q]|];
          cbn [mbind Res_bind bindRes] in Hrun; [|done].
        by injection Hrun as <- <- <-.
      - destruct Hrenders as [Hroot|[comp Hcomp]];
          [apply Z.eqb_neq in Eid; lia|].
        rewrite Hcomp in Hrun.
        destruct (processTemplate _ _ _ _) as [[o q]|];
          cbn [mbind Res_bind bindRes] in Hrun; [|done].
        by injection Hrun as <- <- <-. }
    split; [done|]. split; [|apply collected_is_reported].
    by apply (ProcessNode_extends generateHash) in Hrun as [_ Hkeep].
  - intros block children comp p Hid Hget Hno.
    cbn [Process template.ProcessNode].
    apply Z.eqb_neq in Hid. rewrite Hid, Hget.
    unfold processTemplate.
    by rewrite (processTokens_guarded _ _ _
                  (eachChild ProcessNode [])).
Qed.

End Reach.

Lemma unresolved_child_placeholder_witness :
  Process Examples.idHash (Some TreeExamples.missingBetween)
    TreeExamples.smallProcessor
  = Ok ("<p>1</p>{{missing}}<p>2</p>",
        processingError (notFound "missing" TreeExamples.smallProcessor),
        notFound "missing" TreeExamples.smallProcessor)
  /\ Process Examples.idHash (Some MissingExamples.pFamily)
       MissingExamples.lettersProcessor
     = Ok ("P(A{{missing}}B)",
           processingError
             (notFound "missing" MissingExamples.lettersProcessor),
           notFound "missing" MissingExamples.lettersProcessor)
  /\ (exists msg,
        processingError (notFound "missing" MissingExamples.lettersProcessor)
        = Some msg)
  /\ Process Examples.idHash (Some MissingExamples.guardedFamily)
       MissingExamples.guardedProcessor
     = Process Examples.idHash
         (Some (blueprint.mkNode MissingExamples.guardedBlock []))
         MissingExamples.guardedProcessor
  /\ Process Examples.idHash (Some MissingExamples.guardedFamily)
       MissingExamples.guardedProcessor
     = Ok ("<>", None, MissingExamples.guardedProcessor).
Proof.
  destruct (unresolved_child_placeholder Examples.idHash)
    as (Hloop & Hroot & Hdirective & Hreported & Hsilent).
  split; [|split; [|split; [|split]]].
  - apply Hroot; [reflexivity|].
    apply (Hloop [TreeExamples.plainNode 0 "1" []]
             (TreeExamples.missingNode 1 [2])
             [TreeExamples.plainNode 2 "2" []] "missing"
             TreeExamples.smallProcessor
             "<p>1</p>" TreeExamples.smallProcessor "<p>2</p>").
    + reflexivity.
    + simpl. lia.
    + vm_compute. reflexivity.
    + vm_compute. reflexivity.
    + vm_compute. reflexivity.
  - apply (Hdirective _ _
             {| component.Path := "p"; component.Template := "P({{component}})";
                component.Styles := ""; component.Scripts := ∅ |}
             MissingExamples.lettersProcessor
             [mkToken TextToken "P("] "" [mkToken TextToken ")"]
             (write "P(" loopInit) MissingExamples.lettersProcessor
             "A{{missing}}B"
             (notFound "missing" MissingExamples.lettersProcessor)
             (write ")" (write "A{{missing}}B" (write "P(" loopInit)))
             (notFound "missing" MissingExamples.lettersProcessor)).
    + simpl. lia.
    + vm_compute. reflexivity.
    + vm_compute. reflexivity.
    + vm_compute. reflexivity.
    + reflexivity.
    + vm_compute. reflexivity.
    + vm_compute. reflexivity.
  - destruct (Hreported
                {| blueprint.Path := "p"; blueprint.Index := [1];
                   blueprint.ID := 0; blueprint.Vars := ∅ |}
                [MissingExamples.leaf "a" 1 [1; 1];
                 MissingExamples.leaf "missing" 2 [1; 2];
                 MissingExamples.leaf "b" 3 [1; 3]]
                MissingExamples.lettersProcessor
                "P(A{{missing}}B)"
                (processingError
                   (notFound "missing" MissingExamples.lettersProcessor))
                (notFound "missing" MissingExamples.lettersProcessor))
      as (_ & _ & Hmsg).
    + vm_compute. reflexivity.
    + right. vm_compute. by eexists.
    + apply (Hmsg
               (mkProcessError 0 "missing" "component not found: missing")).
      vm_compute. apply list_elem_of_here.
  - apply (Hsilent _ _ MissingExamples.guarded).
    + simpl. lia.
    + vm_compute. reflexivity.
    + vm_compute. reflexivity.
  - vm_compute. reflexivity.
Defined.

(** C5 as stated fails: a node with a missing component that lies below a
    component without [{{component}}] is never processed; the tree renders
    with no error collected and no placeholder. *)
Lemma unresolved_below_plain_is_silent :
  component.Get "missing" TreeExamples.smallRegistry = None
  /\ Process Examples.idHash (Some TreeExamples.missingBelow)
       TreeExamples.smallProcessor
     = Ok ("<p>1</p>", None, TreeExamples.smallProcessor).
Proof. split; vm_compute; reflexivity. Qed.

End ProcessFacts.

(** ** The assembler *)

Module AssemblerFacts.
Import template.

(** With no marker declared in the tree, the link tag goes before the page
    and the script tags after it (either may be empty). *)
Lemma Assembler_without_markers generateHash node p html p' :
  Process generateHash node p = Ok (html, None, p') ->
  hasStyles p' = false ->
  hasScripts p' = false ->
  exists res,
    Assembler generateHash node p = Ok (ok res, p')
    /\ HTML res = fst (assets.GetAssetTags "" (assets p')) +:+ html
                  +:+ snd (assets.GetAssetTags "" (assets p'))
    /\ Files res = assets.GetFiles (assets p').
Proof.
  intros Hp Hst Hsc. unfold Assembler. rewrite Hp. cbn [mbind Res_bind bindRes].
  destruct (assets.GetAssetTags "" (assets p')) as [stylesTag scriptTags].
  rewrite Hst, Hsc. cbn [fst snd].
  destruct (String.eqb stylesTag "") eqn:E1; cbn [negb];
    destruct (String.eqb scriptTags "") eqn:E2; cbn [negb];
    eexists; (split; [reflexivity|]); cbn [HTML Files]; (split; [|done]).
  - apply String.eqb_eq in E1, E2. subst.
    by rewrite StringFacts.append_nil_r.
  - apply String.eqb_eq in E1. subst. done.
  - apply String.eqb_eq in E2. subst.
    by rewrite StringFacts.append_nil_r.
  - by rewrite StringFacts.append_assoc.
Qed.

(** A marker token writes nothing: it is recorded, and its place in the
    page is lost. *)
Lemma marker_tokens_write_nothing tokens vars children i content v p :
  processToken tokens vars children i (mkToken StyleToken content) (v, p)
  = Ok (v, setHasStyles p)
  /\ processToken tokens vars children i (mkToken ScriptToken content) (v, p)
     = Ok (v, setHasScripts p).
Proof. by split. Qed.

(** C1, where the code departs from it: a page whose template declares
    [{{styles}}] and whose component has a style sheet is assembled without
    the link tag, although the style sheet is among the files; the marker
    was dropped by the tokenizer, so nothing is left to substitute.  The same
    page without the marker gets the tag in front. *)
Theorem styles_marker_loses_link :
  let marked :=
    Assembler Examples.idHash (Some PageExamples.pageTree)
      (PageExamples.processorOf PageExamples.markedPage) in
  let unmarked :=
    Assembler Examples.idHash (Some PageExamples.pageTree)
      (PageExamples.processorOf PageExamples.unmarkedPage) in
  PageExamples.htmlOf marked = Some "<head></head><body>hi</body>"
  /\ PageExamples.filesOf marked
     = Some {[ "styles.css" := "body{}" +:+ Examples.nl ]}
  /\ PageExamples.htmlOf unmarked
     = Some (PageExamples.linkTag +:+ "<head></head><body>hi</body>")
  /\ PageExamples.filesOf unmarked
     = Some {[ "styles.css" := "body{}" +:+ Examples.nl ]}.
Proof. repeat split; vm_compute; reflexivity. Qed.

End AssemblerFacts.

(** ** One blueprint, end to end *)

Module BuilderFacts.
Import builder.

Lemma New_error_nil content : snd (blueprint.New content) = None.
Proof. reflexivity. Qed.

(** [New] never returns an error, so a blueprint for which it returns no
    tree is not a failure of [processBlueprint]: nothing is loaded, an empty
    page is written, and the error returned is that of the write alone. *)
Lemma nil_tree_writes_empty_page generateHash path outputRel s content :
  storage.blueprintFile (storage.fs s) path = ok content ->
  fst (blueprint.New content) = None ->
  let page :=
    filepath.Join [storage.targetPath s;
                   strings.TrimPrefix outputRel "blueprints/" +:+ ".html"] in
  processBlueprint generateHash path outputRel s
  = Ok (wrapErr "writing output" (storage.writeFile (storage.fs s) page ""),
        storage.record (storage.CallWrite page "")
          (storage.record (storage.CallReadBlueprint path) s)).
Proof.
  intros Hread Hnil page. unfold processBlueprint.
  cbn [storage.ReadBlueprint]. rewrite Hread.
  destruct (blueprint.New content) as [tree e] eqn:E.
  pose proof (New_error_nil content) as He. rewrite E in He.
  cbn [fst snd] in *. subst tree e.
  cbn [loadComponents].
  unfold template.Assembler. cbn [template.Process mbind Res_bind bindRes].
  change (assets.GetAssetTags "" (template.assets (template.New component.New)))
    with ("", "").
  cbn [template.hasStyles template.hasScripts template.New String.eqb negb].
  unfold writeOutput.
  change (assets.GetFiles (template.assets (template.New component.New)))
    with (∅ : gmap string string).
  cbn [mbind Res_bind bindRes template.Files template.HTML].
  rewrite map_to_list_empty. cbn [fold_left].
  change ("" +:+ "") with "".
  unfold storage.WriteOutput. rewrite map_to_list_singleton.
  cbn [storage.writeAll storage.GetTargetPath storage.record storage.fs
       storage.targetPath].
  fold page.
  by destruct (storage.writeFile (storage.fs s) page "").
Qed.

(** In [processBlueprint] a component without a template never reaches the
    processor: the pre-pass that loads the components fails, and nothing is
    written. *)
Lemma missing_template_aborts_build :
  processBlueprint Examples.idHash "index.blueprint" "blueprints/index"
    (storage.New "in" "out" (PageExamples.diskWith "1 a"))
  = Ok (Some ("loading components: loading component a: finding template: "
              +:+ "no HTML template found in component a"),
        {| storage.sourcePath := "in"; storage.targetPath := "out";
           storage.fs := PageExamples.diskWith "1 a";
           storage.calls := [storage.CallReadBlueprint "index.blueprint";
                             storage.CallList "a" ".html"] |}).
Proof. vm_compute. reflexivity. Qed.

End BuilderFacts.

(** ** The component registry *)

Module ComponentFacts.
Import storage component componentSpec.

Lemma bindIO_ok {A B} (m : IO A) (k : A -> IO B) s b s2 :
  (m ≫= k) s = (ok b, s2) ->
  exists a s1, m s = (ok a, s1) /\ k a s1 = (ok b, s2).
Proof.
  unfold mbind, IO_bind, bindIO.
  destruct (m s) as [[a|msg] s1]; [|done]. intros H. by exists a, s1.
Qed.

Lemma wrapIO_ok {A} prefix (m : IO A) s a s' :
  wrapIO prefix m s = (ok a, s') -> m s = (ok a, s').
Proof.
  unfold wrapIO. destruct (m s) as [[a'|msg] s1]; simpl; [|done].
  by intros [= -> ->].
Qed.

Lemma ReadComponent_ok fsPath file s content s' :
  ReadComponent fsPath file s = (ok content, s') ->
  s' = record (CallReadComponent fsPath file) s.
Proof. unfold ReadComponent. by intros [= _ <-]. Qed.

Lemma ListComponentFiles_ok fsPath ext s files s' :
  ListComponentFiles fsPath ext s = (ok files, s') ->
  listFiles (fs s) fsPath ext = ok files /\ s' = record (CallList fsPath ext) s.
Proof.
  unfold ListComponentFiles.
  destruct (listFiles (fs s) fsPath ext) as [l|msg]; simpl; [|done].
  by intros [= -> <-].
Qed.

Lemma FindTemplateFile_ok fsPath s file s' :
  FindTemplateFile fsPath s = (ok file, s') ->
  listFiles (fs s) fsPath ".html" = ok [file]
  /\ s' = record (CallList fsPath ".html") s.
Proof.
  unfold FindTemplateFile.
  destruct (ListComponentFiles fsPath ".html" s) as [[l|msg] s1] eqn:E; [|done].
  apply ListComponentFiles_ok in E as [Hl ->].
  destruct l as [|f [|f' l]]; try done. by intros [= -> <-].
Qed.

Lemma readCSS_ok fsPath cssFiles cssContent s styles s' :
  readCSS fsPath cssFiles cssContent s = (ok styles, s') ->
  fs s' = fs s /\ calls s' = calls s ++ (CallReadComponent fsPath <$> cssFiles).
Proof.
  revert cssContent s.
  induction cssFiles as [|file rest IH]; intros cssContent s; simpl.
  - intros [= _ <-]. by rewrite app_nil_r.
  - intros H. apply bindIO_ok in H as (content & s1 & Hread & Hrest).
    apply wrapIO_ok, ReadComponent_ok in Hread as ->.
    apply IH in Hrest as [-> ->]. simpl. by rewrite <- app_assoc.
Qed.

Lemma readJS_ok fsPath jsFiles scripts s scripts' s' :
  readJS fsPath jsFiles scripts s = (ok scripts', s') ->
  fs s' = fs s /\ calls s' = calls s ++ (CallReadComponent fsPath <$> jsFiles).
Proof.
  revert scripts s.
  induction jsFiles as [|file rest IH]; intros scripts s; simpl.
  - intros [= _ <-]. by rewrite app_nil_r.
  - intros H. apply bindIO_ok in H as (content & s1 & Hread & Hrest).
    apply wrapIO_ok, ReadComponent_ok in Hread as ->.
    apply IH in Hrest as [-> ->]. simpl. by rewrite <- app_assoc.
Qed.

(** What a successful load reads. *)
Lemma readComponent_ok path s comp s' :
  readComponent path s = (ok comp, s') ->
  let fsPath := filepath.Join (strings.Split path ".") in
  exists templateFile cssFiles jsFiles,
    listFiles (fs s) fsPath ".html" = ok [templateFile]
    /\ listFiles (fs s) fsPath ".css" = ok cssFiles
    /\ listFiles (fs s) fsPath ".js" = ok jsFiles
    /\ calls s' = calls s ++ readSet fsPath templateFile cssFiles jsFiles.
Proof.
  intros H fsPath. unfold readComponent in H. fold fsPath in H.
  apply bindIO_ok in H as (templateFile & s1 & H1 & H).
  apply wrapIO_ok, FindTemplateFile_ok in H1 as [Hhtml ->].
  apply bindIO_ok in H as (template & s2 & H2 & H).
  apply ReadComponent_ok in H2 as ->.
  apply bindIO_ok in H as (cssFiles & s3 & H3 & H).
  apply wrapIO_ok, ListComponentFiles_ok in H3 as [Hcss ->].
  apply bindIO_ok in H as (styles & s4 & H4 & H).
  apply readCSS_ok in H4 as [Hfs4 Hcalls4].
  apply bindIO_ok in H as (jsFiles & s5 & H5 & H).
  apply wrapIO_ok, ListComponentFiles_ok in H5 as [Hjs ->].
  apply bindIO_ok in H as (scripts & s6 & H6 & H).
  apply readJS_ok in H6 as [Hfs6 Hcalls6].
  injection H as _ <-.
  exists templateFile, cssFiles, jsFiles.
  split; [done|]. split; [done|]. split; [by rewrite Hfs4 in Hjs|].
  rewrite Hcalls6. simpl. rewrite Hcalls4. simpl.
  unfold readSet. rewrite <- !app_assoc. done.
Qed.

(** C8: once [Load] has returned a component for a path, a second [Load]
    of the path returns the same component and leaves the registry and
    the store as they are, so the two calls make the calls of one: those
    of the first, which on a path not yet loaded are one read set.  [Get]
    reads the cache: it returns the loaded component, and [nil] for a path
    that is not loaded. *)
Theorem load_is_cached path r s comp r1 s1 :
  Load path r s = (ok comp, r1, s1) ->
  Load path r1 s1 = (ok comp, r1, s1)
  /\ Get path r1 = Some comp
  /\ (forall other, loaded r1 !! other = None -> Get other r1 = None)
  /\ (loaded r !! path = None ->
      let fsPath := filepath.Join (strings.Split path ".") in
      exists templateFile cssFiles jsFiles,
        listFiles (fs s) fsPath ".html" = ok [templateFile]
        /\ listFiles (fs s) fsPath ".css" = ok cssFiles
        /\ listFiles (fs s) fsPath ".js" = ok jsFiles
        /\ calls s1 = calls s ++ readSet fsPath templateFile cssFiles jsFiles).
Proof.
  unfold Load, Get. intros H.
  destruct (loaded r !! path) as [c|] eqn:Hc.
  - injection H as -> <- <-. rewrite Hc. done.
  - destruct (readComponent path s) as [[c|msg] s'] eqn:Hread; [|done].
    injection H as -> <- <-. cbn [loaded].
    rewrite lookup_insert_eq. repeat split; try done.
    intros _. exact (readComponent_ok _ _ _ _ Hread).
Qed.

Lemma load_is_cached_witness :
  let r1 := {| loaded := {[ "sample.card" := card ]} |} in
  let s1 :=
    {| sourcePath := "in"; targetPath := "out"; fs := cardDisk;
       calls := readSet "sample/card" "card.html" ["card.css"] ["card.js"] |} in
  Load "sample.card" component.New cardStore = (ok card, r1, s1)
  /\ Load "sample.card" r1 s1 = (ok card, r1, s1)
  /\ Get "sample.card" r1 = Some card.
Proof.
  intros r1 s1.
  assert (Load "sample.card" component.New cardStore = (ok card, r1, s1))
    as Hfirst by (vm_compute; reflexivity).
  split; [exact Hfirst|].
  pose proof (load_is_cached "sample.card" component.New cardStore card r1 s1
                Hfirst) as (H1 & H2 & _).
  exact (conj H1 H2).
Defined.

End ComponentFacts.

(** ** The asset manager *)

Module AssetsFacts.
Import assets assetsSpec.

Section Manager.
Variable generateHash : string -> string.

Abbreviation addStyles := (assets.addStyles generateHash).
Abbreviation addScript := (assets.addScript generateHash).
Abbreviation ProcessComponent := (assets.ProcessComponent generateHash).

Lemma addStyles_js styles m :
  js (addStyles styles m) = js m /\ jsKeys (addStyles styles m) = jsKeys m.
Proof.
  unfold assets.addStyles. destruct (Nat.ltb _ _); [|done].
  by destruct (css m !! _).
Qed.



Lemma ProcessComponent_single comp origName content m :
  component.Scripts comp = {[ origName := content ]} ->
  ProcessComponent comp m
  = addScript (component.Path comp) (addStyles (component.Styles comp) m)
      (origName, content).
Proof.
  intros H. unfold assets.ProcessComponent.
  by rewrite H, map_to_list_singleton.
Qed.




End Manager.

Import clashSpec.



End AssetsFacts.

(** ** The keys of the index map *)

Module KeyFacts.
Import blueprint.

Lemma Itoa_nonempty z : strconv.Itoa z <> "".
Proof.
  unfold strconv.Itoa.
  destruct (Z.to_int z) as [d|d]; simpl; [|done].
  destruct d; done.
Qed.

Lemma concat_snoc sep (l : list string) x :
  l <> [] -> String.concat sep (l ++ [x]) = String.concat sep l +:+ sep +:+ x.
Proof.
  induction l as [|y l IH]; [done|]. intros _.
  destruct l as [|y' l].
  - done.
  - change (String.concat sep ((y :: y' :: l) ++ [x]))
      with (y +:+ sep +:+ String.concat sep ((y' :: l) ++ [x])).
    rewrite IH by done.
    change (String.concat sep (y :: y' :: l))
      with (y +:+ sep +:+ String.concat sep (y' :: l)).
    by rewrite !StringFacts.append_assoc.
Qed.

Lemma indexKey_nil_iff index : indexKey index = "" <-> index = [].
Proof.
  split; [|by intros ->].
  destruct index as [|z [|z' index]]; [done| |]; unfold indexKey, strings.Join; simpl.
  - intros H. by apply Itoa_nonempty in H.
  - intros H. apply StringFacts.append_eq_nil in H as [H _].
    by apply Itoa_nonempty in H.
Qed.

Lemma indexKey_snoc index k :
  index <> [] ->
  indexKey (index ++ [k]) = indexKey index +:+ "." +:+ strconv.Itoa k.
Proof.
  intros H. unfold indexKey, strings.Join. rewrite map_app. simpl.
  apply concat_snoc. by destruct index.
Qed.

Lemma index_decompose (index : list Z) :
  index <> [] -> index = removelast index ++ [List.last index 0].
Proof. apply app_removelast_last. Qed.

Lemma Itoa_inj a b : strconv.Itoa a = strconv.Itoa b -> a = b.
Proof.
  unfold strconv.Itoa. intros H.
  apply (f_equal NilZero.int_of_string) in H.
  assert (forall z, NilZero.int_of_string (NilZero.string_of_int (Z.to_int z))
                    = Some (Z.to_int z)) as Hisi.
  { intros z. apply NilZero.isi; destruct z as [|p|p]; simpl; try done;
      intros [= Hp]; by apply Unsigned.to_uint_nonnil in Hp. }
  rewrite !Hisi in H. injection H as H. by apply DecimalZ.to_int_inj.
Qed.

Lemma digits_no_dot d :
  strings.IndexByte (NilEmpty.string_of_uint d) "." = None.
Proof. induction d; simpl; try done; by rewrite IHd. Qed.

Lemma Itoa_no_dot z : strings.IndexByte (strconv.Itoa z) "." = None.
Proof.
  unfold strconv.Itoa, NilZero.string_of_int, NilZero.string_of_uint.
  destruct (Z.to_int z) as [d|d]; destruct d; simpl; try done;
    by rewrite digits_no_dot.
Qed.

Lemma Split_no_sep s sep :
  strings.IndexByte s sep = None -> strings.Split s sep = [s].
Proof.
  induction s as [|c s IH]; simpl; [done|].
  destruct (Ascii.eqb c sep); [done|].
  destruct (strings.IndexByte s sep); [done|]. intros _. by rewrite IH.
Qed.

Lemma Split_app s sep rest :
  strings.IndexByte s sep = None ->
  strings.Split (s +:+ String sep rest) sep = s :: strings.Split rest sep.
Proof.
  induction s as [|c s IH]; intros H.
  - simpl. by rewrite Ascii.eqb_refl.
  - rewrite StringFacts.append_cons. simpl in *.
    destruct (Ascii.eqb c sep); [done|].
    destruct (strings.IndexByte s sep); [done|]. by rewrite IH.
Qed.

Lemma Split_Join (l : list string) sep :
  l <> [] -> Forall (fun s => strings.IndexByte s sep = None) l ->
  strings.Split (strings.Join l (String sep "")) sep = l.
Proof.
  intros Hne Hl. induction Hl as [|s l Hs Hl IH]; [done|].
  destruct l as [|s' l].
  - simpl. by apply Split_no_sep.
  - change (strings.Join (s :: s' :: l) (String sep ""))
      with (s +:+ String sep (strings.Join (s' :: l) (String sep ""))).
    rewrite Split_app by done. f_equal. by apply IH.
Qed.

(** Two indexes with the same key are the same index. *)
Lemma indexKey_inj index1 index2 :
  indexKey index1 = indexKey index2 -> index1 = index2.
Proof.
  intros H.
  destruct index1 as [|z1 l1].
  { symmetry in H. apply indexKey_nil_iff in H. by subst. }
  destruct index2 as [|z2 l2].
  { by apply indexKey_nil_iff in H. }
  unfold indexKey in H. apply (f_equal (fun s => strings.Split s ".")) in H.
  rewrite !Split_Join in H; try done;
    try (apply Forall_fmap, Forall_forall; intros z _; apply Itoa_no_dot).
  revert H. generalize (z1 :: l1) (z2 :: l2). clear.
  induction l as [|a l IH]; intros [|b l']; simpl; try done.
  intros [= H1 H2]. f_equal; [by apply Itoa_inj | by apply IH].
Qed.

End KeyFacts.

(** ** The line scanner *)

Module ParseFacts.
Import blueprint templateSpec blueprintSpec.

Lemma Split_nonempty s sep : strings.Split s sep <> [].
Proof.
  induction s as [|a s IH]; simpl; [done|].
  destruct (Ascii.eqb a sep); [done|]. by destruct (strings.Split s sep).
Qed.

Lemma parseLine_good line id block :
  parseLine line id = Some block -> goodBlock block.
Proof.
  unfold parseLine.
  destruct (_ || _); [done|]. destruct (strings.HasPrefix _ "."); [done|].
  destruct (strings.Fields _) as [|p0 [|p1 [|p2 parts]]]; try done.
  destruct (mapM _ _) as [index|] eqn:E; simpl; [|done].
  intros [= <-]. split; simpl.
  - apply length_mapM in E. intros ->.
    destruct (strings.Split _ _) eqn:E2; [|done]. by apply Split_nonempty in E2.
  - intros name values H. by rewrite lookup_empty in H.
Qed.

Lemma appendVar_good name value block :
  goodBlock block -> goodBlock (appendVar name value block).
Proof.
  intros [Hi Hv]. split; [done|]. simpl.
  intros n values. rewrite lookup_insert. case_decide.
  - intros [= <-]. by destruct (default [] _).
  - apply Hv.
Qed.

Lemma scanLine_good blocks id line :
  Forall goodBlock blocks -> Forall goodBlock (fst (scanLine (blocks, id) line)).
Proof.
  intros H. unfold scanLine.
  destruct (strings.HasPrefix _ ".").
  - destruct blocks as [|b blocks']; [done|].
    destruct (strings.IndexByte _ _); [|done].
    destruct (strings.HasPrefix _ "."); [|done]. cbn [fst].
    apply Forall_alter; [done|]. intros x _. apply appendVar_good.
  - destruct (parseLine _ id) as [block|] eqn:E; [|done]. cbn [fst].
    apply Forall_app. split; [done|]. constructor; [|done].
    by eapply parseLine_good.
Qed.

Lemma parseBlocks_good content : Forall goodBlock (parseBlocks content).
Proof.
  unfold parseBlocks.
  assert (forall lines st, Forall goodBlock (fst st) ->
            Forall goodBlock (fst (fold_left scanLine lines st))) as H.
  { induction lines as [|line lines IH]; intros [blocks id] Hst; [done|].
    simpl. apply IH. by apply scanLine_good. }
  by apply H.
Qed.

End ParseFacts.

(** ** The insertion sort *)

Module SortFacts.

Lemma StronglySorted_rev {A} (R : relation A) l :
  StronglySorted R l -> StronglySorted (flip R) (rev l).
Proof.
  induction 1 as [|x l Hl IH Hx]; simpl; [constructor|].
  apply StronglySorted_app_2; [|done|repeat constructor].
  intros x1 x2 H1 H2. apply list_elem_of_singleton in H2 as ->.
  apply list_elem_of_In, in_rev, list_elem_of_In in H1. unfold flip.
  rewrite Forall_forall in Hx. by apply Hx.
Qed.

Section ByKey.
Context {A : Type} (key : A -> Z) (less : A -> A -> bool).
Hypothesis less_key : forall x y, less x y = (key x <? key y).

Abbreviation descending := (StronglySorted (fun x y => key y <= key x)).

Lemma insertLeft_perm x r : sort.insertLeft less x r ≡ₚ x :: r.
Proof.
  induction r as [|y r IH]; simpl; [done|].
  destruct (less x y); [|done]. rewrite IH. apply Permutation_swap.
Qed.

Lemma insertLeft_descending x r :
  descending r -> descending (sort.insertLeft less x r).
Proof.
  induction 1 as [|y r Hr IH Hy]; simpl; [repeat constructor|].
  rewrite less_key. destruct (key x <? key y) eqn:E.
  - apply Z.ltb_lt in E. constructor; [done|].
    rewrite insertLeft_perm. constructor; [lia|done].
  - apply Z.ltb_ge in E. constructor; [by constructor|].
    constructor; [done|]. eapply Forall_impl; [exact Hy|]. simpl. lia.
Qed.

Lemma insertAll_perm l acc :
  fold_left (fun r x => sort.insertLeft less x r) l acc ≡ₚ l ++ acc.
Proof.
  revert acc. induction l as [|x l IH]; intros acc; simpl; [done|].
  rewrite IH, insertLeft_perm. by rewrite Permutation_middle.
Qed.

Lemma insertAll_descending l acc :
  descending acc ->
  descending (fold_left (fun r x => sort.insertLeft less x r) l acc).
Proof.
  revert acc. induction l as [|x l IH]; intros acc Hacc; simpl; [done|].
  by apply IH, insertLeft_descending.
Qed.

Lemma Slice_perm l : sort.Slice less l ≡ₚ l.
Proof.
  unfold sort.Slice. rewrite <- Permutation_rev, insertAll_perm.
  by rewrite app_nil_r.
Qed.

Lemma Slice_sorted l :
  StronglySorted (fun x y => key x <= key y) (sort.Slice less l).
Proof.
  unfold sort.Slice.
  apply (StronglySorted_rev (fun x y => key y <= key x)).
  apply insertAll_descending. constructor.
Qed.

(** Sorted keys that are all different are strictly ascending. *)
Lemma sorted_keys_strict l :
  StronglySorted (fun x y => key x <= key y) l ->
  NoDup (key <$> l) ->
  StronglySorted Z.lt (key <$> l).
Proof.
  induction 1 as [|x l Hl IH Hx]; simpl; [constructor|].
  intros Hnd. apply NoDup_cons in Hnd as [Hx' Hnd].
  constructor; [by apply IH|].
  apply Forall_fmap. rewrite Forall_forall in Hx. apply Forall_forall.
  intros y Hy. simpl. specialize (Hx y Hy).
  assert (key x <> key y); [|lia].
  intros Heq. apply Hx'. rewrite Heq. by apply list_elem_of_fmap_2.
Qed.

(** With keys that are all different, a sorted permutation is the result of
    the sort, whatever the algorithm. *)
Lemma Slice_unique l l' :
  NoDup (key <$> l) ->
  l' ≡ₚ l ->
  StronglySorted (fun x y => key x <= key y) l' ->
  l' = sort.Slice less l.
Proof.
  intros Hnd Hperm Hsorted.
  apply (StronglySorted_unique_strong (fun x y => key x <= key y));
    [|done|apply Slice_sorted|by rewrite Slice_perm].
  intros x1 x2 H1 H2 Hle Hge.
  assert (key x1 = key x2) as Heq by lia.
  rewrite Hperm in H1. rewrite Slice_perm in H2.
  apply list_elem_of_lookup in H1 as [i1 H1], H2 as [i2 H2].
  assert (i1 = i2) as ->.
  { apply (NoDup_lookup _ i1 i2 (key x1) Hnd).
    - by rewrite list_lookup_fmap, H1.
    - by rewrite list_lookup_fmap, H2, Heq. }
  congruence.
Qed.

End ByKey.
End SortFacts.

(** ** The block loop of [buildTree] *)

Module HeapFacts.
Import blueprint blueprintSpec heapSpec.

Lemma indexOf_alter heap child parent a :
  indexOf (alter (appendChild child) parent heap) a = indexOf heap a.
Proof.
  unfold indexOf. destruct (decide (a = parent)) as [->|Hne].
  - rewrite list_lookup_alter_eq. by destruct (heap !! parent).
  - by rewrite list_lookup_alter_ne.
Qed.

Lemma indexOf_snoc heap c a :
  indexOf (heap ++ [c]) a
  = if decide (a < length heap)%nat then indexOf heap a
    else if decide (a = length heap) then Index (cellBlock c) else [].
Proof.
  unfold indexOf. case_decide.
  - by rewrite lookup_app_l.
  - rewrite lookup_app_r by lia. case_decide.
    + subst. by rewrite Nat.sub_diag.
    + destruct (a - length heap)%nat eqn:E; [lia|done].
Qed.

Lemma indexOf_ge heap a : (length heap <= a)%nat -> indexOf heap a = [].
Proof. intros H. unfold indexOf. by rewrite lookup_ge_None_2. Qed.

Lemma heapInv_init : heapInv [rootCell] {[ "" := O ]}.
Proof.
  split.
  - split; [done|simpl; lia].
  - intros key a H. apply lookup_singleton_Some in H as [<- <-].
    split; [simpl; lia|done].
  - intros a Ha. simpl in Ha. assert (a = O) as -> by lia. done.
  - intros a c ca H Hc. apply list_lookup_singleton_Some in H as [-> <-].
    by apply elem_of_nil in Hc.
  - intros a c ca H Hne Hc. apply list_lookup_singleton_Some in H as [-> <-].
    done.
  - intros a ca H. apply list_lookup_singleton_Some in H as [-> <-].
    constructor.
Qed.

(** The new cell and where it is attached. *)
Lemma attach_Some heap nodeMap block heap' nodeMap' :
  attach (heap, nodeMap) block = Some (heap', nodeMap') <->
  nodeMap !! blockKey block = None
  /\ nodeMap' = <[blockKey block := length heap]> nodeMap
  /\ heap' = alter (appendChild (length heap))
               (match Index block with
                | [] => O
                | _ => default O (nodeMap' !! indexKey (removelast (Index block)))
                end)
               (heap ++ [ {| cellBlock := block; cellChildren := [] |} ]).
Proof.
  unfold attach, blockKey. destruct (nodeMap !! indexKey (Index block)).
  - split; [done|]. by intros [? _].
  - split.
    + intros [= <- <-]. done.
    + intros (_ & -> & ->). done.
Qed.

Lemma append_neq_self (s t : string) : t <> "" -> s +:+ t <> s.
Proof.
  intros Ht H. apply (f_equal String.length) in H.
  rewrite StringFacts.length_append in H. destruct t; [done|]. simpl in H. lia.
Qed.

(** The key of the parent differs from the key of the block. *)
Lemma parentKey_neq index :
  index <> [] -> indexKey (removelast index) <> indexKey index.
Proof.
  intros Hne. rewrite (KeyFacts.index_decompose index Hne) at 2.
  destruct (removelast index) as [|z l] eqn:E.
  - simpl. intros H. symmetry in H. by apply KeyFacts.indexKey_nil_iff in H.
  - rewrite KeyFacts.indexKey_snoc by done. intros H. symmetry in H.
    by apply append_neq_self in H.
Qed.

Section Attach.
Variables (heap : list cell) (nodeMap : gmap string nat) (block : Block).
Hypothesis Hinv : heapInv heap nodeMap.
Hypothesis Hfree : nodeMap !! blockKey block = None.

Abbreviation node := (length heap).
Abbreviation nodeMap' := (<[blockKey block := node]> nodeMap).
Abbreviation parentKey := (indexKey (removelast (Index block))).
Abbreviation parent :=
  (match Index block with
   | [] => O
   | _ => default O (nodeMap' !! parentKey)
   end).
Abbreviation newCell := {| cellBlock := block; cellChildren := [] |}.
Abbreviation heap' := (alter (appendChild node) parent (heap ++ [newCell])).

Lemma attach_index_nonempty : Index block <> [].
Proof.
  intros H. destruct Hinv as [[Hroot Hlen] _ Hreg _ _ _].
  specialize (Hreg O Hlen). unfold keyAt in Hreg. rewrite Hroot in Hreg.
  unfold blockKey in Hfree. rewrite H in Hfree. simpl in *. congruence.
Qed.

Lemma attach_length : length heap' = S node.
Proof. rewrite length_alter, length_app. simpl. lia. Qed.

Lemma attach_indexOf a :
  indexOf heap' a
  = if decide (a < node)%nat then indexOf heap a
    else if decide (a = node) then Index block else [].
Proof. by rewrite indexOf_alter, indexOf_snoc. Qed.

Lemma attach_keyAt_old a : (a < node)%nat -> keyAt heap' a = keyAt heap a.
Proof. intros H. unfold keyAt. rewrite attach_indexOf. by case_decide. Qed.

Lemma attach_keyAt_new : keyAt heap' node = blockKey block.
Proof.
  unfold keyAt. rewrite attach_indexOf.
  case_decide; [lia|]. by case_decide.
Qed.

Lemma attach_parent_lookup : nodeMap' !! parentKey = nodeMap !! parentKey.
Proof.
  apply lookup_insert_ne. intros H. symmetry in H.
  by apply parentKey_neq in H; [|apply attach_index_nonempty].
Qed.

Lemma attach_parent_lt : (parent < node)%nat.
Proof.
  destruct Hinv as [[_ Hlen] Hmap _ _ _ _].
  generalize attach_parent_lookup.
  destruct (Index block) as [|z l]; [done|]. intros ->.
  destruct (nodeMap !! indexKey (removelast (z :: l))) as [p|] eqn:E;
    [|exact Hlen].
  by apply Hmap in E as [? _].
Qed.

Lemma attach_parent_key : parent <> O -> keyAt heap parent = parentKey.
Proof.
  destruct Hinv as [_ Hmap _ _ _ _].
  generalize attach_parent_lookup.
  destruct (Index block) as [|z l]; [done|]. intros ->.
  destruct (nodeMap !! indexKey (removelast (z :: l))) as [p|] eqn:E; [|done].
  intros _. by apply Hmap in E as [_ ?].
Qed.

Lemma attach_lookup a ca :
  heap' !! a = Some ca ->
  (exists ca0, heap !! a = Some ca0 /\
     ((a = parent /\ ca = appendChild node ca0) \/ (a <> parent /\ ca = ca0)))
  \/ (a = node /\ cellChildren ca = []).
Proof.
  pose proof attach_parent_lt as Hp.
  destruct (decide (a = parent)) as [Ha|Ha].
  - subst a. rewrite list_lookup_alter_eq, lookup_app_l by done.
    destruct (heap !! parent) as [ca0|] eqn:E; [|done].
    intros [= <-]. left. exists ca0. split; [done|]. by left.
  - rewrite list_lookup_alter_ne by done.
    intros H. apply lookup_app_Some in H as [H|[Hlen H]].
    + left. exists ca. split; [done|]. by right.
    + right. destruct (a - node)%nat eqn:E; [|by destruct n].
      injection H as <-. split; [lia|done].
Qed.

Lemma attach_inv : heapInv heap' nodeMap'.
Proof.
  pose proof Hinv as [[Hroot Hlen] Hmap Hreg Hlater Hpar Hnodup].
  pose proof attach_parent_lt as Hp.
  split.
  - split; [|rewrite attach_length; lia].
    rewrite attach_indexOf. by case_decide.
  - intros key a. rewrite lookup_insert. case_decide as Hk.
    + intros [= <-]. rewrite attach_length. split; [lia|].
      by rewrite attach_keyAt_new.
    + intros H. apply Hmap in H as [Ha Hkey].
      rewrite attach_length, attach_keyAt_old by done. split; [lia|done].
  - intros a. rewrite attach_length. intros Ha.
    destruct (decide (a = node)) as [->|Hne].
    + rewrite attach_keyAt_new. apply lookup_insert_eq.
    + assert (a < node)%nat as Ha' by lia.
      rewrite attach_keyAt_old by done.
      rewrite lookup_insert_ne; [by apply Hreg|].
      intros Heq. specialize (Hreg a Ha'). congruence.
  - intros a c ca Hca Hc. rewrite attach_length.
    apply attach_lookup in Hca as [(ca0 & H0 & [[-> ->]|[Hne ->]])|[-> Hnil]].
    + simpl in Hc. apply elem_of_app in Hc as [Hc|Hc].
      * specialize (Hlater _ _ _ H0 Hc). lia.
      * apply list_elem_of_singleton in Hc as ->. lia.
    + specialize (Hlater _ _ _ H0 Hc). lia.
    + rewrite Hnil in Hc. by apply elem_of_nil in Hc.
  - intros a c ca Hca Hne0 Hc.
    assert (forall ca0, heap !! a = Some ca0 -> c ∈ cellChildren ca0 ->
              indexOf heap' c <> []
              /\ indexKey (removelast (indexOf heap' c)) = keyAt heap' a) as Hold.
    { intros ca0 H0 Hc0. specialize (Hlater _ _ _ H0 Hc0).
      specialize (Hpar _ _ _ H0 Hne0 Hc0).
      rewrite attach_keyAt_old by lia. rewrite attach_indexOf.
      by case_decide; [|lia]. }
    apply attach_lookup in Hca as [(ca0 & H0 & [[Ha ->]|[Hne ->]])|[-> Hnil]].
    + simpl in Hc. apply elem_of_app in Hc as [Hc|Hc]; [by eapply Hold|].
      apply list_elem_of_singleton in Hc as ->.
      rewrite attach_indexOf. case_decide; [lia|]. case_decide; [|done].
      split; [apply attach_index_nonempty|].
      rewrite attach_keyAt_old by (rewrite Ha; done).
      rewrite Ha. symmetry. apply attach_parent_key. by rewrite <- Ha.
    + by eapply Hold.
    + rewrite Hnil in Hc. by apply elem_of_nil in Hc.
  - intros a ca Hca.
    apply attach_lookup in Hca as [(ca0 & H0 & [[-> ->]|[Hne ->]])|[-> Hnil]].
    + simpl. apply NoDup_app. split; [by eapply Hnodup|]. split.
      * intros c Hc Hc'. apply list_elem_of_singleton in Hc' as ->.
        specialize (Hlater _ _ _ H0 Hc). lia.
      * apply NoDup_singleton.
    + by eapply Hnodup.
    + rewrite Hnil. constructor.
Qed.

End Attach.

Lemma attachAll_inv blocks heap nodeMap heap' nodeMap' :
  heapInv heap nodeMap ->
  attachAll blocks (heap, nodeMap) = Some (heap', nodeMap') ->
  heapInv heap' nodeMap'.
Proof.
  revert heap nodeMap.
  induction blocks as [|block blocks IH]; intros heap nodeMap Hinv;
    cbn [attachAll].
  - by intros [= <- <-].
  - destruct (attach (heap, nodeMap) block) as [[heap1 nodeMap1]|] eqn:E;
      simpl; [|done].
    apply attach_Some in E as (Hfree & -> & ->).
    apply IH. by apply attach_inv.
Qed.

Lemma cellBlock_alter (heap : list cell) (child parent : nat) :
  cellBlock <$> alter (appendChild child) parent heap = cellBlock <$> heap.
Proof.
  apply list_eq. intros a. rewrite !list_lookup_fmap.
  destruct (decide (a = parent)) as [->|Hne].
  - rewrite list_lookup_alter_eq. by destruct (heap !! parent).
  - by rewrite list_lookup_alter_ne.
Qed.

(** The heap holds the blocks in the order of the source, after the root. *)
Lemma attachAll_blocks blocks heap nodeMap heap' nodeMap' :
  attachAll blocks (heap, nodeMap) = Some (heap', nodeMap') ->
  cellBlock <$> heap' = (cellBlock <$> heap) ++ blocks.
Proof.
  revert heap nodeMap.
  induction blocks as [|block blocks IH]; intros heap nodeMap; cbn [attachAll].
  - intros [= <- <-]. by rewrite app_nil_r.
  - destruct (attach (heap, nodeMap) block) as [[heap1 nodeMap1]|] eqn:E;
      simpl; [|done].
    apply attach_Some in E as (Hfree & -> & ->).
    intros H. apply IH in H. rewrite H, cellBlock_alter, fmap_app.
    by rewrite <- app_assoc.
Qed.

(** The block loop goes through exactly when no key is taken twice. *)
Lemma attachAll_is_Some blocks heap nodeMap :
  is_Some (attachAll blocks (heap, nodeMap)) <->
  NoDup (blockKey <$> blocks)
  /\ Forall (fun b => nodeMap !! blockKey b = None) blocks.
Proof.
  revert heap nodeMap.
  induction blocks as [|block blocks IH]; intros heap nodeMap; cbn [attachAll].
  - split; [intros _; split; constructor | by eexists].
  - destruct (attach (heap, nodeMap) block) as [[heap1 nodeMap1]|] eqn:E; simpl.
    + apply attach_Some in E as (Hfree & -> & _).
      rewrite IH, NoDup_cons, Forall_cons.
      split.
      * intros [Hnd Hall]. split; [split; [|done]|split; [done|]].
        -- intros Hin. apply list_elem_of_fmap in Hin as (b & Hb & Hin).
           rewrite Forall_forall in Hall. specialize (Hall b Hin).
           rewrite <- Hb in Hall. by rewrite lookup_insert_eq in Hall.
        -- eapply Forall_impl; [exact Hall|]. intros b. simpl.
           rewrite lookup_insert. by case_decide.
      * intros [[Hnotin Hnd] [_ Hall]]. split; [done|].
        apply Forall_forall. intros b Hb.
        rewrite Forall_forall in Hall.
        rewrite lookup_insert_ne; [by apply Hall|].
        intros Heq. apply Hnotin. rewrite Heq. by apply list_elem_of_fmap_2.
    + split; [by intros [? ?]|]. intros [_ Hall].
      apply Forall_cons in Hall as [Hfree _].
      unfold attach in E. fold (blockKey block) in E. by rewrite Hfree in E.
Qed.

End HeapFacts.

(** ** From the heap to the sorted tree *)

Module TreeFacts.
Import blueprint blueprintSpec heapSpec treeSpec orderSpec.

Section Heap.
Variables (heap : list cell) (nodeMap : gmap string nat).
Hypothesis Hinv : heapInv heap nodeMap.

Lemma keyAt_root_only a : (a < length heap)%nat -> keyAt heap a = "" -> a = O.
Proof.
  intros Ha Hkey. destruct Hinv as [[Hroot Hlen] _ Hreg _ _ _].
  pose proof (Hreg a Ha) as H1. pose proof (Hreg O Hlen) as H2.
  unfold keyAt in H2. rewrite Hroot in H2. change (indexKey []) with "" in H2.
  rewrite Hkey in H1. congruence.
Qed.

(** The key of a child of a node other than the root: the key of the node,
    a dot, the last segment. *)
Lemma child_key a c ca :
  heap !! a = Some ca -> a <> O -> c ∈ cellChildren ca ->
  keyAt heap c
  = keyAt heap a +:+ "." +:+ strconv.Itoa (List.last (indexOf heap c) 0).
Proof.
  intros Ha Hne Hc.
  destruct (inv_parent _ _ Hinv a c ca Ha Hne Hc) as [Hidx Hkey].
  unfold keyAt at 1. rewrite (KeyFacts.index_decompose _ Hidx) at 1.
  rewrite KeyFacts.indexKey_snoc; [by rewrite Hkey|].
  intros Hnil. rewrite Hnil in Hkey. change (indexKey []) with "" in Hkey.
  apply Hne, keyAt_root_only; [|done].
  by apply lookup_lt_Some in Ha.
Qed.

Lemma child_last_inj a ca c1 c2 :
  heap !! a = Some ca -> a <> O ->
  c1 ∈ cellChildren ca -> c2 ∈ cellChildren ca ->
  List.last (indexOf heap c1) 0 = List.last (indexOf heap c2) 0 -> c1 = c2.
Proof.
  intros Ha Hne H1 H2 Hlast.
  pose proof (child_key a c1 ca Ha Hne H1) as K1.
  pose proof (child_key a c2 ca Ha Hne H2) as K2.
  rewrite Hlast in K1. rewrite <- K2 in K1.
  destruct (inv_later _ _ Hinv a c1 ca Ha H1) as [_ L1].
  destruct (inv_later _ _ Hinv a c2 ca Ha H2) as [_ L2].
  pose proof (inv_reg _ _ Hinv c1 L1) as R1.
  pose proof (inv_reg _ _ Hinv c2 L2) as R2.
  rewrite K1 in R1. congruence.
Qed.

(** The comparison of [sortNodes] never reads an empty index. *)
Lemma child_index_nonempty a c ca :
  heap !! a = Some ca -> c ∈ cellChildren ca -> indexOf heap c <> [].
Proof.
  intros Ha Hc Hnil.
  destruct (inv_later _ _ Hinv a c ca Ha Hc) as [H1 H2].
  assert (c = O); [|lia].
  apply keyAt_root_only; [done|]. unfold keyAt. by rewrite Hnil.
Qed.

(** With enough fuel for the depth below [a], [sortNodes] returns a tree. *)
Lemma sortNodes_total fuel a :
  (a < length heap)%nat -> (length heap - a <= fuel)%nat ->
  is_Some (sortNodes fuel heap a).
Proof.
  revert a. induction fuel as [|fuel IH]; intros a Ha Hfuel; [lia|].
  cbn [sortNodes].
  destruct (heap !! a) as [ca|] eqn:E;
    [|apply lookup_lt_is_Some_2 in Ha as [? ?]; congruence].
  cbn [mbind option_bind].
  destruct (mapM_is_Some_2 (sortNodes fuel heap)
              (sort.Slice (lessChild heap (Nat.eqb a O)) (cellChildren ca)))
    as [kids Hkids].
  - apply Forall_forall. intros c Hc. simpl.
    assert (c ∈ cellChildren ca) as Hc' by (by rewrite SortFacts.Slice_perm in Hc).
    destruct (inv_later _ _ Hinv a c ca E Hc') as [H1 H2].
    apply IH; lia.
  - rewrite Hkids. by eexists.
Qed.

Lemma sortNodes_unfold fuel a n :
  sortNodes (S fuel) heap a = Some n ->
  exists ca,
    heap !! a = Some ca /\ NodeBlock n = cellBlock ca
    /\ Forall2 (fun c k => sortNodes fuel heap c = Some k)
         (sort.Slice (lessChild heap (Nat.eqb a O)) (cellChildren ca))
         (Children n).
Proof.
  cbn [sortNodes]. destruct (heap !! a) as [ca|]; [|done].
  cbn [mbind option_bind].
  destruct (mapM _ _) as [kids|] eqn:E; [|done]. cbn [mbind option_bind].
  intros [= <-]. exists ca. split; [done|]. split; [done|].
  by apply mapM_Some_1.
Qed.

Lemma sortNodes_block fuel a n :
  sortNodes fuel heap a = Some n -> indexOf heap a = Index (NodeBlock n).
Proof.
  destruct fuel as [|fuel]; [done|]. intros H.
  apply sortNodes_unfold in H as (ca & Ha & Hb & _).
  unfold indexOf. by rewrite Ha, Hb.
Qed.

(** The segments of the children of the tree are those of the sorted
    addresses. *)
Lemma kids_segments (f : list Z -> Z) fuel sorted kids :
  Forall2 (fun c k => sortNodes fuel heap c = Some k) sorted kids ->
  (fun k => f (Index (NodeBlock k))) <$> kids
  = (fun c => f (indexOf heap c)) <$> sorted.
Proof.
  induction 1 as [|c k sorted kids Hk _ IH]; [done|].
  cbn [fmap list_fmap]. f_equal; [|exact IH].
  by rewrite (sortNodes_block _ _ _ Hk).
Qed.

Lemma sortNodes_ascending fuel a n :
  a <> O -> sortNodes fuel heap a = Some n -> subtreeAscending n.
Proof.
  revert a n. induction fuel as [|fuel IH]; intros a n Hne H; [done|].
  apply sortNodes_unfold in H as (ca & Ha & Hb & Hkids).
  apply Nat.eqb_neq in Hne as Hne'. rewrite Hne' in Hkids.
  unfold subtreeAscending. destruct n as [b kids]. cbn [nodes Children] in *.
  constructor.
  - unfold childrenAscending, lastSegment. cbn [Children].
    rewrite (kids_segments (fun index => List.last index 0) _ _ _ Hkids).
    apply (SortFacts.sorted_keys_strict
             (fun c => List.last (indexOf heap c) 0)).
    + by apply (SortFacts.Slice_sorted _ (lessChild heap false)).
    + apply NoDup_fmap_2_strong.
      * intros c1 c2 H1 H2. rewrite SortFacts.Slice_perm in H1, H2.
        by apply (child_last_inj a ca).
      * rewrite SortFacts.Slice_perm. by eapply inv_nodup.
  - apply Forall_concat, Forall_fmap.
    apply (Forall2_Forall_r _ _ _ _ Hkids), Forall_forall.
    intros c Hc k Hk. rewrite SortFacts.Slice_perm in Hc.
    destruct (inv_later _ _ Hinv a c ca Ha Hc) as [Hlt _].
    apply (IH c); [lia|done].
Qed.

(** At the root the children are ordered by their first segment; every
    subtree below is in ascending order. *)
Lemma sortNodes_root fuel n :
  sortNodes fuel heap O = Some n ->
  rootOrdered n /\ Forall subtreeAscending (Children n).
Proof.
  destruct fuel as [|fuel]; [done|]. intros H.
  apply sortNodes_unfold in H as (ca & Ha & Hb & Hkids).
  cbn [Nat.eqb] in Hkids. split.
  - unfold rootOrdered, firstSegment.
    rewrite (kids_segments (hd 0) _ _ _ Hkids).
    pose proof (SortFacts.Slice_sorted (fun c => hd 0 (indexOf heap c))
                  (lessChild heap true) ltac:(done) (cellChildren ca)) as Hs.
    revert Hs. generalize (sort.Slice (lessChild heap true) (cellChildren ca)).
    induction 1 as [|c l Hl IH Hc]; cbn [fmap list_fmap]; constructor;
      [done|by apply Forall_fmap].
  - apply (Forall2_Forall_r _ _ _ _ Hkids), Forall_forall.
    intros c Hc k Hk. rewrite SortFacts.Slice_perm in Hc.
    destruct (inv_later _ _ Hinv O c ca Ha Hc) as [Hlt _].
    apply (sortNodes_ascending fuel c); [lia|done].
Qed.

(** Every block of the tree is a block of the heap. *)
Lemma sortNodes_blocks fuel a n :
  sortNodes fuel heap a = Some n ->
  Forall (fun m => NodeBlock m ∈ cellBlock <$> heap) (nodes n).
Proof.
  revert a n. induction fuel as [|fuel IH]; intros a n H; [done|].
  apply sortNodes_unfold in H as (ca & Ha & Hb & Hkids).
  destruct n as [b kids]. cbn [nodes Children NodeBlock] in *.
  constructor.
  - cbn [NodeBlock]. subst b. apply list_elem_of_fmap_2.
    by eapply list_elem_of_lookup_2.
  - apply Forall_concat, Forall_fmap.
    apply (Forall2_Forall_r _ _ _ _ Hkids), Forall_forall.
    intros c Hc k Hk. by apply (IH c).
Qed.

End Heap.

(** The tree of [buildTree], when there is one. *)
Lemma buildTree_Some blocks root :
  buildTree blocks = Some root ->
  exists heap nodeMap,
    heapInv heap nodeMap
    /\ cellBlock <$> heap = cellBlock rootCell :: blocks
    /\ sortNodes (length heap) heap O = Some root.
Proof.
  unfold buildTree. destruct blocks as [|b blocks]; [done|].
  destruct (attachAll _ _) as [[heap nodeMap]|] eqn:E; [|done].
  intros H. exists heap, nodeMap. split; [|split; [|done]].
  - eapply HeapFacts.attachAll_inv; [apply HeapFacts.heapInv_init|exact E].
  - by apply HeapFacts.attachAll_blocks in E.
Qed.

(** [buildTree] returns no tree when there is no block or when a key is
    taken twice, and only then. *)
Lemma buildTree_None blocks :
  Forall goodBlock blocks ->
  buildTree blocks = None <-> blocks = [] \/ ~ NoDup (blockKey <$> blocks).
Proof.
  intros Hgood. unfold buildTree.
  destruct blocks as [|b blocks]; [by split; [left|]|].
  pose proof (HeapFacts.attachAll_is_Some (b :: blocks) [rootCell] {[ "" := O ]})
    as Hsome.
  assert (Forall (fun b => ({[ "" := O ]} : gmap string nat) !! blockKey b = None)
            (b :: blocks)) as Hfree.
  { eapply Forall_impl; [exact Hgood|]. intros b' [Hidx _]. simpl.
    apply lookup_singleton_None. intros Heq. symmetry in Heq.
    by apply KeyFacts.indexKey_nil_iff in Heq. }
  destruct (attachAll _ _) as [[heap nodeMap]|] eqn:E.
  - assert (NoDup (blockKey <$> b :: blocks)) as Hnd by (by apply Hsome).
    split; [|by intros [?|?]].
    intros Hnone.
    assert (heapInv heap nodeMap) as Hinv
      by (eapply HeapFacts.attachAll_inv; [apply HeapFacts.heapInv_init|exact E]).
    destruct (sortNodes_total heap nodeMap Hinv (length heap) O) as [n Hn].
    + by destruct Hinv as [[_ ?] _ _ _ _ _].
    + lia.
    + congruence.
  - split; [|done]. intros _. right. intros Hnd.
    destruct (proj2 Hsome (conj Hnd Hfree)) as [? ?]. congruence.
Qed.

Lemma NoDup_keys blocks :
  NoDup (blockKey <$> blocks) <-> NoDup (Index <$> blocks).
Proof.
  unfold blockKey. rewrite (list_fmap_compose Index indexKey).
  apply NoDup_fmap. intros i1 i2. apply KeyFacts.indexKey_inj.
Qed.

Lemma buildTree_None_index blocks :
  Forall goodBlock blocks ->
  buildTree blocks = None <-> blocks = [] \/ ~ NoDup (Index <$> blocks).
Proof. intros H. by rewrite buildTree_None, NoDup_keys. Qed.

End TreeFacts.

(** ** The parser *)

Module ParserFacts.
Import blueprint blueprintSpec treeSpec orderSpec.

(** C4, as the code has it: [New] returns no tree exactly when no block
    line was parsed or two blocks have the same index. *)
Theorem parse_nil_iff content :
  fst (New content) = None
  <-> parseBlocks content = []
      \/ ~ NoDup (Index <$> parseBlocks content).
Proof.
  unfold New. cbn [fst].
  apply TreeFacts.buildTree_None_index, ParseFacts.parseBlocks_good.
Qed.

(** C4 as stated fails: a blueprint with nothing but a comment has no
    duplicate index and yet no tree. *)
Lemma parse_nil_without_duplicate :
  fst (New ParseExamples.onlyComment) = None
  /\ NoDup (Index <$> parseBlocks ParseExamples.onlyComment).
Proof. split; [vm_compute; reflexivity | vm_compute; constructor]. Qed.

(** Strictly ascending segments leave one order only. *)
Lemma ascending_order_determined n order :
  childrenAscending n ->
  order ≡ₚ lastSegment <$> Children n ->
  StronglySorted Z.lt order ->
  order = lastSegment <$> Children n.
Proof.
  intros Hn Hperm Horder.
  apply (StronglySorted_unique_strong Z.lt); try done.
  intros x1 x2 _ _ H1 H2. lia.
Qed.

(** C7, as the code has it: in a parsed tree the children of every node
    other than the root are in strictly ascending order of the last segment
    of their index, so that their order is fixed by these segments whatever
    the order of the lines; the children of the root, among them the blocks
    whose parent is missing, are in ascending order of their first segment
    and may tie. *)
Theorem siblings_sorted content root :
  fst (New content) = Some root ->
  rootOrdered root
  /\ Forall subtreeAscending (Children root)
  /\ (forall child n order,
        child ∈ Children root -> n ∈ nodes child ->
        order ≡ₚ lastSegment <$> Children n ->
        StronglySorted Z.lt order ->
        order = lastSegment <$> Children n).
Proof.
  unfold New. cbn [fst]. intros H.
  apply TreeFacts.buildTree_Some in H as (heap & nodeMap & Hinv & _ & Hsort).
  destruct (TreeFacts.sortNodes_root heap nodeMap Hinv _ _ Hsort) as [H1 H2].
  split; [done|]. split; [done|].
  intros child n order Hchild Hn. apply ascending_order_determined.
  rewrite Forall_forall in H2. specialize (H2 child Hchild).
  unfold subtreeAscending in H2. rewrite Forall_forall in H2. by apply H2.
Qed.

Lemma siblings_sorted_witness :
  fst (New ParseExamples.family) = Some ParseExamples.familyTree
  /\ paths ParseExamples.familyTree = [""; "p"; "b"; "a"]
  /\ ParseExamples.render ParseExamples.family = Some "P(BA)"
  /\ rootOrdered ParseExamples.familyTree
  /\ Forall subtreeAscending (Children ParseExamples.familyTree).
Proof.
  assert (fst (New ParseExamples.family) = Some ParseExamples.familyTree)
    as H by (vm_compute; reflexivity).
  split; [exact H|]. split; [reflexivity|].
  split; [vm_compute; reflexivity|].
  destruct (siblings_sorted ParseExamples.family ParseExamples.familyTree H)
    as (H1 & H2 & _).
  exact (conj H1 H2).
Defined.

(** The order of the lines of the two children does not matter. *)
Lemma family_order_irrelevant :
  paths <$> fst (New ParseExamples.family)
  = paths <$> fst (New ParseExamples.familyInOrder)
  /\ ParseExamples.render ParseExamples.familyInOrder = Some "P(BA)".
Proof. split; vm_compute; reflexivity. Qed.

(** C7 as stated fails: the blocks [1.2 a] and [1.1 b] alone have no
    parent in the blueprint; both are attached to the root, where they tie on
    their first segment and stay in the order of the lines: [a] is rendered
    before [b]. *)
Lemma orphans_keep_source_order :
  paths <$> fst (New ParseExamples.orphans) = Some [""; "a"; "b"]
  /\ ParseExamples.render ParseExamples.orphans = Some "AB".
Proof. split; vm_compute; reflexivity. Qed.

(** C3, where the code departs from it: a blueprint in which two block
    lines have the same index is not a failure of [processBlueprint].
    [New] returns no tree and no error; nothing is loaded, an empty page
    is written, and the error returned is that of the write alone: none
    when the write goes through. *)
Theorem duplicate_index_writes_empty_page generateHash path outputRel s content :
  storage.blueprintFile (storage.fs s) path = ok content ->
  ~ NoDup (Index <$> parseBlocks content) ->
  let page :=
    filepath.Join [storage.targetPath s;
                   strings.TrimPrefix outputRel "blueprints/" +:+ ".html"] in
  blueprint.New content = (None, None)
  /\ builder.processBlueprint generateHash path outputRel s
     = Ok (builder.wrapErr "writing output"
             (storage.writeFile (storage.fs s) page ""),
           storage.record (storage.CallWrite page "")
             (storage.record (storage.CallReadBlueprint path) s)).
Proof.
  intros Hread Hdup page.
  assert (fst (New content) = None) as Hnil.
  { unfold New. cbn [fst].
    apply TreeFacts.buildTree_None_index;
      [apply ParseFacts.parseBlocks_good | by right]. }
  split.
  - unfold New in *. cbn [fst] in Hnil. by rewrite Hnil.
  - by apply (BuilderFacts.nil_tree_writes_empty_page _ _ _ _ content).
Qed.

Lemma duplicate_index_writes_empty_page_witness :
  blueprint.New PageExamples.duplicateIndex = (None, None)
  /\ builder.processBlueprint Examples.idHash "index.blueprint"
       "blueprints/index"
       (storage.New "in" "out"
          (PageExamples.diskWith PageExamples.duplicateIndex))
     = Ok (None,
           {| storage.sourcePath := "in"; storage.targetPath := "out";
              storage.fs := PageExamples.diskWith PageExamples.duplicateIndex;
              storage.calls := [storage.CallReadBlueprint "index.blueprint";
                                storage.CallWrite "out/index.html" ""] |}).
Proof.
  apply (duplicate_index_writes_empty_page Examples.idHash "index.blueprint"
           "blueprints/index"
           (storage.New "in" "out"
              (PageExamples.diskWith PageExamples.duplicateIndex))
           PageExamples.duplicateIndex).
  - reflexivity.
  - vm_compute. intros H. apply NoDup_cons in H as [H _].
    apply H. apply list_elem_of_here.
Defined.

End ParserFacts.

(** ** No index out of range *)

Module TotalityFacts.
Import template templateSpec blueprintSpec treeSpec.

Lemma processTemplate_total tmpl vars children p :
  goodVars vars -> (forall q, children q <> Panic) ->
  processTemplate tmpl vars children p <> Panic.
Proof.
  intros Hvars Hch. rewrite TemplateFacts.processTemplate_unfold.
  pose proof (TemplateFacts.run_total (Tokenize tmpl) vars children
                (Tokenize tmpl) 0 loopInit p Hvars Hch) as H.
  destruct (processTokens _ _ _ _ _ _) as [[v p']|]; [done|].
  exfalso. apply H; [lia|lia|done|done].
Qed.

Lemma ProcessNode_total generateHash n :
  Forall (fun m => goodVars (blueprint.Vars (blueprint.NodeBlock m))) (nodes n) ->
  forall p, ProcessNode generateHash n p <> Panic.
Proof.
  induction n as [block children IH] using ProcessFacts.Node_induction.
  cbn [nodes blueprint.Children]. intros Hgood p.
  apply Forall_cons in Hgood as [Hblock Hrest]. cbn [blueprint.NodeBlock] in Hblock.
  apply Forall_concat in Hrest. rewrite Forall_fmap in Hrest.
  assert (forall q, eachChild (ProcessNode generateHash) children q <> Panic)
    as Hch.
  { intros q. apply ProcessFacts.eachChild_total.
    rewrite Forall_forall in IH. rewrite Forall_forall in Hrest.
    apply Forall_forall. intros c Hc. by apply IH, Hrest. }
  cbn [ProcessNode]. destruct (blueprint.ID block =? -1).
  - specialize (Hch p).
    by destruct (eachChild _ children p) as [[out q]|].
  - destruct (component.Get _ _) as [comp|]; [|done].
    pose proof (processTemplate_total (component.Template comp)
                  (blueprint.Vars block)
                  (eachChild (ProcessNode generateHash) children)
                  (processAssets generateHash comp (blueprint.Path block) p)
                  Hblock Hch) as H.
    by destruct (processTemplate _ _ _ _) as [[out q]|].
Qed.

(** C9: interpreting a template does not panic when every variable bound
    in the vars has at least one value; the parser binds a variable only
    when it appends a value, so every block it makes is so, and processing
    a parsed tree does not panic; outside a range, a variable bound to no
    value at all makes the [Var] case read [values[0]] out of range. *)
Theorem template_total_on_parsed_vars :
  (forall tmpl vars children p,
     goodVars vars -> (forall q, children q <> Panic) ->
     processTemplate tmpl vars children p <> Panic)
  /\ (forall content block,
        block ∈ blueprint.parseBlocks content -> goodVars (blueprint.Vars block))
  /\ (forall generateHash content root p,
        fst (blueprint.New content) = Some root ->
        ProcessNode generateHash root p <> Panic)
  /\ (forall tokens vars children i name v p,
        vars !! name = Some [] -> inRange v = false ->
        processToken tokens vars children i (mkToken VarToken name) (v, p)
        = Panic).
Proof.
  split; [exact processTemplate_total|]. split; [|split].
  - intros content block Hin.
    pose proof (ParseFacts.parseBlocks_good content) as H.
    rewrite Forall_forall in H. by apply H.
  - intros generateHash content root p Hroot.
    unfold blueprint.New in Hroot. cbn [fst] in Hroot.
    apply TreeFacts.buildTree_Some in Hroot
      as (heap & nodeMap & Hinv & Hblocks & Hsort).
    apply ProcessNode_total.
    pose proof (TreeFacts.sortNodes_blocks heap _ _ _ Hsort) as Hin.
    eapply Forall_impl; [exact Hin|]. intros m Hm. simpl in Hm.
    rewrite Hblocks in Hm. apply elem_of_cons in Hm as [->|Hm].
    + intros name values H. cbn [blueprint.rootCell blueprint.cellBlock
        blueprint.Vars] in H. by rewrite lookup_empty in H.
    + pose proof (ParseFacts.parseBlocks_good content) as H.
      rewrite Forall_forall in H. by apply H.
  - intros tokens vars children i name v p Hname Hv.
    unfold processToken. cbn [Type_ Content]. by rewrite Hv, Hname.
Qed.

Lemma template_total_on_parsed_vars_witness :
  processTemplate Examples.listTemplate Examples.listVars Examples.noChildren
    Examples.freshProcessor <> Panic
  /\ processTemplate "{{.x}}" {[ "x" := [] ]} Examples.noChildren
       Examples.freshProcessor = Panic.
Proof.
  split.
  - apply (proj1 template_total_on_parsed_vars).
    + intros name values H. unfold Examples.listVars in H.
      apply lookup_insert_Some in H as [[_ <-]|[_ H]]; [done|].
      apply lookup_singleton_Some in H as [_ <-]. done.
    + done.
  - vm_compute. reflexivity.
Defined.

End TotalityFacts.

(** ** The loops that run on fuel *)

Module FuelFacts.

Lemma length_drop n s :
  String.length (strings.drop n s) = (String.length s - n)%nat.
Proof.
  revert s. induction n as [|n IH]; intros [|c s]; simpl; done.
Qed.

(** The scan loop of [Tokenize] ends within [len(template) - pos] turns. *)
Lemma tokenizeLoop_fuel fuel tmpl pos tokens :
  (String.length tmpl - pos <= fuel)%nat ->
  is_Some (template.tokenizeLoop fuel tmpl pos tokens).
Proof.
  revert tmpl pos tokens.
  induction fuel as [|fuel IH]; intros tmpl pos tokens Hfuel.
  - cbn [template.tokenizeLoop].
    destruct (Nat.ltb pos (String.length tmpl)) eqn:E; [|by eexists].
    apply Nat.ltb_lt in E. lia.
  - cbn [template.tokenizeLoop].
    destruct (Nat.ltb pos (String.length tmpl)) eqn:E; [|by eexists].
    apply Nat.ltb_lt in E. cbn [negb].
    destruct (strings.HasPrefix _ "{{").
    + destruct (strings.Index _ "}}") as [end_|]; [|by eexists].
      apply IH. rewrite !length_drop. lia.
    + apply IH. lia.
Qed.

Lemma Tokenize_terminates tmpl :
  template.tokenizeLoop (String.length tmpl) tmpl O []
  = Some (template.Tokenize tmpl).
Proof.
  unfold template.Tokenize.
  destruct (tokenizeLoop_fuel (String.length tmpl) tmpl O []) as [toks ->];
    [lia|done].
Qed.

Abbreviation collapseOnce := (strings.replaceFrom "--" "-").

Lemma collapseOnce_length skip s :
  (String.length (collapseOnce skip s) <= String.length s)%nat.
Proof.
  revert skip. induction s as [|c s IH]; intros skip; [done|].
  cbn [strings.replaceFrom]. destruct skip as [|k].
  - destruct (String.prefix "--" (String c s)).
    + rewrite StringFacts.length_append. specialize (IH (String.length "--" - 1)%nat).
      simpl in *. lia.
    + specialize (IH O). simpl. lia.
  - specialize (IH k). simpl. lia.
Qed.

Lemma collapseOnce_shorter s :
  strings.Contains s "--" = true ->
  (String.length (strings.ReplaceAll s "--" "-") < String.length s)%nat.
Proof.
  unfold strings.ReplaceAll, strings.Contains.
  induction s as [|c s IH]; [done|].
  cbn [strings.Index strings.replaceFrom].
  destruct (String.prefix "--" (String c s)) eqn:E.
  - intros _. rewrite StringFacts.length_append.
    pose proof (collapseOnce_length (String.length "--" - 1) s) as H.
    destruct s as [|c' s]; [by destruct c as [[] [] [] [] [] [] [] []]|].
    cbn [String.length Nat.sub strings.replaceFrom] in *.
    pose proof (collapseOnce_length O s). simpl. lia.
  - destruct (strings.Index s "--") as [i|]; [|done]. intros _.
    specialize (IH eq_refl). simpl. lia.
Qed.

(** The loop of [sanitizeFileName] ends within [len(name)] turns: no two
    dashes in a row are left. *)
Lemma collapseDashes_done fuel name :
  (String.length name <= fuel)%nat ->
  strings.Contains (assets.collapseDashes fuel name) "--" = false.
Proof.
  revert name. induction fuel as [|fuel IH]; intros name Hfuel.
  - destruct name; [done|simpl in Hfuel; lia].
  - cbn [assets.collapseDashes].
    destruct (strings.Contains name "--") eqn:E; [|done].
    apply IH. apply collapseOnce_shorter in E. lia.
Qed.

End FuelFacts.

(** ** More on byte strings *)

Module StringMore.

Lemma drop_append s t : strings.drop (String.length s) (s +:+ t) = t.
Proof. induction s as [|c s IH]; [done|]. by rewrite StringFacts.append_cons. Qed.

Lemma take_append s t : strings.take (String.length s) (s +:+ t) = s.
Proof.
  induction s as [|c s IH]; [by destruct t|].
  rewrite StringFacts.append_cons. simpl. by rewrite IH.
Qed.

Lemma drop_drop n m s : strings.drop n (strings.drop m s) = strings.drop (m + n) s.
Proof.
  revert s. induction m as [|m IH]; intros s; [done|].
  destruct s as [|c s]; simpl; [by destruct n|]. apply IH.
Qed.

Lemma prefix_append p s : String.prefix p (p +:+ s) = true.
Proof.
  induction p as [|c p IH]; [by destruct s|].
  rewrite StringFacts.append_cons. simpl.
  destruct (ascii_dec c c); [done|done].
Qed.

(** No occurrence at all means no occurrence from any position on. *)
Lemma Index_None_prefix s sub :
  strings.Index s sub = None -> String.prefix sub s = false.
Proof.
  destruct s as [|c s]; cbn [strings.Index];
    by destruct (String.prefix sub _).
Qed.

Lemma Index_None_drop s sub q :
  strings.Index s sub = None -> String.prefix sub (strings.drop q s) = false.
Proof.
  revert s. induction q as [|q IH]; intros s H.
  - by apply Index_None_prefix.
  - destruct s as [|c s]; cbn [strings.drop].
    + by apply Index_None_prefix.
    + apply IH. cbn [strings.Index] in H.
      destruct (String.prefix sub (String c s)); [done|].
      by destruct (strings.Index s sub).
Qed.

(** A byte that does not occur in [pre] does not start an occurrence of a
    string that begins with it. *)
Lemma prefix_drop_absent c sub pre t q :
  strings.IndexByte pre c = None -> (q < String.length pre)%nat ->
  String.prefix (String c sub) (strings.drop q (pre +:+ t)) = false.
Proof.
  revert q. induction pre as [|a pre IH]; intros q Hc Hq; [simpl in Hq; lia|].
  rewrite StringFacts.append_cons. simpl in Hc.
  destruct (Ascii.eqb a c) eqn:E; [done|].
  destruct (strings.IndexByte pre c) eqn:E2; [done|].
  destruct q as [|q]; simpl.
  - destruct (ascii_dec c a) as [->|]; [|done]. by rewrite Ascii.eqb_refl in E.
  - apply IH; [done|simpl in Hq; lia].
Qed.

(** The first occurrence of a two-byte mark after a text without its byte. *)
Lemma Index_after_absent c body rest :
  strings.IndexByte body c = None ->
  strings.Index (body +:+ String c (String c rest)) (String c (String c ""))
  = Some (String.length body).
Proof.
  induction body as [|a body IH]; intros H.
  - simpl. destruct (ascii_dec c c); [|done]. by destruct rest.
  - simpl in H. destruct (Ascii.eqb a c) eqn:E; [done|].
    destruct (strings.IndexByte body c) eqn:E2; [done|].
    rewrite StringFacts.append_cons. cbn [strings.Index String.prefix].
    destruct (ascii_dec c a) as [->|]; [by rewrite Ascii.eqb_refl in E|].
    rewrite IH by done. done.
Qed.

End StringMore.

(** ** The tokenizer *)

Module TokenizerFacts.
Import template tokenSpec.

Lemma tokenizeLoop_done fuel s pos toks :
  (String.length s <= pos)%nat ->
  tokenizeLoop fuel s pos toks = Some (remainingText s toks).
Proof.
  intros H. assert (Nat.ltb pos (String.length s) = false) as E
    by (apply Nat.ltb_ge; lia).
  destruct fuel; cbn [tokenizeLoop]; by rewrite E.
Qed.

Lemma tokenizeLoop_turn fuel s pos toks :
  (pos < String.length s)%nat ->
  tokenizeLoop (S fuel) s pos toks
  = if strings.HasPrefix (strings.drop pos s) "{{" then
      let toks' :=
        if Nat.ltb O pos
        then toks ++ [mkToken TextToken (strings.take pos s)] else toks in
      let s' := strings.drop pos s in
      match strings.Index (strings.drop 2 s') "}}" with
      | None => Some (remainingText s' (toks' ++ [mkToken TextToken s']))
      | Some end_ =>
          tokenizeLoop fuel (strings.drop (end_ + 4) s') O
            (toks' ++ directiveToken
                        (strings.TrimSpace
                           (strings.take end_ (strings.drop 2 s'))))
      end
    else tokenizeLoop fuel s (S pos) toks.
Proof.
  intros H. apply Nat.ltb_lt in H. cbn [tokenizeLoop]. by rewrite H.
Qed.

Lemma tokenizeLoop_S fuel s pos toks r :
  tokenizeLoop fuel s pos toks = Some r ->
  tokenizeLoop (S fuel) s pos toks = Some r.
Proof.
  revert s pos toks. induction fuel as [|fuel IH]; intros s pos toks.
  - destruct (Nat.ltb pos (String.length s)) eqn:E.
    + cbn [tokenizeLoop]. by rewrite E.
    + apply Nat.ltb_ge in E. by rewrite !tokenizeLoop_done.
  - destruct (Nat.ltb pos (String.length s)) eqn:E.
    + apply Nat.ltb_lt in E. rewrite (tokenizeLoop_turn (S fuel)) by done.
      rewrite (tokenizeLoop_turn fuel) by done.
      destruct (strings.HasPrefix _ "{{"); [|apply IH].
      cbv zeta. destruct (strings.Index _ "}}"); [apply IH|done].
    + apply Nat.ltb_ge in E. by rewrite !tokenizeLoop_done.
Qed.

Lemma tokenizeLoop_more spare fuel s pos toks r :
  tokenizeLoop fuel s pos toks = Some r ->
  tokenizeLoop (fuel + spare) s pos toks = Some r.
Proof.
  intros H. induction spare as [|spare IH]; [by rewrite Nat.add_0_r|].
  rewrite Nat.add_succ_r. by apply tokenizeLoop_S.
Qed.

Lemma Tokenize_fuel tmpl spare :
  tokenizeLoop (String.length tmpl + spare) tmpl O [] = Some (Tokenize tmpl).
Proof. apply tokenizeLoop_more, FuelFacts.Tokenize_terminates. Qed.

Lemma remainingText_acc s acc toks :
  remainingText s (acc ++ toks) = acc ++ remainingText s toks.
Proof. unfold remainingText. destruct (Nat.ltb _ _); by rewrite ?app_assoc. Qed.

(** The loop only ever appends to the tokens it is given. *)
Lemma tokenizeLoop_acc fuel s pos acc toks :
  tokenizeLoop fuel s pos (acc ++ toks)
  = (fun r => acc ++ r) <$> tokenizeLoop fuel s pos toks.
Proof.
  revert s pos toks. induction fuel as [|fuel IH]; intros s pos toks.
  - destruct (Nat.ltb pos (String.length s)) eqn:E.
    + cbn [tokenizeLoop]. by rewrite E.
    + apply Nat.ltb_ge in E. rewrite !tokenizeLoop_done by done.
      simpl. by rewrite remainingText_acc.
  - destruct (Nat.ltb pos (String.length s)) eqn:E.
    + apply Nat.ltb_lt in E. rewrite !tokenizeLoop_turn by done.
      destruct (strings.HasPrefix _ "{{"); [|apply IH]. cbv zeta.
      destruct (Nat.ltb O pos);
        (destruct (strings.Index _ "}}");
         [rewrite <- ?app_assoc; apply IH
         |simpl; by rewrite <- ?app_assoc, remainingText_acc]).
    + apply Nat.ltb_ge in E. rewrite !tokenizeLoop_done by done.
      simpl. by rewrite remainingText_acc.
Qed.

(** Scanning a stretch in which no directive opens. *)
Lemma tokenizeLoop_scan s stop fuel pos toks :
  (forall q, (pos <= q < stop)%nat ->
     strings.HasPrefix (strings.drop q s) "{{" = false) ->
  (pos <= stop <= String.length s)%nat ->
  tokenizeLoop (stop - pos + fuel) s pos toks = tokenizeLoop fuel s stop toks.
Proof.
  intros Hno Hle. remember (stop - pos)%nat as k eqn:Hk.
  revert pos Hno Hle Hk. induction k as [|k IH]; intros pos Hno Hle Hk.
  - assert (pos = stop) as -> by lia. done.
  - cbn [Nat.add]. rewrite tokenizeLoop_turn by lia.
    rewrite Hno by lia. apply IH; [|lia|lia].
    intros q Hq. apply Hno. lia.
Qed.

Lemma textToken_take pre t (toks : list Token) :
  (if Nat.ltb O (String.length pre)
   then toks ++ [mkToken TextToken (strings.take (String.length pre) (pre +:+ t))]
   else toks) = toks ++ textToken pre.
Proof.
  unfold textToken. rewrite StringMore.take_append.
  destruct (Nat.ltb _ _); by rewrite ?app_nil_r.
Qed.

Lemma no_open_before pre t q :
  strings.IndexByte pre "{" = None -> (q < String.length pre)%nat ->
  strings.HasPrefix (strings.drop q (pre +:+ String "{" (String "{" t))) "{{"
  = false.
Proof. intros. by apply StringMore.prefix_drop_absent. Qed.

Lemma HasPrefix_open x :
  strings.HasPrefix (String "{" (String "{" x)) "{{" = true.
Proof. apply (StringMore.prefix_append "{{" x). Qed.

(** The loop run up to the first directive, whose body ends at the first
    closing pair. *)
Lemma tokenizeLoop_directive fuel pre body rest :
  strings.IndexByte pre "{" = None ->
  strings.IndexByte body "}" = None ->
  tokenizeLoop (String.length pre + S fuel)
    (pre +:+ "{{" +:+ body +:+ "}}" +:+ rest) O []
  = tokenizeLoop fuel rest O
      (textToken pre ++ directiveToken (strings.TrimSpace body)).
Proof.
  intros Hpre Hbody.
  change (pre +:+ "{{" +:+ body +:+ "}}" +:+ rest)
    with (pre +:+ String "{" (String "{" (body +:+ String "}" (String "}" rest)))).
  pose proof (tokenizeLoop_scan
    (pre +:+ String "{" (String "{" (body +:+ String "}" (String "}" rest))))
    (String.length pre) (S fuel) O []) as Hscan.
  rewrite Nat.sub_0_r in Hscan. rewrite Hscan; clear Hscan.
  - rewrite tokenizeLoop_turn
      by (rewrite StringFacts.length_append; simpl; lia).
    rewrite StringMore.drop_append.
    rewrite HasPrefix_open. cbv zeta. cbn [strings.drop].
    rewrite (StringMore.Index_after_absent "}" body rest) by done.
    rewrite textToken_take, StringMore.take_append.
    replace (String.length body + 4)%nat with (S (S (String.length body + 2)))
      by lia.
    cbn [strings.drop].
    rewrite <- StringMore.drop_drop, StringMore.drop_append.
    cbn [strings.drop]. by rewrite app_nil_l.
  - intros q Hq. apply no_open_before; [done|lia].
  - rewrite StringFacts.length_append. lia.
Qed.

Lemma Tokenize_from fuel tmpl r :
  tokenizeLoop fuel tmpl O [] = Some r -> Tokenize tmpl = r.
Proof.
  intros H. apply (tokenizeLoop_more (String.length tmpl)) in H.
  pose proof (Tokenize_fuel tmpl fuel) as H'.
  rewrite Nat.add_comm in H'. congruence.
Qed.

(** The scan loop of [Tokenize] ends: run for [len(template)] turns or
    for any number more, it returns, and always the same tokens. *)
Theorem tokenize_loop_ends tmpl spare :
  tokenizeLoop (String.length tmpl + spare) tmpl O [] = Some (Tokenize tmpl).
Proof. apply Tokenize_fuel. Qed.

Lemma Tokenize_plain tmpl :
  strings.Index tmpl "{{" = None -> Tokenize tmpl = textToken tmpl.
Proof.
  intros H. apply (Tokenize_from (String.length tmpl)).
  pose proof (tokenizeLoop_scan tmpl (String.length tmpl) O O []) as Hscan.
  rewrite Nat.sub_0_r, Nat.add_0_r in Hscan. rewrite Hscan.
  - by rewrite tokenizeLoop_done.
  - intros q _. by apply StringMore.Index_None_drop.
  - lia.
Qed.

(** A template in which no directive opens is one text token, and no
    token at all if it is empty. *)
Theorem plain_text_one_token tmpl :
  strings.Index tmpl "{{" = None -> Tokenize tmpl = textToken tmpl.
Proof. apply Tokenize_plain. Qed.

Lemma plain_text_one_token_witness :
  Tokenize "<p>a { b }} c</p>"
  = [mkToken TextToken "<p>a { b }} c</p>"].
Proof. apply (plain_text_one_token "<p>a { b }} c</p>"). reflexivity. Defined.

(** The first directive splits the template: the text before it, if
    any, is one text token; the directive is the token of its body with the
    white space around it trimmed, and no token if the body is no known
    directive; what follows the closing pair is tokenized on its own. *)
Theorem first_directive_splits pre body rest :
  strings.IndexByte pre "{" = None ->
  strings.IndexByte body "}" = None ->
  Tokenize (pre +:+ "{{" +:+ body +:+ "}}" +:+ rest)
  = textToken pre ++ directiveToken (strings.TrimSpace body) ++ Tokenize rest.
Proof.
  intros Hpre Hbody.
  apply (Tokenize_from (String.length pre + S (String.length rest))).
  rewrite tokenizeLoop_directive by done.
  rewrite <- (app_nil_r (_ ++ directiveToken _)), tokenizeLoop_acc.
  rewrite FuelFacts.Tokenize_terminates. simpl. by rewrite <- app_assoc.
Qed.

Lemma first_directive_splits_witness :
  Tokenize ("<h1>" +:+ "{{" +:+ " .title " +:+ "}}" +:+ "</h1>{{ nonsense }}")
  = [mkToken TextToken "<h1>"; mkToken VarToken "title";
     mkToken TextToken "</h1>"].
Proof.
  apply (first_directive_splits "<h1>" " .title " "</h1>{{ nonsense }}");
    reflexivity.
Defined.

(** A directive that is never closed turns the rest of the template
    into text, and this text is emitted twice: once where the scan stops and
    once more as the text that remains. *)
Theorem unclosed_directive_doubles_text pre body :
  strings.IndexByte pre "{" = None ->
  strings.Index body "}}" = None ->
  Tokenize (pre +:+ "{{" +:+ body)
  = textToken pre ++ [mkToken TextToken ("{{" +:+ body);
                      mkToken TextToken ("{{" +:+ body)].
Proof.
  intros Hpre Hbody. apply (Tokenize_from (String.length pre + 1)).
  change (pre +:+ "{{" +:+ body) with (pre +:+ String "{" (String "{" body)).
  change ("{{" +:+ body) with (String "{" (String "{" body)).
  pose proof (tokenizeLoop_scan (pre +:+ String "{" (String "{" body))
    (String.length pre) 1 O []) as Hscan.
  rewrite Nat.sub_0_r in Hscan. rewrite Hscan; clear Hscan.
  - rewrite tokenizeLoop_turn
      by (rewrite StringFacts.length_append; simpl; lia).
    rewrite StringMore.drop_append, HasPrefix_open. cbv zeta.
    cbn [strings.drop]. rewrite Hbody, textToken_take.
    unfold remainingText. cbn [String.length Nat.ltb Nat.leb].
    by rewrite app_nil_l, <- !app_assoc.
  - intros q Hq. apply no_open_before; [done|lia].
  - rewrite StringFacts.length_append. lia.
Qed.

Lemma unclosed_directive_doubles_text_witness :
  Tokenize ("a" +:+ "{{" +:+ ".x } b")
  = [mkToken TextToken "a"; mkToken TextToken "{{.x } b";
     mkToken TextToken "{{.x } b"].
Proof. apply (unclosed_directive_doubles_text "a" ".x } b"); reflexivity. Defined.

(** A template in which no directive opens is rendered as it is: the
    variables are not read, the children are not processed and the
    processor is left as it was. *)
Theorem plain_template_verbatim tmpl vars children p :
  strings.Index tmpl "{{" = None ->
  processTemplate tmpl vars children p = Ok (tmpl, p).
Proof.
  intros H. unfold processTemplate. rewrite Tokenize_plain by done.
  unfold textToken. destruct tmpl as [|c tmpl]; [done|]. reflexivity.
Qed.

Lemma plain_template_verbatim_witness :
  processTemplate "<hr>" ∅ (fun _ => Panic) Examples.freshProcessor
  = Ok ("<hr>", Examples.freshProcessor).
Proof. apply (plain_template_verbatim "<hr>"). reflexivity. Defined.

End TokenizerFacts.

(** ** What a walk over the tree does to the processor *)

Module WalkFacts.
Import template templateSpec processSpec walkSpec treeSpec.

(** A relation between the processor before and after that every step of
    the walk respects is respected by the walk. *)
Section Relation.
Variable generateHash : string -> string.
Variable R : Processor -> Processor -> Prop.
Variable visited : blueprint.Node -> Prop.
Hypothesis R_refl : forall p, R p p.
Hypothesis R_trans : forall p q r, R p q -> R q r -> R p r.
Hypothesis R_styles : forall p, R p (setHasStyles p).
Hypothesis R_scripts : forall p, R p (setHasScripts p).

Lemma eachChild_rel {N}
    (f : N -> Processor -> Res (string * option string * Processor)) l p out p' :
  Forall (fun c => forall q o e q', f c q = Ok (o, e, q') -> R q q') l ->
  eachChild f l p = Ok (out, p') -> R p p'.
Proof.
  intros Hl. revert p out p'.
  induction Hl as [|c l Hc _ IH]; intros p out p'; simpl.
  - intros [= <- <-]. apply R_refl.
  - destruct (f c p) as [[[childContent e] p1]|] eqn:E; simpl; [|done].
    destruct (eachChild f l p1) as [[out1 p2]|] eqn:E2; simpl; [|done].
    intros [= <- <-]. eapply R_trans; eauto.
Qed.

Lemma processTokens_rel tokens vars children i rest v p v' p' :
  (forall q o q', children q = Ok (o, q') -> R q q') ->
  processTokens tokens vars children i rest (v, p) = Ok (v', p') ->
  R p p'.
Proof.
  intros Hch. revert i v p.
  induction rest as [|t rest IH]; intros i v p; cbn [processTokens].
  - intros [= <- <-]. apply R_refl.
  - destruct (processToken tokens vars children i t (v, p))
      as [[v1 p1]|] eqn:E; simpl; [|done].
    intros Hrest. apply IH in Hrest.
    eapply R_trans; [|exact Hrest].
    unfold processToken in E.
    destruct (Type_ t); destruct (inRange v); simpl in E;
      try (injection E as <- <-; first [apply R_refl|apply R_styles|apply R_scripts]).
    + destruct (mapRes _ _); simpl in E; [|done].
      injection E as <- <-. apply R_refl.
    + destruct (vars !! Content t) as [[|value ?]|]; try done;
        injection E as <- <-; apply R_refl.
    + destruct (children p) as [[o q']|] eqn:Ec; simpl in E; [|done].
      injection E as <- <-. by eapply Hch.
Qed.

Lemma processTemplate_rel tmpl vars children p out p' :
  (forall q o q', children q = Ok (o, q') -> R q q') ->
  processTemplate tmpl vars children p = Ok (out, p') -> R p p'.
Proof.
  intros Hch. unfold processTemplate.
  destruct (processTokens _ _ _ _ _ _) as [[v q]|] eqn:E; simpl; [|done].
  intros [= <- <-]. by eapply processTokens_rel.
Qed.

Hypothesis R_assets :
  forall comp path p, R p (processAssets generateHash comp path p).
Hypothesis R_missing :
  forall block children p,
    visited (blueprint.mkNode block children) ->
    unresolved (registry p) (blueprint.mkNode block children) ->
    R p (notFound (blueprint.Path block) p).

Lemma ProcessNode_rel n :
  Forall visited (nodes n) ->
  forall p out e p', ProcessNode generateHash n p = Ok (out, e, p') -> R p p'.
Proof.
  induction n as [block children IH] using ProcessFacts.Node_induction.
  cbn [nodes blueprint.Children]. intros Hvis p out e p'.
  apply Forall_cons in Hvis as [Hnode Hrest].
  apply Forall_concat in Hrest. rewrite Forall_fmap in Hrest.
  assert (forall q o q',
    eachChild (ProcessNode generateHash) children q = Ok (o, q') -> R q q')
    as Hch.
  { intros q o q'. apply eachChild_rel.
    rewrite Forall_forall in IH. rewrite Forall_forall in Hrest.
    apply Forall_forall. intros c Hc. by apply IH, Hrest. }
  cbn [ProcessNode]. destruct (blueprint.ID block =? -1) eqn:Eid.
  - destruct (eachChild _ children p) as [[o q]|] eqn:E; simpl; [|done].
    intros [= <- <- <-]. by eapply Hch.
  - destruct (component.Get _ _) as [comp|] eqn:Eget.
    + destruct (processTemplate _ _ _ _) as [[o q]|] eqn:E; simpl; [|done].
      intros [= <- <- <-].
      eapply R_trans; [apply R_assets|].
      eapply processTemplate_rel; [exact Hch|exact E].
    + intros [= <- <- <-]. apply (R_missing block children); [done|].
      split; [|done]. simpl. by apply Z.eqb_neq.
Qed.

End Relation.

(** The error [Process] returns is made of the collected errors, or is
    none. *)
Lemma ProcessNode_error generateHash n p out e p' :
  ProcessNode generateHash n p = Ok (out, e, p') ->
  e = processingError p' \/ e = None.
Proof.
  destruct n as [block children]. cbn [ProcessNode].
  destruct (blueprint.ID block =? -1).
  - destruct (eachChild _ children p) as [[o q]|]; simpl; [|done].
    intros [= <- <- <-]. by left.
  - destruct (component.Get _ _) as [comp|].
    + destruct (processTemplate _ _ _ _) as [[o q]|]; simpl; [|done].
      intros [= <- <- <-]. by left.
    + intros [= <- <- <-]. by right.
Qed.

Lemma soundErrors_refl among p : soundErrors among p p.
Proof. split; [done|]. intros e He. by left. Qed.

Lemma soundErrors_same among p p' :
  registry p' = registry p -> errLines p' = errLines p ->
  soundErrors among p p'.
Proof. intros H1 H2. split; [done|]. intros e He. left. by rewrite <- H2. Qed.

Lemma soundErrors_trans among p q r :
  soundErrors among p q -> soundErrors among q r -> soundErrors among p r.
Proof.
  intros [H1 H2] [H3 H4]. split; [congruence|].
  intros e He. apply H4 in He as [He|(m & Hm & Hun & ->)].
  - by apply H2.
  - right. exists m. by rewrite <- H1.
Qed.

Lemma soundErrors_missing among block children p :
  blueprint.mkNode block children ∈ among ->
  unresolved (registry p) (blueprint.mkNode block children) ->
  soundErrors among p (notFound (blueprint.Path block) p).
Proof.
  intros Hin Hun. unfold notFound, addError.
  destruct (existsb _ _); [apply soundErrors_refl|].
  split; [done|]. cbn [errLines]. intros e He.
  apply elem_of_app in He as [He|He]; [by left|].
  apply list_elem_of_singleton in He as ->. right.
  by exists (blueprint.mkNode block children).
Qed.

Lemma ProcessNode_sound generateHash n p out e p' :
  ProcessNode generateHash n p = Ok (out, e, p') ->
  soundErrors (nodes n) p p'.
Proof.
  apply (ProcessNode_rel generateHash (soundErrors (nodes n))
           (fun m => m ∈ nodes n)).
  - apply soundErrors_refl.
  - apply soundErrors_trans.
  - intros q. by apply soundErrors_same.
  - intros q. by apply soundErrors_same.
  - intros comp path q. by apply soundErrors_same.
  - apply soundErrors_missing.
  - by apply Forall_forall.
Qed.

Lemma distinct_addError line directive msg p :
  distinctErrors p -> distinctErrors (addError line directive msg p).
Proof.
  unfold addError. destruct (existsb _ _) eqn:E; [done|].
  unfold distinctErrors. cbn [errLines]. rewrite fmap_app. intros Hnd.
  apply NoDup_app. split; [done|]. split; [|apply NoDup_singleton].
  intros k Hk Hk'. apply list_elem_of_singleton in Hk' as ->.
  apply list_elem_of_fmap in Hk as (e & Hkey & He).
  assert (existsb (sameError line directive) (errLines p) = true) as Hex;
    [|congruence].
  apply existsb_exists. exists e. split; [by apply list_elem_of_In|].
  unfold sameError. injection Hkey as Hl Hd. rewrite <- Hl, <- Hd.
  by rewrite Z.eqb_refl, String.eqb_refl.
Qed.

(** [Process] never collects two errors for the same line and directive:
    a missing component that several nodes ask for is reported once. *)
Theorem errors_stay_distinct generateHash n p out e p' :
  distinctErrors p ->
  ProcessNode generateHash n p = Ok (out, e, p') ->
  distinctErrors p'.
Proof.
  intros Hp Hrun. revert Hp.
  apply (ProcessNode_rel generateHash
           (fun q q' => distinctErrors q -> distinctErrors q')
           (fun _ => True)) with n out e; try done.
  - intros q1 q2 q3. tauto.
  - intros block children q _ _. apply distinct_addError.
  - by apply Forall_forall.
Qed.

Lemma errors_stay_distinct_witness :
  distinctErrors
    (notFound "missing" TreeExamples.smallProcessor).
Proof.
  apply (errors_stay_distinct Examples.idHash
           (blueprint.mkNode TreeExamples.rootBlock
              [TreeExamples.missingNode 0 [1]; TreeExamples.missingNode 1 [2]])
           TreeExamples.smallProcessor "{{missing}}{{missing}}"
           (processingError (notFound "missing" TreeExamples.smallProcessor))).
  - apply NoDup_nil_2.
  - vm_compute. reflexivity.
Defined.

(** Every error that [Process] collects is the error of a node of the tree
    whose component is not in the registry: the walk collects no other
    error, and none for a component that is loaded. *)
Theorem collected_errors_are_missing_components generateHash n p out e p' err :
  ProcessNode generateHash n p = Ok (out, e, p') ->
  err ∈ errLines p' ->
  err ∈ errLines p
  \/ exists m, m ∈ nodes n /\ unresolved (registry p) m
               /\ err = notFoundError (blueprint.Path (blueprint.NodeBlock m)).
Proof.
  intros Hrun Herr. apply ProcessNode_sound in Hrun as [_ H]. by apply H.
Qed.

Lemma collected_errors_are_missing_components_witness :
  notFoundError "missing" ∈ errLines TreeExamples.smallProcessor
  \/ exists m, m ∈ nodes TreeExamples.missingBetween
               /\ unresolved (registry TreeExamples.smallProcessor) m
               /\ notFoundError "missing"
                  = notFoundError (blueprint.Path (blueprint.NodeBlock m)).
Proof.
  apply (collected_errors_are_missing_components Examples.idHash
           TreeExamples.missingBetween TreeExamples.smallProcessor
           "<p>1</p>{{missing}}<p>2</p>"
           (processingError (notFound "missing" TreeExamples.smallProcessor))
           (notFound "missing" TreeExamples.smallProcessor)).
  - vm_compute. reflexivity.
  - apply list_elem_of_singleton. reflexivity.
Defined.

Lemma resolved_no_error generateHash n p out e p' :
  Forall (fun m => ~ unresolved (registry p) m) (nodes n) ->
  errLines p = [] ->
  ProcessNode generateHash n p = Ok (out, e, p') ->
  e = None /\ errLines p' = [].
Proof.
  intros Hall Hnone Hrun.
  assert (errLines p' = []) as Hnil.
  { destruct (errLines p') as [|err errs] eqn:E; [done|]. exfalso.
    pose proof (ProcessNode_sound _ _ _ _ _ _ Hrun) as [_ H].
    destruct (H err) as [Hin|(m & Hm & Hun & _)].
    - rewrite E. apply list_elem_of_here.
    - rewrite Hnone in Hin. by apply not_elem_of_nil in Hin.
    - rewrite Forall_forall in Hall. by apply (Hall m). }
  split; [|done].
  apply ProcessNode_error in Hrun as [->| ->]; [|done].
  unfold processingError. by rewrite Hnil.
Qed.

(** With the component of every node in the registry, and no error
    collected before, [Process] returns no error and collects none. *)
Theorem resolved_tree_has_no_error generateHash n p out e p' :
  Forall (fun m => ~ unresolved (registry p) m) (nodes n) ->
  errLines p = [] ->
  ProcessNode generateHash n p = Ok (out, e, p') ->
  e = None /\ errLines p' = [].
Proof. apply resolved_no_error. Qed.

Lemma resolved_tree_has_no_error_witness :
  processingError TreeExamples.smallProcessor = None
  /\ errLines TreeExamples.smallProcessor = [].
Proof.
  apply (resolved_tree_has_no_error Examples.idHash
           (blueprint.mkNode TreeExamples.rootBlock
              [TreeExamples.plainNode 0 "1" []; TreeExamples.plainNode 1 "2" []])
           TreeExamples.smallProcessor "<p>1</p><p>2</p>").
  - repeat constructor; intros [Hid Hget]; by vm_compute in Hid, Hget.
  - reflexivity.
  - vm_compute. reflexivity.
Defined.

(** With the component of every node in the registry, at least one value
    for every variable bound, and no error collected before, [Assembler]
    returns a page: it neither panics nor fails. *)
Theorem resolved_tree_assembles generateHash n p :
  Forall (fun m => goodVars (blueprint.Vars (blueprint.NodeBlock m))) (nodes n) ->
  Forall (fun m => ~ unresolved (registry p) m) (nodes n) ->
  errLines p = [] ->
  exists res p',
    Assembler generateHash (Some n) p = Ok (ok res, p')
    /\ Files res = assets.GetFiles (assets p')
    /\ Components res = GetUsedComponents p'
    /\ registry p' = registry p.
Proof.
  intros Hvars Hall Hnone.
  pose proof (TotalityFacts.ProcessNode_total generateHash n Hvars p) as Htotal.
  unfold Assembler. cbn [Process].
  destruct (ProcessNode generateHash n p) as [[[html e] p']|] eqn:Hrun; [|done].
  pose proof (ProcessNode_sound _ _ _ _ _ _ Hrun) as [Hreg _].
  apply resolved_no_error in Hrun as [-> _]; [|done|done].
  cbn [mbind Res_bind bindRes].
  destruct (assets.GetAssetTags "" (assets p')) as [stylesTag scriptTags].
  destruct (hasStyles p'), (negb (String.eqb stylesTag ""));
    (eexists _, p'; split; [reflexivity|done]).
Qed.

Lemma resolved_tree_assembles_witness :
  exists res p',
    Assembler Examples.idHash (Some PageExamples.pageTree)
      (PageExamples.processorOf PageExamples.unmarkedPage) = Ok (ok res, p')
    /\ Files res = assets.GetFiles (assets p')
    /\ Components res = GetUsedComponents p'
    /\ registry p' = registry (PageExamples.processorOf PageExamples.unmarkedPage).
Proof.
  apply (resolved_tree_assembles Examples.idHash PageExamples.pageTree
           (PageExamples.processorOf PageExamples.unmarkedPage)).
  - repeat constructor; intros name values H;
      cbn [blueprint.NodeBlock blueprint.Vars TreeExamples.rootBlock] in H.
    + by rewrite lookup_empty in H.
    + apply lookup_singleton_Some in H as [_ <-]. done.
  - repeat constructor; intros [Hid Hget]; by vm_compute in Hid, Hget.
  - reflexivity.
Defined.

(** A range that is never closed drops the rest of the template: what
    comes after [{{range .name}}] is not written, whatever the variables
    are; only the style and script markers in it are still recorded. *)
Theorem unclosed_range_drops_rest tmpl vars children p pre name rest v q :
  Tokenize tmpl = pre ++ mkToken RangeStartToken name :: rest ->
  Forall notRangeEnd rest ->
  processTokens (Tokenize tmpl) vars children 0 pre (loopInit, p) = Ok (v, q) ->
  inRange v = false ->
  processTemplate tmpl vars children p = Ok (buf v, skipRange rest q).
Proof.
  intros Htok Hrest Hpre Hv.
  rewrite TemplateFacts.processTemplate_unfold. rewrite Htok at 2.
  rewrite TemplateFacts.processTokens_app, Hpre.
  cbn [mbind Res_bind bindRes processTokens].
  unfold processToken at 1. cbn [Type_ Content]. rewrite Hv.
  cbn [mbind Res_bind bindRes].
  rewrite TemplateFacts.run_in_range by done. reflexivity.
Qed.

Lemma unclosed_range_drops_rest_witness :
  processTemplate "a{{range .x}}b{{.y}}c" {[ "x" := ["1"; "2"]; "y" := ["Y"] ]}
    Examples.noChildren Examples.freshProcessor
  = Ok ("a", Examples.freshProcessor).
Proof.
  apply (unclosed_range_drops_rest "a{{range .x}}b{{.y}}c"
           {[ "x" := ["1"; "2"]; "y" := ["Y"] ]}
           Examples.noChildren Examples.freshProcessor
           [mkToken TextToken "a"] "x"
           [mkToken TextToken "b"; mkToken VarToken "y"; mkToken TextToken "c"]
           (write "a" loopInit) Examples.freshProcessor).
  - vm_compute. reflexivity.
  - repeat constructor; done.
  - reflexivity.
  - reflexivity.
Defined.

Lemma processTokens_children tokens vars children children' i rest st :
  noComponentToken rest ->
  processTokens tokens vars children i rest st
  = processTokens tokens vars children' i rest st.
Proof.
  intros Hno. revert i st.
  induction Hno as [|t rest Ht _ IH]; intros i [v p]; [done|].
  cbn [processTokens].
  assert (processToken tokens vars children i t (v, p)
          = processToken tokens vars children' i t (v, p)) as ->.
  { unfold processToken. by destruct (Type_ t). }
  destruct (processToken tokens vars children' i t (v, p)) as [st'|]; [|done].
  apply IH.
Qed.

(** The children of a node whose template has no [{{component}}]
    directive are not processed: the node gives the same output, error and
    processor as it gives without children. *)
Theorem children_need_component_directive generateHash block children comp p :
  blueprint.ID block <> -1 ->
  component.Get (blueprint.Path block) (registry p) = Some comp ->
  noComponentToken (Tokenize (component.Template comp)) ->
  ProcessNode generateHash (blueprint.mkNode block children) p
  = ProcessNode generateHash (blueprint.mkNode block []) p.
Proof.
  intros Hid Hget Hno. cbn [ProcessNode].
  apply Z.eqb_neq in Hid. rewrite Hid, Hget.
  unfold processTemplate.
  by rewrite (processTokens_children _ _ _
                (eachChild (ProcessNode generateHash) [])).
Qed.

Lemma children_need_component_directive_witness :
  ProcessNode Examples.idHash
    (TreeExamples.plainNode 0 "1" [TreeExamples.missingNode 1 [1; 1]])
    TreeExamples.smallProcessor
  = ProcessNode Examples.idHash (TreeExamples.plainNode 0 "1" [])
      TreeExamples.smallProcessor.
Proof.
  apply (children_need_component_directive Examples.idHash _ _
           TreeExamples.plain).
  - done.
  - reflexivity.
  - repeat constructor; done.
Defined.

End WalkFacts.

(** ** The registry and the pre-pass that loads the components *)

Module RegistryFacts.
Import storage component registrySpec treeSpec walkSpec.

Lemma readOnly_refl s : readOnly s s.
Proof.
  split; [done|]. split; [done|]. split; [done|].
  exists []. by rewrite app_nil_r.
Qed.

Lemma readOnly_trans s1 s2 s3 :
  readOnly s1 s2 -> readOnly s2 s3 -> readOnly s1 s3.
Proof.
  intros (H1 & H2 & H3 & new1 & H4 & H5) (H6 & H7 & H8 & new2 & H9 & H10).
  split; [congruence|]. split; [congruence|]. split; [congruence|].
  exists (new1 ++ new2). split; [by rewrite H9, H4, app_assoc|].
  by apply Forall_app.
Qed.

Lemma readOnly_record c s : isWrite c = false -> readOnly s (record c s).
Proof.
  intros H. split; [done|]. split; [done|]. split; [done|].
  exists [c]. split; [done|]. by constructor.
Qed.

Lemma reads_ret {A} (a : A) : reads (mret a).
Proof. intros s. apply readOnly_refl. Qed.

Lemma reads_bind {A B} (m : IO A) (k : A -> IO B) :
  reads m -> (forall a, reads (k a)) -> reads (m ≫= k).
Proof.
  intros Hm Hk s. unfold mbind, IO_bind, bindIO.
  specialize (Hm s). destruct (m s) as [[a|msg] s1]; [|done].
  eapply readOnly_trans; [exact Hm|apply Hk].
Qed.

Lemma reads_wrapIO {A} prefix (m : IO A) : reads m -> reads (wrapIO prefix m).
Proof.
  intros Hm s. unfold wrapIO. specialize (Hm s). by destruct (m s).
Qed.

Lemma reads_ReadComponent fsPath file : reads (ReadComponent fsPath file).
Proof. intros s. by apply readOnly_record. Qed.

Lemma reads_ListComponentFiles fsPath ext : reads (ListComponentFiles fsPath ext).
Proof. intros s. by apply readOnly_record. Qed.

Lemma reads_FindTemplateFile fsPath : reads (FindTemplateFile fsPath).
Proof.
  intros s. unfold FindTemplateFile.
  pose proof (reads_ListComponentFiles fsPath ".html" s) as H.
  destruct (ListComponentFiles fsPath ".html" s) as [[[|f [|f' l]]|msg] s1];
    exact H.
Qed.

Lemma reads_readCSS fsPath cssFiles cssContent :
  reads (readCSS fsPath cssFiles cssContent).
Proof.
  revert cssContent. induction cssFiles as [|file rest IH]; intros cssContent.
  - apply reads_ret.
  - cbn [readCSS]. apply reads_bind; [|intros content; apply IH].
    apply reads_wrapIO, reads_ReadComponent.
Qed.

Lemma reads_readJS fsPath jsFiles scripts : reads (readJS fsPath jsFiles scripts).
Proof.
  revert scripts. induction jsFiles as [|file rest IH]; intros scripts.
  - apply reads_ret.
  - cbn [readJS]. apply reads_bind; [|intros content; apply IH].
    apply reads_wrapIO, reads_ReadComponent.
Qed.

Lemma reads_readComponent path : reads (readComponent path).
Proof.
  unfold readComponent.
  apply reads_bind; [apply reads_wrapIO, reads_FindTemplateFile|]. intros ?.
  apply reads_bind; [apply reads_ReadComponent|]. intros ?.
  apply reads_bind; [apply reads_wrapIO, reads_ListComponentFiles|]. intros ?.
  apply reads_bind; [apply reads_readCSS|]. intros ?.
  apply reads_bind; [apply reads_wrapIO, reads_ListComponentFiles|]. intros ?.
  apply reads_bind; [apply reads_readJS|]. intros ?.
  apply reads_ret.
Qed.

(** The component that [readComponent] returns has the path asked for. *)
Lemma readComponent_Path path s comp s' :
  readComponent path s = (ok comp, s') -> Path comp = path.
Proof.
  unfold readComponent. intros H.
  repeat (apply ComponentFacts.bindIO_ok in H as (? & ? & _ & H)).
  by injection H as <- _.
Qed.

(** [Load] on the registry: a failed load caches nothing, a load that
    succeeds caches the component it returns under the path asked for,
    and no other path of the cache is touched either way. *)
Theorem load_touches_one_path path r s :
  let '(res, r', s') := Load path r s in
  (forall other, other <> path -> Get other r' = Get other r)
  /\ match res with
     | ok comp => Get path r' = Some comp
                  /\ (Get path r = None -> Path comp = path)
     | err _ => r' = r
     end.
Proof.
  unfold Load, Get.
  destruct (loaded r !! path) as [c|] eqn:Hc; [done|].
  destruct (readComponent path s) as [[c|msg] s'] eqn:Hread; [|done].
  cbn [loaded]. split.
  - intros other Hother. by rewrite lookup_insert_ne.
  - rewrite lookup_insert_eq. split; [done|].
    intros _. by eapply readComponent_Path.
Qed.

Lemma load_only_reads_store path r s :
  readOnly s (snd (Load path r s)).
Proof.
  unfold Load. destruct (loaded r !! path); [apply readOnly_refl|].
  pose proof (reads_readComponent path s) as H.
  by destruct (readComponent path s) as [[c|msg] s'].
Qed.

(** [Load] on the store: it only reads.  The disk and the source and
    target paths are the same after it, and none of the calls it makes is
    a write, whether it succeeds or fails. *)
Theorem load_only_reads path r s :
  readOnly s (snd (Load path r s)).
Proof.
  apply load_only_reads_store.
Qed.

Lemma Load_keyed path r s :
  keyed r -> keyed (snd (fst (Load path r s))).
Proof.
  intros Hr. unfold Load.
  destruct (loaded r !! path) as [c|] eqn:Hc; [done|].
  destruct (readComponent path s) as [[c|msg] s'] eqn:Hread; [|done].
  cbn [fst snd]. intros k c'. cbn [loaded].
  destruct (decide (k = path)) as [->|Hne].
  - rewrite lookup_insert_eq. intros [= <-]. by eapply readComponent_Path.
  - rewrite lookup_insert_ne by done. apply Hr.
Qed.

Lemma Load_grows path r s :
  loaded r ⊆ loaded (snd (fst (Load path r s))).
Proof.
  unfold Load. destruct (loaded r !! path) as [c|] eqn:Hc; [done|].
  destruct (readComponent path s) as [[c|msg] s'] eqn:Hread; [|done].
  cbn [fst snd loaded]. by apply insert_subseteq.
Qed.

Lemma Load_ok_loaded path r s comp r' s' :
  Load path r s = (ok comp, r', s') -> is_Some (loaded r' !! path).
Proof.
  intros H. unfold Load in H. destruct (loaded r !! path) as [c|] eqn:Hc.
  - injection H as _ <- _. by rewrite Hc.
  - destruct (readComponent path s) as [[c|msg] s1]; [|done].
    injection H as _ <- _. cbn [loaded]. by rewrite lookup_insert_eq.
Qed.

Lemma unresolved_weaken r r' m :
  loaded r ⊆ loaded r' -> ~ unresolved r m -> ~ unresolved r' m.
Proof.
  intros Hsub Hm [Hid Hget]. apply Hm. split; [done|].
  unfold Get in *. by eapply lookup_weaken_None.
Qed.

Lemma eachLoad_spec children :
  Forall (fun c => forall r s, loadSpec (nodes c) r s (builder.loadNode c r s))
    children ->
  forall r s,
    loadSpec (concat (nodes <$> children)) r s
      (builder.eachLoad builder.loadNode children r s).
Proof.
  intros Hl. induction Hl as [|c l Hc _ IH]; intros r s.
  - cbn [builder.eachLoad]. split; [apply readOnly_refl|]. split; [done|].
    split; [done|]. intros _. constructor.
  - cbn [builder.eachLoad fmap list_fmap concat]. specialize (Hc r s).
    destruct (builder.loadNode c r s) as [[[e|] r1] s1].
    + destruct Hc as (H1 & H2 & H3 & _). by split; [|split; [|split]].
    + destruct Hc as (H1 & H2 & H3 & H4). specialize (IH r1 s1).
      destruct (builder.eachLoad builder.loadNode l r1 s1) as [[e r2] s2].
      destruct IH as (H5 & H6 & H7 & H8).
      split; [by eapply readOnly_trans|]. split; [by etrans|].
      split; [tauto|]. intros He. apply Forall_app. split; [|by apply H8].
      eapply Forall_impl; [by apply H4|]. intros m. by apply unresolved_weaken.
Qed.

Lemma loadNode_spec n r s : loadSpec (nodes n) r s (builder.loadNode n r s).
Proof.
  revert r s. induction n as [block children IH] using ProcessFacts.Node_induction.
  intros r s. cbn [builder.loadNode nodes blueprint.Children].
  pose proof (eachLoad_spec children IH) as Hch.
  destruct (blueprint.ID block =? -1) eqn:Eid.
  - specialize (Hch r s).
    destruct (builder.eachLoad builder.loadNode children r s) as [[e r2] s2].
    destruct Hch as (H5 & H6 & H7 & H8).
    split; [done|]. split; [done|]. split; [done|]. intros He.
    constructor; [|by apply H8].
    intros [Hid _]. simpl in Hid. by apply Z.eqb_eq in Eid.
  - pose proof (load_only_reads_store (blueprint.Path block) r s) as Hread.
    pose proof (Load_keyed (blueprint.Path block) r s) as Hkey.
    pose proof (Load_grows (blueprint.Path block) r s) as Hgrow.
    destruct (Load (blueprint.Path block) r s) as [[[comp|msg] r1] s1] eqn:El;
      cbn [fst snd] in *; [|by split; [|split; [|split]]].
    apply Load_ok_loaded in El as [c Hc]. specialize (Hch r1 s1).
    destruct (builder.eachLoad builder.loadNode children r1 s1) as [[e r2] s2].
    destruct Hch as (H5 & H6 & H7 & H8).
    split; [by eapply readOnly_trans|]. split; [by etrans|].
    split; [tauto|]. intros He. constructor; [|by apply H8].
    intros [_ Hget]. unfold Get in Hget. cbn [blueprint.NodeBlock] in Hget.
    eapply lookup_weaken in Hc; [|exact H6]. congruence.
Qed.

(** The pre-pass of [processBlueprint] that returns no error has put the
    component of every node of the tree in the registry: no node of the tree
    is unresolved when the processor starts. *)
Theorem pre_pass_resolves_tree n r s r' s' :
  builder.loadComponents (Some n) r s = (None, r', s') ->
  Forall (fun m => ~ unresolved r' m) (nodes n)
  /\ loaded r ⊆ loaded r'.
Proof.
  intros H. pose proof (loadNode_spec n r s) as Hspec.
  cbn [builder.loadComponents] in H. rewrite H in Hspec.
  destruct Hspec as (_ & Hsub & _ & Hres). split; [by apply Hres|done].
Qed.

Lemma pre_pass_resolves_tree_witness :
  let out :=
    builder.loadComponents (Some PageExamples.pageTree) component.New
      componentSpec.cardStore in
  Forall (fun m => ~ unresolved (snd (fst out)) m) (nodes PageExamples.pageTree)
  /\ loaded component.New ⊆ loaded (snd (fst out)).
Proof.
  intros out.
  apply (pre_pass_resolves_tree PageExamples.pageTree component.New
           componentSpec.cardStore (snd (fst out)) (snd out)).
  vm_compute. reflexivity.
Defined.

(** The pre-pass keeps the cache keyed by path: every component that it
    has loaded is cached under its own [Path], so [GetUsedComponents] sends
    each loaded path, and nothing else, to the path with dots as slashes. *)
Theorem used_components_are_loaded_paths n s path :
  let '(_, r, _) := builder.loadComponents n component.New s in
  template.GetUsedComponents (template.New r) !! path
  = (fun _ => strings.ReplaceAll path "." "/") <$> Get path r.
Proof.
  assert (keyed (snd (fst (builder.loadComponents n component.New s)))) as Hkey.
  { destruct n as [n|]; [|by intros k c H].
    pose proof (loadNode_spec n component.New s) as Hspec.
    cbn [builder.loadComponents].
    destruct (builder.loadNode n component.New s) as [[e r] s'].
    destruct Hspec as (_ & _ & Hkey & _). apply Hkey. by intros k c H. }
  destruct (builder.loadComponents n component.New s) as [[e r] s'].
  cbn [fst snd] in Hkey. unfold template.GetUsedComponents, Get.
  cbn [template.registry template.New].
  rewrite (list_fmap_ext _
             (fun kc : string * Component =>
                (fst kc, strings.ReplaceAll (fst kc) "." "/"))
             (map_to_list (loaded r))).
  2:{ intros i [k c] Hi. cbn [fst snd].
      apply list_elem_of_lookup_2, elem_of_map_to_list in Hi.
      by rewrite (Hkey k c Hi). }
  assert (NoDup (((fun kc : string * Component =>
                     (fst kc, strings.ReplaceAll (fst kc) "." "/"))
                    <$> map_to_list (loaded r)).*1)) as Hnd.
  { rewrite <- list_fmap_compose.
    rewrite (list_fmap_ext _ fst (map_to_list (loaded r))) by done.
    apply NoDup_fst_map_to_list. }
  destruct (loaded r !! path) as [c|] eqn:Hc; cbn [fmap option_fmap option_map].
  - apply elem_of_list_to_map_1; [done|].
    apply list_elem_of_fmap. exists (path, c). split; [done|].
    by apply elem_of_map_to_list.
  - apply not_elem_of_list_to_map_1. rewrite <- list_fmap_compose.
    intros Hin. apply list_elem_of_fmap in Hin as ([k c] & Hk & Hin).
    cbn in Hk. subst k. apply elem_of_map_to_list in Hin. congruence.
Qed.

End RegistryFacts.

(** ** One blueprint, from source text to written files *)

Module PipelineFacts.
Import storage component registrySpec treeSpec walkSpec templateSpec.

(** With no error from [Process], [Assembler] returns a page. *)
Lemma Assembler_ok generateHash node p html p' :
  template.Process generateHash node p = Ok (html, None, p') ->
  exists res, template.Assembler generateHash node p = Ok (ok res, p').
Proof.
  intros H. unfold template.Assembler. rewrite H.
  cbn [mbind Res_bind bindRes].
  destruct (assets.GetAssetTags "" (template.assets p'))
    as [stylesTag scriptTags].
  destruct (template.hasStyles p'), (negb (String.eqb stylesTag ""));
    by eexists.
Qed.

(** Every variable bound in a node of a parsed tree has a value. *)
Lemma parsed_tree_goodVars content root :
  fst (blueprint.New content) = Some root ->
  Forall (fun m => goodVars (blueprint.Vars (blueprint.NodeBlock m)))
    (nodes root).
Proof.
  intros Hroot. unfold blueprint.New in Hroot. cbn [fst] in Hroot.
  apply TreeFacts.buildTree_Some in Hroot
    as (heap & nodeMap & Hinv & Hblocks & Hsort).
  pose proof (TreeFacts.sortNodes_blocks heap _ _ _ Hsort) as Hin.
  eapply Forall_impl; [exact Hin|]. intros m Hm. simpl in Hm.
  rewrite Hblocks in Hm. apply elem_of_cons in Hm as [->|Hm].
  - intros name values H. cbn [blueprint.rootCell blueprint.cellBlock
      blueprint.Vars] in H. by rewrite lookup_empty in H.
  - pose proof (ParseFacts.parseBlocks_good content) as H.
    rewrite Forall_forall in H. by apply H.
Qed.

Lemma processBlueprint_outcomes generateHash path outputRel s :
  exists e s',
    builder.processBlueprint generateHash path outputRel s = Ok (e, s')
    /\ (e = None
        \/ (exists msg, e = Some ("writing output: " +:+ msg))
        \/ ((exists msg, e = Some ("reading blueprint: " +:+ msg)
                         \/ e = Some ("loading components: " +:+ msg))
            /\ readOnly s s')).
Proof.
  unfold builder.processBlueprint. cbn [ReadBlueprint].
  assert (readOnly s (record (CallReadBlueprint path) s)) as Hread
    by by apply RegistryFacts.readOnly_record.
  destruct (blueprintFile (fs s) path) as [content|msg].
  2:{ eexists _, _. split; [done|]. right. right. split; [|done].
      exists msg. by left. }
  pose proof (BuilderFacts.New_error_nil content) as Hnil.
  destruct (blueprint.New content) as [tree e0] eqn:Hnew.
  cbn [snd] in Hnil. subst e0.
  assert (exists e r s1,
    builder.loadComponents tree component.New
      (record (CallReadBlueprint path) s) = (e, r, s1)
    /\ readOnly (record (CallReadBlueprint path) s) s1
    /\ (e = None ->
        exists html p',
          template.Process generateHash tree (template.New r)
          = Ok (html, None, p'))) as (e & r & s1 & -> & Hs1 & Hproc).
  { destruct tree as [root|].
    - cbn [builder.loadComponents].
      pose proof (RegistryFacts.loadNode_spec root component.New
                    (record (CallReadBlueprint path) s)) as Hspec.
      destruct (builder.loadNode root component.New _) as [[e r] s1].
      destruct Hspec as (Hro & _ & _ & Hres).
      exists e, r, s1. split; [done|]. split; [done|].
      intros He. specialize (Hres He). cbn [template.Process].
      assert (fst (blueprint.New content) = Some root) as Hroot
        by by rewrite Hnew.
      apply parsed_tree_goodVars in Hroot.
      pose proof (TotalityFacts.ProcessNode_total generateHash root Hroot
                    (template.New r)) as Htotal.
      destruct (template.ProcessNode generateHash root (template.New r))
        as [[[html e1] p']|] eqn:Hrun; [|done].
      apply WalkFacts.resolved_no_error in Hrun as [-> _]; [|done|done].
      by exists html, p'.
    - exists None, component.New, (record (CallReadBlueprint path) s).
      split; [done|]. split; [apply RegistryFacts.readOnly_refl|].
      intros _. by eexists _, _. }
  destruct e as [e|].
  { eexists _, _. split; [done|]. right. right.
    split; [exists e; by right|]. by eapply RegistryFacts.readOnly_trans. }
  destruct (Hproc eq_refl) as (html & p' & Hrun).
  apply Assembler_ok in Hrun as [res ->]. cbn [mbind Res_bind bindRes].
  destruct (builder.writeOutput outputRel res s1) as [[msg|] s2].
  - eexists _, _. split; [done|]. right. left. by exists msg.
  - eexists _, _. split; [done|]. by left.
Qed.

(** [processBlueprint] never panics, and of the five errors it can wrap it
    returns only three: the blueprint could not be read, a component could
    not be loaded, or a file could not be written.  The parser returns no
    error, and once every component is loaded the processor collects none.
    When the blueprint cannot be read or a component cannot be loaded,
    nothing has been written. *)
Theorem build_fails_only_on_disk generateHash path outputRel s :
  exists e s',
    builder.processBlueprint generateHash path outputRel s = Ok (e, s')
    /\ (e = None
        \/ (exists msg, e = Some ("writing output: " +:+ msg))
        \/ ((exists msg, e = Some ("reading blueprint: " +:+ msg)
                         \/ e = Some ("loading components: " +:+ msg))
            /\ readOnly s s')).
Proof. apply processBlueprint_outcomes. Qed.

Lemma writeAll_spec outputPath files s :
  match writeAll outputPath files s with
  | (None, s') =>
      calls s' = calls s ++ (storeSpec.writeCall outputPath <$> files)
      /\ Forall (fun f => storeSpec.writeResult s outputPath f = None) files
  | (Some msg, s') =>
      exists before f after,
        files = before ++ f :: after
        /\ Forall (fun f => storeSpec.writeResult s outputPath f = None) before
        /\ storeSpec.writeResult s outputPath f = Some msg
        /\ calls s'
           = calls s ++ (storeSpec.writeCall outputPath <$> before)
                     ++ [storeSpec.writeCall outputPath f]
  end.
Proof.
  revert s. induction files as [|[path content] files IH]; intros s.
  - cbn [writeAll]. by rewrite app_nil_r.
  - cbn [writeAll].
    destruct (writeFile (fs (record _ s)) _ content) as [msg|] eqn:Hw.
    + exists [], (path, content), files. split; [done|]. split; [done|].
      split; [exact Hw|done].
    + specialize (IH (record
        (CallWrite (filepath.Join [outputPath; path]) content) s)).
      destruct (writeAll outputPath files _) as [[msg|] s'].
      * destruct IH as (before & f & after & -> & Hb & Hf & Hcalls).
        exists ((path, content) :: before), f, after.
        split; [done|]. split; [by constructor|]. split; [exact Hf|].
        rewrite Hcalls. cbn [record calls fmap list_fmap].
        by rewrite <- !app_assoc.
      * destruct IH as [Hcalls Hall]. split; [|by constructor].
        rewrite Hcalls. cbn [record calls fmap list_fmap].
        by rewrite <- !app_assoc.
Qed.


End PipelineFacts.

(** ** The asset manager: key lists and maps *)

Module ManagerFacts.
Import assets managerSpec.

Section Manager.
Variable generateHash : string -> string.

Abbreviation addStyles := (assets.addStyles generateHash).
Abbreviation addScript := (assets.addScript generateHash).
Abbreviation ProcessComponent := (assets.ProcessComponent generateHash).
Abbreviation inSync := (managerSpec.inSync generateHash).

Lemma inSync_New : inSync New.
Proof.
  split; cbn [New cssKeys css jsKeys js].
  - constructor.
  - intros h. rewrite lookup_empty. split; [by intros ?%elem_of_nil|by intros [? ?]].
  - intros h c. by rewrite lookup_empty.
  - constructor.
  - intros h. rewrite lookup_empty. split; [by intros ?%elem_of_nil|by intros [? ?]].
  - intros h a. by rewrite lookup_empty.
Qed.

Lemma keys_snoc {A} (keys : list string) (m : gmap string A) h x :
  NoDup keys -> (forall k, k ∈ keys <-> is_Some (m !! k)) -> m !! h = None ->
  NoDup (keys ++ [h])
  /\ forall k, k ∈ keys ++ [h] <-> is_Some (<[h := x]> m !! k).
Proof.
  intros Hnd Hkeys Hnone. split.
  - apply NoDup_app. split; [done|]. split; [|apply NoDup_singleton].
    intros k Hk ->%list_elem_of_singleton.
    apply Hkeys in Hk as [? ?]. congruence.
  - intros k. rewrite elem_of_app, list_elem_of_singleton, Hkeys.
    destruct (decide (k = h)) as [->|Hne].
    + rewrite lookup_insert_eq. split; [by eexists|by right].
    + rewrite lookup_insert_ne by done. split; [by intros [?|?]|by left].
Qed.

Lemma keys_update {A} (keys : list string) (m : gmap string A) h x :
  (forall k, k ∈ keys <-> is_Some (m !! k)) -> is_Some (m !! h) ->
  forall k, k ∈ keys <-> is_Some (<[h := x]> m !! k).
Proof.
  intros Hkeys Hsome k. rewrite Hkeys.
  destruct (decide (k = h)) as [->|Hne].
  - rewrite lookup_insert_eq. split; [by eexists|done].
  - by rewrite lookup_insert_ne.
Qed.

Lemma addStyles_inSync styles m : inSync m -> inSync (addStyles styles m).
Proof.
  intros Hm. unfold assets.addStyles.
  destruct (Nat.ltb O (String.length styles)); [|done].
  destruct (css m !! generateHash styles) eqn:E; [done|].
  destruct Hm as [H1 H2 H3 H4 H5 H6].
  destruct (keys_snoc _ _ _ styles H1 H2 E) as [Hnd Hkeys].
  split; cbn [cssKeys css jsKeys js]; try done.
  intros h c. destruct (decide (h = generateHash styles)) as [->|Hne].
  - rewrite lookup_insert_eq. by intros [= <-].
  - rewrite lookup_insert_ne by done. apply H3.
Qed.

Lemma addScript_inSync path m script : inSync m -> inSync (addScript path m script).
Proof.
  intros [H1 H2 H3 H4 H5 H6]. destruct script as [origName content].
  unfold assets.addScript.
  destruct (js m !! generateHash content) as [asset|] eqn:E.
  - split; cbn [cssKeys css jsKeys js]; try done.
    + apply keys_update; [done|by eexists].
    + intros h a. destruct (decide (h = generateHash content)) as [->|Hne].
      * rewrite lookup_insert_eq. intros [= <-]. cbn [assets.content files].
        split; [by apply (H6 _ _ E)|]. by destruct (files asset).
      * rewrite lookup_insert_ne by done. apply H6.
  - destruct (keys_snoc _ _ _
      {| assets.content := content;
         files := [sanitizeFileName path +:+ "-"
                   +:+ strings.TrimSuffix origName ".js"] |} H4 H5 E)
      as [Hnd Hkeys].
    split; cbn [cssKeys css jsKeys js]; try done.
    intros h a. destruct (decide (h = generateHash content)) as [->|Hne].
    + rewrite lookup_insert_eq. by intros [= <-].
    + rewrite lookup_insert_ne by done. apply H6.
Qed.

Lemma ProcessComponent_inSync comp m : inSync m -> inSync (ProcessComponent comp m).
Proof.
  intros Hm. unfold assets.ProcessComponent.
  apply addStyles_inSync with (styles := component.Styles comp) in Hm.
  revert Hm. generalize (addStyles (component.Styles comp) m).
  induction (map_to_list (component.Scripts comp)) as [|script l IH];
    intros m' Hm'; [done|].
  cbn [fold_left]. by apply IH, addScript_inSync.
Qed.

(** Looking up the keys of a map, in any order in which each is taken
    once, gives the values of the map. *)
Lemma lookup_keys_values {A} (m : gmap string A) (keys : list string) :
  NoDup keys -> (forall k, k ∈ keys <-> is_Some (m !! k)) ->
  omap (fun k => m !! k) keys ≡ₚ (map_to_list m).*2.
Proof.
  intros Hnd Hkeys.
  assert (keys ≡ₚ (map_to_list m).*1) as ->.
  { apply NoDup_Permutation; [done|apply NoDup_fst_map_to_list|].
    intros k. rewrite Hkeys. rewrite list_elem_of_fmap. split.
    - intros [x Hx]. exists (k, x). split; [done|].
      by apply elem_of_map_to_list.
    - intros ([k' x] & -> & Hin). apply elem_of_map_to_list in Hin.
      by eexists. }
  assert (forall l : list (string * A),
    Forall (fun kv => m !! fst kv = Some (snd kv)) l ->
    omap (fun k => m !! k) l.*1 = l.*2) as Hl.
  { intros l Hall. induction Hall as [|[k x] l Hk _ IH]; [done|].
    cbn [fmap list_fmap omap list_omap fst snd] in *.
    rewrite Hk. by f_equal. }
  rewrite Hl; [done|]. apply Forall_forall. intros [k x] Hin.
  by apply elem_of_map_to_list.
Qed.

(** The assets that [GetFiles] reaches through the key slices are the
    assets of the maps, each once: no hash of [cssKeys] or [jsKeys] is
    missing from its map, so the [exists] tests of [GetFiles] never fail,
    and [GetAssetTags], which ranges over the map [js], writes its tags for
    the very assets whose files [GetFiles] puts out. *)
Theorem key_slices_list_the_maps comps :
  let m := fold_left (fun m comp => ProcessComponent comp m) comps New in
  jsAssets m ≡ₚ (map_to_list (js m)).*2
  /\ omap (fun hash => css m !! hash) (cssKeys m) ≡ₚ (map_to_list (css m)).*2
  /\ length (jsKeys m) = size (js m)
  /\ length (cssKeys m) = size (css m).
Proof.
  intros m.
  assert (inSync m) as [H1 H2 H3 H4 H5 H6].
  { subst m. generalize inSync_New. generalize New.
    induction comps as [|comp comps IH]; intros m Hm; [done|].
    cbn [fold_left]. by apply IH, ProcessComponent_inSync. }
  pose proof (lookup_keys_values (js m) (jsKeys m) H4 H5) as Hjs.
  pose proof (lookup_keys_values (css m) (cssKeys m) H1 H2) as Hcss.
  split; [exact Hjs|]. split; [exact Hcss|].
  assert (forall {A} (mp : gmap string A) keys,
    NoDup keys -> (forall k, k ∈ keys <-> is_Some (mp !! k)) ->
    length keys = size mp) as Hsize.
  { intros A mp keys Hnd Hkeys.
    rewrite <- length_map_to_list, <- (length_fmap fst (map_to_list mp)).
    apply Permutation_length, NoDup_Permutation;
      [done|apply NoDup_fst_map_to_list|].
    intros k. rewrite Hkeys, list_elem_of_fmap. split.
    - intros [x Hx]. exists (k, x). split; [done|].
      by apply elem_of_map_to_list.
    - intros ([k' x] & -> & Hin). apply elem_of_map_to_list in Hin.
      by eexists. }
  split; by apply Hsize.
Qed.

(** A component that two nodes use is processed twice.  Its style sheet
    is kept once, but the name of its script is added to the files of the
    script again, so the page has the script tag of the component twice. *)
Theorem reused_component_repeats_script_tag prefix comp name content :
  component.Scripts comp = {[ name := content ]} ->
  let m := ProcessComponent comp (ProcessComponent comp New) in
  let out := assetsSpec.outName comp name in
  js m = {[ generateHash content :=
              {| assets.content := content; files := [out; out] |} ]}
  /\ css m = css (ProcessComponent comp New)
  /\ cssKeys m = cssKeys (ProcessComponent comp New)
  /\ snd (GetAssetTags prefix m)
     = strings.TrimSpace (scriptTag prefix out +:+ scriptTag prefix out).
Proof.
  intros Hscripts m out.
  assert (ProcessComponent comp New
          = {| css := css (addStyles (component.Styles comp) New);
               cssKeys := cssKeys (addStyles (component.Styles comp) New);
               js := {[ generateHash content :=
                          {| assets.content := content; files := [out] |} ]};
               jsKeys := [generateHash content] |}) as Hone.
  { rewrite (AssetsFacts.ProcessComponent_single _ _ _ _ _ Hscripts).
    unfold assets.addScript.
    destruct (AssetsFacts.addStyles_js generateHash (component.Styles comp) New)
      as [-> ->].
    cbn [New js jsKeys]. rewrite lookup_empty. reflexivity. }
  assert (m = {| css := css (addStyles (component.Styles comp) New);
                 cssKeys := cssKeys (addStyles (component.Styles comp) New);
                 js := {[ generateHash content :=
                            {| assets.content := content;
                               files := [out; out] |} ]};
                 jsKeys := [generateHash content] |}) as Htwo.
  { subst m. rewrite (AssetsFacts.ProcessComponent_single _ _ _ _ _ Hscripts).
    rewrite Hone.
    set (m1 := {| css := _; cssKeys := _; js := _; jsKeys := _ |}).
    assert (addStyles (component.Styles comp) m1 = m1) as ->.
    { unfold assets.addStyles at 1.
      destruct (Nat.ltb O (String.length (component.Styles comp))) eqn:El;
        [|done].
      assert (css m1 !! generateHash (component.Styles comp)
              = Some (component.Styles comp)) as ->; [|done].
      unfold m1. cbn [css]. unfold assets.addStyles. rewrite El.
      cbn [New css]. rewrite lookup_empty. cbn [css].
      apply lookup_insert_eq. }
    unfold assets.addScript, m1. cbn [js css cssKeys jsKeys].
    rewrite lookup_singleton_eq. cbn [assets.content files app].
    by rewrite insert_singleton_eq. }
  rewrite Htwo, Hone. cbn [js css cssKeys]. split; [done|].
  split; [done|]. split; [done|].
  unfold GetAssetTags, jsAssets. cbn [js jsKeys snd omap list_omap].
  rewrite lookup_singleton_eq. reflexivity.
Qed.

End Manager.

Lemma reused_component_repeats_script_tag_witness :
  let tag := "<script src=" +:+ dq +:+ "js/ui-widget-main.js" +:+ dq
             +:+ "></script>" in
  js widgetTwice
  = {[ "go()" := {| assets.content := "go()";
                    files := ["ui-widget-main"; "ui-widget-main"] |} ]}
  /\ snd (GetAssetTags "" widgetTwice) = tag +:+ Examples.nl +:+ tag
  /\ GetFiles widgetTwice
     = {[ "styles.css" := "b{}"; "ui-widget-main.js" := "go()" ]}.
Proof.
  intros tag.
  pose proof (reused_component_repeats_script_tag Examples.idHash "" widget
                "main.js" "go()" eq_refl) as (Hjs & _ & _ & Htags).
  split; [exact Hjs|].
  split; [unfold widgetTwice; rewrite Htags|]; vm_compute; reflexivity.
Defined.

End ManagerFacts.

(** ** The names that [sanitizeFileName] makes *)

Module NameFacts.
Import assets nameSpec.

Lemma allBytes_append test s t :
  allBytes test (s +:+ t) = allBytes test s && allBytes test t.
Proof.
  induction s as [|c s IH]; [done|].
  rewrite StringFacts.append_cons. cbn [allBytes]. by rewrite IH, andb_assoc.
Qed.

Lemma allBytes_drop test n s :
  allBytes test s = true -> allBytes test (strings.drop n s) = true.
Proof.
  revert s. induction n as [|n IH]; intros [|c s]; try done.
  cbn [allBytes strings.drop]. intros [_ H]%andb_true_iff. by apply IH.
Qed.

Lemma allBytes_take test n s :
  allBytes test s = true -> allBytes test (strings.take n s) = true.
Proof.
  revert s. induction n as [|n IH]; intros [|c s]; try done.
  cbn [allBytes strings.take]. intros [Hc H]%andb_true_iff.
  by rewrite Hc, IH.
Qed.

Lemma TrimLeftFunc_drop f s :
  exists n, strings.TrimLeftFunc f s = strings.drop n s.
Proof.
  induction s as [|c s [n IH]]; [by exists O|].
  cbn [strings.TrimLeftFunc]. destruct (f c); [by exists (S n)|by exists O].
Qed.

Lemma TrimRightFunc_take f s :
  exists n, strings.TrimRightFunc f s = strings.take n s.
Proof.
  induction s as [|c s [n IH]]; [by exists O|].
  cbn [strings.TrimRightFunc]. rewrite IH.
  destruct (strings.take n s) eqn:E.
  - destruct (f c); [by exists O|]. exists 1%nat. by destruct s.
  - exists (S n). cbn [strings.take]. by rewrite E.
Qed.

(** There is no occurrence exactly when there is none at any position. *)
Lemma Index_None_iff s sub :
  strings.Index s sub = None
  <-> forall q, String.prefix sub (strings.drop q s) = false.
Proof.
  split; [intros H q; by apply StringMore.Index_None_drop|].
  induction s as [|c s IH]; intros H.
  - specialize (H O). cbn [strings.drop strings.Index] in *. by rewrite H.
  - pose proof (H O) as H0. cbn [strings.drop] in H0.
    cbn [strings.Index]. rewrite H0.
    rewrite IH; [done|]. intros q. apply (H (S q)).
Qed.

Lemma prefix_take sub n s :
  String.prefix sub (strings.take n s) = true -> String.prefix sub s = true.
Proof.
  revert n s. induction sub as [|a sub IH]; intros n s; [by destruct s|].
  destruct n as [|n]; destruct s as [|c s]; try done.
  cbn [strings.take String.prefix].
  destruct (ascii_dec a c); [apply IH|done].
Qed.

Lemma drop_take q n s :
  strings.drop q (strings.take n s) = strings.take (n - q) (strings.drop q s).
Proof.
  revert n s. induction q as [|q IH]; intros n s.
  - by rewrite Nat.sub_0_r.
  - destruct n as [|n]; destruct s as [|c s];
      cbn [strings.drop strings.take Nat.sub]; try done;
      first [apply IH | by destruct (n - q)%nat].
Qed.

Lemma absent_drop sub n s :
  strings.Index s sub = None -> strings.Index (strings.drop n s) sub = None.
Proof.
  rewrite !Index_None_iff. intros H q.
  rewrite StringMore.drop_drop. apply H.
Qed.

Lemma absent_take sub n s :
  strings.Index s sub = None -> strings.Index (strings.take n s) sub = None.
Proof.
  rewrite !Index_None_iff. intros H q. rewrite drop_take.
  destruct (String.prefix sub (strings.take _ _)) eqn:E; [|done].
  apply prefix_take in E. by rewrite H in E.
Qed.

Lemma Contains_false s sub :
  strings.Contains s sub = false <-> strings.Index s sub = None.
Proof. unfold strings.Contains. by destruct (strings.Index s sub). Qed.

Lemma safeByte_dashOther c : safeByte (dashOther c) = true.
Proof.
  unfold safeByte, dashOther. destruct (isAlnum c) eqn:E; [by rewrite E|done].
Qed.

Lemma dashOther_safe c : safeByte c = true -> dashOther c = c.
Proof.
  unfold safeByte, dashOther. destruct (isAlnum c); [done|].
  cbn [orb]. by intros ->%Ascii.eqb_eq.
Qed.

Lemma Map_safe path : allBytes safeByte (strings.Map dashOther path) = true.
Proof.
  induction path as [|c path IH]; [done|].
  cbn [strings.Map allBytes]. by rewrite safeByte_dashOther, IH.
Qed.

Lemma Map_id s : allBytes safeByte s = true -> strings.Map dashOther s = s.
Proof.
  induction s as [|c s IH]; [done|]. cbn [allBytes strings.Map].
  intros [Hc Hs]%andb_true_iff. by rewrite dashOther_safe, IH.
Qed.

Lemma replaceFrom_safe skip s :
  allBytes safeByte s = true ->
  allBytes safeByte (strings.replaceFrom "--" "-" skip s) = true.
Proof.
  revert skip. induction s as [|c s IH]; intros skip; [done|].
  cbn [allBytes]. intros [Hc Hs]%andb_true_iff.
  cbn [strings.replaceFrom]. destruct skip as [|k]; [|by apply IH].
  destruct (String.prefix "--" (String c s)).
  - rewrite allBytes_append. by rewrite IH.
  - cbn [allBytes]. by rewrite Hc, IH.
Qed.

Lemma collapseDashes_safe fuel name :
  allBytes safeByte name = true ->
  allBytes safeByte (collapseDashes fuel name) = true.
Proof.
  revert name. induction fuel as [|fuel IH]; intros name H; [done|].
  cbn [collapseDashes]. destruct (strings.Contains name "--"); [|done].
  by apply IH, replaceFrom_safe.
Qed.

Lemma collapseDashes_id fuel name :
  strings.Contains name "--" = false -> collapseDashes fuel name = name.
Proof. intros H. destruct fuel; [done|]. cbn [collapseDashes]. by rewrite H. Qed.

Lemma HasPrefix_byte a r c :
  strings.HasPrefix (String a r) (String c "") = Ascii.eqb c a.
Proof.
  unfold strings.HasPrefix. cbn [String.prefix].
  destruct (ascii_dec c a) as [->|Hne].
  - rewrite Ascii.eqb_refl. by destruct r.
  - symmetry. by apply Ascii.eqb_neq.
Qed.

Lemma HasSuffix_cons a r c :
  r <> "" ->
  strings.HasSuffix (String a r) (String c "") = strings.HasSuffix r (String c "").
Proof.
  destruct r as [|b r]; [done|]. intros _. unfold strings.HasSuffix.
  cbn [String.length Nat.leb Nat.sub strings.drop andb].
  by rewrite !Nat.sub_0_r.
Qed.

Lemma HasSuffix_byte a c :
  strings.HasSuffix (String a "") (String c "") = Ascii.eqb c a.
Proof.
  unfold strings.HasSuffix.
  cbn [String.length Nat.leb Nat.sub strings.drop andb String.eqb].
  rewrite Ascii.eqb_sym. by destruct (Ascii.eqb c a).
Qed.

(** After [Trim] the byte trimmed is neither first nor last. *)
Lemma Trim_ends s c :
  strings.HasPrefix (strings.Trim s c) (String c "") = false
  /\ strings.HasSuffix (strings.Trim s c) (String c "") = false.
Proof.
  unfold strings.Trim. split.
  - assert (match strings.TrimLeftFunc (Ascii.eqb c) s with
            | String a _ => Ascii.eqb c a = false
            | EmptyString => True
            end) as Hhead.
    { induction s as [|a s IH]; [done|]. cbn [strings.TrimLeftFunc].
      by destruct (Ascii.eqb c a) eqn:E. }
    destruct (strings.TrimLeftFunc (Ascii.eqb c) s) as [|a r]; [done|].
    cbn [strings.TrimRightFunc].
    destruct (strings.TrimRightFunc (Ascii.eqb c) r).
    + by rewrite Hhead, HasPrefix_byte.
    + by rewrite HasPrefix_byte.
  - generalize (strings.TrimLeftFunc (Ascii.eqb c) s). intros t.
    induction t as [|a t IH]; [done|]. cbn [strings.TrimRightFunc].
    destruct (strings.TrimRightFunc (Ascii.eqb c) t) as [|b r] eqn:E.
    + destruct (Ascii.eqb c a) eqn:Ea; [done|]. by rewrite HasSuffix_byte.
    + by rewrite HasSuffix_cons.
Qed.

Lemma Trim_id s c :
  strings.HasPrefix s (String c "") = false ->
  strings.HasSuffix s (String c "") = false ->
  strings.Trim s c = s.
Proof.
  intros Hp Hs. unfold strings.Trim.
  assert (strings.TrimLeftFunc (Ascii.eqb c) s = s) as ->.
  { destruct s as [|a r]; [done|]. cbn [strings.TrimLeftFunc].
    rewrite HasPrefix_byte in Hp. by rewrite Hp. }
  clear Hp. induction s as [|a s IH]; [done|]. cbn [strings.TrimRightFunc].
  destruct s as [|b s].
  - cbn [strings.TrimRightFunc]. rewrite HasSuffix_byte in Hs. by rewrite Hs.
  - rewrite HasSuffix_cons in Hs by done. by rewrite IH.
Qed.

Lemma Trim_safe s c :
  allBytes safeByte s = true -> allBytes safeByte (strings.Trim s c) = true.
Proof.
  intros H. unfold strings.Trim.
  destruct (TrimLeftFunc_drop (Ascii.eqb c) s) as [n ->].
  destruct (TrimRightFunc_take (Ascii.eqb c) (strings.drop n s)) as [k ->].
  by apply allBytes_take, allBytes_drop.
Qed.

Lemma Trim_absent s c sub :
  strings.Contains s sub = false ->
  strings.Contains (strings.Trim s c) sub = false.
Proof.
  rewrite !Contains_false. intros H. unfold strings.Trim.
  destruct (TrimLeftFunc_drop (Ascii.eqb c) s) as [n ->].
  destruct (TrimRightFunc_take (Ascii.eqb c) (strings.drop n s)) as [k ->].
  by apply absent_take, absent_drop.
Qed.

Lemma sanitize_safe path :
  allBytes safeByte (sanitizeFileName path) = true
  /\ strings.Contains (sanitizeFileName path) "--" = false
  /\ strings.HasPrefix (sanitizeFileName path) "-" = false
  /\ strings.HasSuffix (sanitizeFileName path) "-" = false.
Proof.
  unfold sanitizeFileName. cbv zeta. fold dashOther.
  split; [by apply Trim_safe, collapseDashes_safe, Map_safe|].
  split; [by apply Trim_absent, FuelFacts.collapseDashes_done|].
  apply Trim_ends.
Qed.

(** The name that [sanitizeFileName] returns is made of letters, digits
    and dashes, with no two dashes in a row and no dash at either end,
    whatever the bytes of the path are. *)
Theorem sanitized_name_is_safe path :
  allBytes safeByte (sanitizeFileName path) = true
  /\ strings.Contains (sanitizeFileName path) "--" = false
  /\ strings.HasPrefix (sanitizeFileName path) "-" = false
  /\ strings.HasSuffix (sanitizeFileName path) "-" = false.
Proof. apply sanitize_safe. Qed.

(** A name that is safe already is returned as it is, so sanitizing
    twice, as [GetFiles] does with the component part of a script name,
    changes nothing. *)
Theorem sanitize_twice path :
  sanitizeFileName (sanitizeFileName path) = sanitizeFileName path.
Proof.
  destruct (sanitize_safe path) as (Hsafe & Hdash & Hhead & Htail).
  generalize dependent (sanitizeFileName path). intros name Hsafe Hdash Hhead Htail.
  unfold sanitizeFileName. cbv zeta. fold dashOther.
  rewrite Map_id by done. rewrite collapseDashes_id by done.
  by apply Trim_id.
Qed.

End NameFacts.

(** ** The files of a page and where they are written *)

Module FilesFacts.
Import assets nameSpec assetsSpec.

Lemma length_neq_eqb s t :
  String.length s <> String.length t -> String.eqb s t = false.
Proof. intros H. apply String.eqb_neq. by intros ->. Qed.

Lemma jsName_not_styles f : jsName f <> "styles.css".
Proof.
  unfold jsName. intros H.
  assert (String.length (sanitizeFileName f) = 7%nat) as Hlen.
  { apply (f_equal String.length) in H.
    rewrite StringFacts.length_append in H. simpl in H. lia. }
  apply (f_equal (strings.drop 7)) in H.
  rewrite <- Hlen, StringMore.drop_append in H. by rewrite Hlen in H.
Qed.

Lemma hasByte_append c s t : filepath.hasByte c (s +:+ String c t) = true.
Proof.
  unfold filepath.hasByte. induction s as [|a s IH].
  - change ("" +:+ String c t) with (String c t).
    cbn [strings.IndexByte]. by rewrite Ascii.eqb_refl.
  - rewrite StringFacts.append_cons. cbn [strings.IndexByte].
    destruct (Ascii.eqb a c); [done|].
    by destruct (strings.IndexByte (s +:+ String c t) c).
Qed.

(** The extension of a script name is [.js], whatever comes before. *)
Lemma Ext_js n : filepath.Ext (n +:+ ".js") = ".js".
Proof.
  induction n as [|c n IH]; [done|].
  rewrite StringFacts.append_cons. cbn [filepath.Ext].
  by rewrite (hasByte_append "." n "js"), orb_true_r.
Qed.

Lemma safe_no_slash n :
  allBytes safeByte n = true -> strings.IndexByte n "/" = None.
Proof.
  induction n as [|c n IH]; [done|]. cbn [allBytes strings.IndexByte].
  intros [Hc Hn]%andb_true_iff. rewrite IH by done.
  destruct (Ascii.eqb c "/") eqn:E; [|done].
  apply Ascii.eqb_eq in E. by subst c.
Qed.

Lemma IndexByte_append_None s t c :
  strings.IndexByte s c = None -> strings.IndexByte t c = None ->
  strings.IndexByte (s +:+ t) c = None.
Proof.
  intros Hs Ht. induction s as [|a s IH]; [done|].
  rewrite StringFacts.append_cons. cbn [strings.IndexByte] in *.
  destruct (Ascii.eqb a c); [done|].
  destruct (strings.IndexByte s c); [done|]. by rewrite IH.
Qed.

(** A script with a safe name is written to the directory [js] under
    its own name. *)
Lemma Join_js n :
  allBytes safeByte n = true ->
  filepath.Join ["js"; n +:+ ".js"] = "js/" +:+ n +:+ ".js".
Proof.
  intros Hsafe. unfold filepath.Join.
  assert (forall t, String.eqb (n +:+ ".js") t = false
                    \/ (3 <= String.length t)%nat) as Hne.
  { intros t. destruct (decide (3 <= String.length t)%nat); [by right|left].
    apply length_neq_eqb. rewrite StringFacts.length_append. simpl. lia. }
  assert (String.eqb (n +:+ ".js") "" = false) as E0
    by (destruct (Hne "") as [H|H]; [done|simpl in H; lia]).
  assert (String.eqb (n +:+ ".js") "." = false) as E1
    by (destruct (Hne ".") as [H|H]; [done|simpl in H; lia]).
  assert (String.eqb (n +:+ ".js") ".." = false) as E2
    by (destruct (Hne "..") as [H|H]; [done|simpl in H; lia]).
  rewrite !filter_cons, filter_nil, E0. rewrite !decide_True by done.
  unfold filepath.Clean, strings.Join. cbn [String.concat].
  change ("js" +:+ "/" +:+ n +:+ ".js") with ("js" +:+ String "/" (n +:+ ".js")).
  rewrite KeyFacts.Split_app by done.
  rewrite KeyFacts.Split_no_sep
    by (apply IndexByte_append_None; [by apply safe_no_slash|done]).
  change (strings.HasPrefix ("js" +:+ String "/" (n +:+ ".js")) "/") with false.
  cbn [fold_left]. unfold filepath.cleanElem at 2.
  cbn [String.eqb Ascii.eqb Bool.eqb orb].
  unfold filepath.cleanElem. rewrite E0, E1, E2. cbn [orb rev app String.concat].
  reflexivity.
Qed.

Lemma putFiles_lookup c fs out name content :
  fold_left (putFile c) fs out !! name = Some content ->
  out !! name = Some content
  \/ exists f, f ∈ fs /\ name = jsName f /\ content = c.
Proof.
  revert out. induction fs as [|f fs IH]; intros out; cbn [fold_left]; [by left|].
  intros H. apply IH in H as [H|(f' & Hf' & -> & ->)].
  - unfold putFile in H. apply lookup_insert_Some in H as [[<- <-]|[_ H]].
    + right. exists f. split; [apply list_elem_of_here|done].
    + by left.
  - right. exists f'. split; [by apply list_elem_of_further|done].
Qed.

Lemma putAssets_lookup (l : list jsAsset) out name content :
  fold_left (fun out asset =>
               fold_left (putFile (assets.content asset)) (files asset) out)
    l out !! name = Some content ->
  out !! name = Some content
  \/ exists a f, a ∈ l /\ f ∈ files a /\ name = jsName f
                 /\ content = assets.content a.
Proof.
  revert out. induction l as [|a l IH]; intros out; cbn [fold_left]; [by left|].
  intros H. apply IH in H as [H|(a' & f & Ha' & Hf & -> & ->)].
  - apply putFiles_lookup in H as [H|(f & Hf & -> & ->)]; [by left|].
    right. exists a, f. split; [apply list_elem_of_here|done].
  - right. exists a', f. split; [by apply list_elem_of_further|done].
Qed.

Lemma putAssets_other (l : list jsAsset) out name :
  (forall f, name <> jsName f) ->
  fold_left (fun out asset =>
               fold_left (putFile (assets.content asset)) (files asset) out)
    l out !! name = out !! name.
Proof.
  intros Hname. revert out. induction l as [|a l IH]; intros out; [done|].
  cbn [fold_left]. rewrite IH. generalize (files a). intros fs. revert out.
  induction fs as [|f fs IHf]; intros out; [done|].
  cbn [fold_left]. rewrite IHf. unfold putFile.
  apply lookup_insert_ne. intros H. by apply (Hname f).
Qed.

(** The merged style sheet is never replaced by a script: whatever the
    names of the scripts are, [styles.css] is among the files exactly when
    there is some CSS, and holds the merged style sheets less the last line
    feed. *)
Theorem scripts_never_replace_style_sheet m :
  GetFiles m !! "styles.css"
  = if Nat.ltb O (size (css m))
    then Some (strings.TrimSuffix (mergedCSS m) Examples.nl)
    else None.
Proof.
  unfold GetFiles. rewrite putAssets_other.
  - destruct (Nat.ltb O (size (css m))); [apply lookup_singleton_eq|done].
  - intros f H. symmetry in H. by apply jsName_not_styles in H.
Qed.

Import filesSpec.

Lemma GetFiles_names m name content :
  GetFiles m !! name = Some content ->
  name = "styles.css" \/ exists f, name = jsName f.
Proof.
  unfold GetFiles. intros H. apply putAssets_lookup in H as [H|H].
  - left. destruct (Nat.ltb O (size (css m))); [|done].
    by apply lookup_singleton_Some in H as [<- _].
  - right. destruct H as (a & f & _ & _ & -> & _). by exists f.
Qed.

Lemma assetPath_styles : assetPath "styles.css" = "css/styles.css".
Proof. reflexivity. Qed.

Lemma assetPath_js f : assetPath (jsName f) = "js/" +:+ jsName f.
Proof.
  unfold assetPath, builder.outputDir, jsName. rewrite Ext_js.
  cbn [String.eqb Ascii.eqb Bool.eqb andb].
  apply Join_js, NameFacts.sanitize_safe.
Qed.

(** A path that ends in [.js] is no path that ends in [.html]. *)
Lemma js_not_html x p : x +:+ ".js" <> p +:+ ".html".
Proof.
  intros H.
  assert (String.length x = (String.length p + 2)%nat) as Hlen.
  { apply (f_equal String.length) in H.
    rewrite !StringFacts.length_append in H. simpl in H. lia. }
  apply (f_equal (strings.drop (String.length x))) in H.
  rewrite StringMore.drop_append in H.
  rewrite Hlen, <- StringMore.drop_drop, StringMore.drop_append in H.
  done.
Qed.

Lemma assetPath_not_page name p :
  name = "styles.css" \/ (exists f, name = jsName f) ->
  assetPath name <> p +:+ ".html".
Proof.
  intros [->|[f ->]].
  - rewrite assetPath_styles. intros H.
    assert (String.length p = 9%nat) as Hlen.
    { apply (f_equal String.length) in H.
      rewrite StringFacts.length_append in H. simpl in H. lia. }
    apply (f_equal (strings.drop 9)) in H.
    replace (strings.drop 9 (p +:+ ".html")) with ".html" in H
      by (by rewrite <- Hlen, StringMore.drop_append).
    done.
  - rewrite assetPath_js. unfold jsName.
    rewrite <- StringFacts.append_assoc. apply js_not_html.
Qed.

Lemma assetPath_inj n1 n2 :
  n1 = "styles.css" \/ (exists f, n1 = jsName f) ->
  n2 = "styles.css" \/ (exists f, n2 = jsName f) ->
  assetPath n1 = assetPath n2 -> n1 = n2.
Proof.
  intros [->|[f1 ->]] [->|[f2 ->]];
    rewrite ?assetPath_styles, ?assetPath_js; try done.
  change ("js/" +:+ jsName f1) with (String "j" (String "s" (String "/" (jsName f1)))).
  change ("js/" +:+ jsName f2) with (String "j" (String "s" (String "/" (jsName f2)))).
  by intros [= ->].
Qed.

(** The map that the loop of [writeOutput] builds, when no two assets
    are filed under the same path. *)
Lemma fileAssets_lookup (l : list (string * string)) files k v :
  NoDup ((fun nc => assetPath (fst nc)) <$> l) ->
  fold_left fileAsset l files !! k = Some v
  <-> (exists nc, nc ∈ l /\ assetPath (fst nc) = k /\ snd nc = v)
      \/ (~ k ∈ ((fun nc => assetPath (fst nc)) <$> l)
          /\ files !! k = Some v).
Proof.
  revert files. induction l as [|x l IH]; intros files Hnd.
  - cbn [fold_left fmap list_fmap]. split.
    + intros H. right. split; [apply not_elem_of_nil|done].
    + intros [(nc & Hnc & _)|[_ H]]; [by apply elem_of_nil in Hnc|done].
  - cbn [fold_left fmap list_fmap] in *.
    apply NoDup_cons in Hnd as [Hx Hnd]. rewrite (IH _ Hnd).
    unfold fileAsset at 1. split.
    + intros [(nc & Hnc & Hk & Hv)|[Hk H]].
      * left. exists nc. split; [by apply list_elem_of_further|done].
      * apply lookup_insert_Some in H as [[<- <-]|[Hne H]].
        -- left. exists x. split; [apply list_elem_of_here|done].
        -- right. split; [|done]. by apply not_elem_of_cons.
    + intros [(nc & Hnc & Hk & Hv)|[Hk H]].
      * apply elem_of_cons in Hnc as [->|Hnc].
        -- right. subst k v. split; [done|]. by rewrite lookup_insert_eq.
        -- left. by exists nc.
      * apply not_elem_of_cons in Hk as [Hne Hk]. right. split; [done|].
        by rewrite lookup_insert_ne.
Qed.

Lemma writeOutput_files outputRel res s :
  builder.writeOutput outputRel res s
  = storage.WriteOutput (storage.targetPath s)
      (fold_left fileAsset (map_to_list (template.Files res))
         {[ strings.TrimPrefix outputRel "blueprints/" +:+ ".html"
            := template.HTML res ]}) s.
Proof. reflexivity. Qed.

(** [writeOutput] files the page under its output path with [.html], the
    merged style sheet as [css/styles.css] and every script under [js/] with
    its own name, and writes nothing else; the directory [assets], kept for
    any other extension, is never used for the files of an asset manager.
    When it returns no error, the page and every file of the manager have
    been written, each with its content. *)
Theorem assets_land_in_css_and_js outputRel res m s :
  template.Files res = GetFiles m ->
  let page := strings.TrimPrefix outputRel "blueprints/" +:+ ".html" in
  let out := builder.writeOutput outputRel res s in
  exists written,
    storage.calls (snd out)
    = storage.calls s
      ++ (storeSpec.writeCall (storage.targetPath s) <$> written)
    /\ (forall rel content, (rel, content) ∈ written ->
          (rel = page /\ content = template.HTML res)
          \/ (rel = "css/styles.css"
              /\ GetFiles m !! "styles.css" = Some content)
          \/ (exists f, rel = "js/" +:+ jsName f
                        /\ GetFiles m !! jsName f = Some content))
    /\ (fst out = None ->
          (page, template.HTML res) ∈ written
          /\ (forall content, GetFiles m !! "styles.css" = Some content ->
                ("css/styles.css", content) ∈ written)
          /\ (forall f content, GetFiles m !! jsName f = Some content ->
                ("js/" +:+ jsName f, content) ∈ written)).
Proof.
  intros Hfiles page out. subst out. rewrite writeOutput_files. fold page.
  rewrite Hfiles.
  set (files := fold_left fileAsset (map_to_list (GetFiles m))
                  {[ page := template.HTML res ]}).
  assert (forall nc, nc ∈ map_to_list (GetFiles m) ->
            fst nc = "styles.css" \/ exists f, fst nc = jsName f) as Hnames.
  { intros [name content] Hin. apply elem_of_map_to_list in Hin.
    by apply GetFiles_names in Hin. }
  assert (NoDup ((fun nc => assetPath (fst nc)) <$> map_to_list (GetFiles m)))
    as Hnd.
  { apply NoDup_fmap_2_strong.
    - intros [n1 c1] [n2 c2] H1 H2 Heq. cbn [fst] in Heq.
      apply assetPath_inj in Heq; [|by apply (Hnames (n1, c1))
                                    |by apply (Hnames (n2, c2))].
      subst n2. apply elem_of_map_to_list in H1, H2. congruence.
    - apply NoDup_map_to_list. }
  assert (forall k v, files !! k = Some v <->
            (k = page /\ v = template.HTML res)
            \/ exists name, GetFiles m !! name = Some v /\ assetPath name = k)
    as Hlookup.
  { intros k v. unfold files. rewrite (fileAssets_lookup _ _ _ _ Hnd). split.
    - intros [([name content] & Hin & Hk & Hv)|[_ H]].
      + right. exists name. cbn [fst snd] in *. subst content.
        split; [by apply elem_of_map_to_list|done].
      + left. by apply lookup_singleton_Some in H as [<- <-].
    - intros [[-> ->]|(name & Hname & Hk)].
      + right. split; [|apply lookup_singleton_eq].
        intros Hin. apply list_elem_of_fmap in Hin as ([n c] & Hp & Hin).
        symmetry in Hp. by apply assetPath_not_page in Hp; [|apply (Hnames (n, c))].
      + left. exists (name, v). split; [by apply elem_of_map_to_list|done]. }
  assert (forall rel content, files !! rel = Some content ->
            (rel = page /\ content = template.HTML res)
            \/ (rel = "css/styles.css"
                /\ GetFiles m !! "styles.css" = Some content)
            \/ (exists f, rel = "js/" +:+ jsName f
                          /\ GetFiles m !! jsName f = Some content)) as Hsound.
  { intros rel content H. apply Hlookup in H as [H|(name & Hname & <-)];
      [by left|right].
    destruct (GetFiles_names _ _ _ Hname) as [->|[f ->]].
    - left. by rewrite assetPath_styles.
    - right. exists f. by rewrite assetPath_js. }
  unfold storage.WriteOutput.
  pose proof (PipelineFacts.writeAll_spec (storage.targetPath s)
                (map_to_list files) s) as H.
  destruct (storage.writeAll (storage.targetPath s) (map_to_list files) s)
    as [[msg|] s'].
  - destruct H as (before & f & after & Hl & _ & _ & Hcalls).
    exists (before ++ [f]). cbn [fst snd].
    split; [by rewrite Hcalls, fmap_app|]. split; [|done].
    intros rel content Hin. apply Hsound, elem_of_map_to_list. rewrite Hl.
    apply elem_of_app in Hin as [Hin|Hin].
    + apply elem_of_app. by left.
    + apply list_elem_of_singleton in Hin as <-. apply elem_of_app. right.
      apply list_elem_of_here.
  - destruct H as [Hcalls _]. exists (map_to_list files). cbn [fst snd].
    split; [done|]. split.
    + intros rel content Hin. by apply Hsound, elem_of_map_to_list.
    + intros _. split; [|split].
      * apply elem_of_map_to_list, Hlookup. by left.
      * intros content Hc. apply elem_of_map_to_list, Hlookup. right.
        by exists "styles.css".
      * intros f content Hc. apply elem_of_map_to_list, Hlookup. right.
        exists (jsName f). split; [done|apply assetPath_js].
Qed.

Lemma assets_land_in_css_and_js_witness :
  storage.calls
    (snd (builder.writeOutput "blueprints/index" widgetPage emptyStore))
  ≡ₚ [storage.CallWrite "out/index.html" "<b></b><b></b>";
      storage.CallWrite "out/css/styles.css" "b{}";
      storage.CallWrite "out/js/ui-widget-main.js" "go()"]
  /\ exists written,
       storage.calls
         (snd (builder.writeOutput "blueprints/index" widgetPage emptyStore))
       = storage.calls emptyStore
         ++ (storeSpec.writeCall (storage.targetPath emptyStore) <$> written)
       /\ (forall rel content, (rel, content) ∈ written ->
             (rel = "index.html" /\ content = template.HTML widgetPage)
             \/ (rel = "css/styles.css"
                 /\ GetFiles managerSpec.widgetTwice !! "styles.css"
                    = Some content)
             \/ (exists f, rel = "js/" +:+ jsName f
                           /\ GetFiles managerSpec.widgetTwice !! jsName f
                              = Some content))
       /\ (fst (builder.writeOutput "blueprints/index" widgetPage emptyStore)
           = None ->
             ("index.html", template.HTML widgetPage) ∈ written
             /\ (forall content,
                   GetFiles managerSpec.widgetTwice !! "styles.css"
                   = Some content ->
                   ("css/styles.css", content) ∈ written)
             /\ (forall f content,
                   GetFiles managerSpec.widgetTwice !! jsName f
                   = Some content ->
                   ("js/" +:+ jsName f, content) ∈ written)).
Proof.
  split.
  { replace (storage.calls
               (snd (builder.writeOutput "blueprints/index" widgetPage
                       emptyStore)))
      with [storage.CallWrite "out/css/styles.css" "b{}";
            storage.CallWrite "out/index.html" "<b></b><b></b>";
            storage.CallWrite "out/js/ui-widget-main.js" "go()"]
      by (vm_compute; reflexivity).
    apply Permutation_swap. }
  exact (assets_land_in_css_and_js "blueprints/index" widgetPage
           managerSpec.widgetTwice emptyStore eq_refl).
Defined.

End FilesFacts.

(** ** The blocks of a blueprint and their place in the tree *)

Module BlockFacts.
Import blueprint blueprintSpec heapSpec treeSpec parseSpec.

Lemma parseLine_ID line id b : parseLine line id = Some b -> ID b = id.
Proof.
  unfold parseLine. cbv zeta.
  destruct (_ || _); [done|]. destruct (strings.HasPrefix _ "."); [done|].
  destruct (strings.Fields _) as [|p0 [|p1 [|p2 l]]]; try done.
  destruct (mapM strconv.Atoi _) as [index|]; [|done].
  cbn [mbind option_bind]. by intros [= <-].
Qed.

Lemma scanLine_numbered st line : numbered st -> numbered (scanLine st line).
Proof.
  destruct st as [blocks id]. intros [Hid Hblocks]. cbn [fst snd] in *.
  unfold scanLine. cbv zeta.
  destruct (strings.HasPrefix (strings.TrimSpace line) ".").
  - destruct blocks as [|b0 blocks0] eqn:Eb; [by split|]. rewrite <- Eb in *.
    destruct (strings.IndexByte _ "=") as [eqIndex|]; [|by split].
    destruct (strings.HasPrefix _ "."); [|by split].
    split; cbn [fst snd].
    + by rewrite length_alter.
    + intros i b. destruct (decide (Nat.pred (length blocks) = i)) as [<-|Hne].
      * rewrite list_lookup_alter_eq.
        destruct (blocks !! Nat.pred (length blocks)) as [b'|] eqn:E; [|done].
        cbn [fmap option_fmap option_map]. intros [= <-].
        by apply (Hblocks _ _ E).
      * rewrite list_lookup_alter_ne by done. apply Hblocks.
  - destruct (parseLine _ id) as [block|] eqn:E; [|by split].
    apply parseLine_ID in E. split; cbn [fst snd].
    + rewrite length_app. simpl. lia.
    + intros i b Hi. apply lookup_app_Some in Hi as [Hi|[Hge Hi]].
      * by apply Hblocks.
      * apply list_lookup_singleton_Some in Hi as [Hi <-]. lia.
Qed.

Lemma parseBlocks_numbered content :
  forall i b, parseBlocks content !! i = Some b -> ID b = Z.of_nat i.
Proof.
  unfold parseBlocks.
  assert (numbered ([], 0)) as H0 by (split; [done|by intros i b H]).
  revert H0. generalize (([], 0) : list Block * Z).
  induction (strings.Split content "010") as [|line lines IH]; intros st Hst.
  - apply Hst.
  - cbn [fold_left]. by apply IH, scanLine_numbered.
Qed.

(** The blocks are numbered in the order of their lines: the block at
    position [i] has the ID [i].  Lines that are passed over and variable
    lines take no number. *)
Theorem block_ids_follow_the_source content i b :
  parseBlocks content !! i = Some b -> ID b = Z.of_nat i.
Proof. apply parseBlocks_numbered. Qed.

Lemma block_ids_follow_the_source_witness :
  ID {| Path := "a"; Index := [1; 2]; ID := 1; Vars := ∅ |} = Z.of_nat 1.
Proof.
  apply (block_ids_follow_the_source ParseExamples.family 1%nat).
  vm_compute. reflexivity.
Defined.

Section Heap.
Variables (heap : list cell) (nodeMap : gmap string nat).
Hypothesis Hinv : heapInv heap nodeMap.

(** Every node of the tree read off the heap at [a] is the tree read off
    the heap at some address from [a] on. *)
Lemma sortNodes_nodes fuel a n :
  sortNodes fuel heap a = Some n ->
  Forall (fun m => exists fuel' b,
            (a <= b)%nat /\ sortNodes (S fuel') heap b = Some m) (nodes n).
Proof.
  revert a n. induction fuel as [|fuel IH]; intros a n H; [done|].
  pose proof H as H'.
  apply (TreeFacts.sortNodes_unfold heap) in H as (ca & Ha & Hb & Hkids).
  destruct n as [b kids]. cbn [nodes Children NodeBlock] in *.
  constructor; [by exists fuel, a|].
  apply Forall_concat, Forall_fmap.
  apply (Forall2_Forall_r _ _ _ _ Hkids), Forall_forall.
  intros c Hc k Hk. rewrite SortFacts.Slice_perm in Hc.
  destruct (inv_later _ _ Hinv a c ca Ha Hc) as [Hlt _].
  eapply Forall_impl; [by apply (IH c)|].
  intros m (fuel' & b' & Hle & Hm). exists fuel', b'. split; [lia|done].
Qed.

(** Below the root, the index of a child is the index of its parent and
    one segment more. *)
Lemma sortNodes_extends fuel a n :
  a <> O -> sortNodes (S fuel) heap a = Some n ->
  Forall (extendsIndex n) (Children n).
Proof.
  intros Hne H. pose proof (TreeFacts.sortNodes_block heap _ _ _ H) as Hn.
  apply (TreeFacts.sortNodes_unfold heap) in H as (ca & Ha & Hb & Hkids).
  apply (Forall2_Forall_r _ _ _ _ Hkids), Forall_forall.
  intros c Hc k Hk. rewrite SortFacts.Slice_perm in Hc.
  destruct (inv_parent _ _ Hinv a c ca Ha Hne Hc) as [Hnil Hkey].
  apply (TreeFacts.sortNodes_block heap) in Hk.
  unfold keyAt in Hkey. apply KeyFacts.indexKey_inj in Hkey.
  unfold extendsIndex. by rewrite <- Hk, <- Hn.
Qed.

End Heap.

(** In the tree of a blueprint, the index of every child of a node other
    than the root is the index of the node and one segment more: a block
    hangs below the block that its index names, or below the root. *)
Theorem child_index_extends_parent content root :
  fst (New content) = Some root ->
  Forall (fun top =>
            Forall (fun n => Forall (extendsIndex n) (Children n)) (nodes top))
    (Children root).
Proof.
  intros Hroot. unfold New in Hroot. cbn [fst] in Hroot.
  apply TreeFacts.buildTree_Some in Hroot
    as (heap & nodeMap & Hinv & Hblocks & Hsort).
  destruct (length heap) as [|fuel]; [done|].
  apply (TreeFacts.sortNodes_unfold heap) in Hsort as (ca & Ha & Hb & Hkids).
  apply (Forall2_Forall_r _ _ _ _ Hkids), Forall_forall.
  intros c Hc top Htop. rewrite SortFacts.Slice_perm in Hc.
  destruct (inv_later _ _ Hinv O c ca Ha Hc) as [Hlt _].
  eapply Forall_impl; [by apply (sortNodes_nodes heap nodeMap Hinv fuel c)|].
  intros n (fuel' & b & Hle & Hn).
  apply (sortNodes_extends heap nodeMap Hinv fuel' b); [lia|done].
Qed.

Lemma child_index_extends_parent_witness :
  Forall (fun top =>
            Forall (fun n => Forall (extendsIndex n) (Children n)) (nodes top))
    (Children ParseExamples.familyTree).
Proof.
  apply (child_index_extends_parent ParseExamples.family).
  vm_compute. reflexivity.
Defined.

(** The root of the tree is the only virtual node: its ID is [-1], and
    every node below it carries a block of the blueprint, with the ID of
    that block, which is not negative. *)
Theorem only_the_root_is_virtual content root :
  fst (New content) = Some root ->
  ID (NodeBlock root) = -1
  /\ Forall (fun top =>
               Forall (fun n => NodeBlock n ∈ parseBlocks content
                                /\ 0 <= ID (NodeBlock n)) (nodes top))
       (Children root).
Proof.
  intros Hroot. unfold New in Hroot. cbn [fst] in Hroot.
  apply TreeFacts.buildTree_Some in Hroot
    as (heap & nodeMap & Hinv & Hblocks & Hsort).
  destruct (length heap) as [|fuel]; [done|].
  apply (TreeFacts.sortNodes_unfold heap) in Hsort as (ca & Ha & Hb & Hkids).
  split.
  - rewrite Hb. apply (f_equal (fun l => l !! O)) in Hblocks.
    rewrite list_lookup_fmap, Ha in Hblocks. cbn in Hblocks.
    by injection Hblocks as ->.
  - apply (Forall2_Forall_r _ _ _ _ Hkids), Forall_forall.
    intros c Hc top Htop. rewrite SortFacts.Slice_perm in Hc.
    destruct (inv_later _ _ Hinv O c ca Ha Hc) as [Hlt _].
    eapply Forall_impl; [by apply (sortNodes_nodes heap nodeMap Hinv fuel c)|].
    intros n (fuel' & b & Hle & Hn).
    apply (TreeFacts.sortNodes_unfold heap) in Hn as (cb & Hcb & Hnb & _).
    assert (parseBlocks content !! (b - 1)%nat = Some (NodeBlock n)) as Hin.
    { apply (f_equal (fun l => l !! b)) in Hblocks.
      rewrite list_lookup_fmap, Hcb in Hblocks. cbn in Hblocks.
      rewrite Hnb, Hblocks. destruct b as [|b]; [lia|].
      cbn. by rewrite Nat.sub_0_r. }
    split; [by eapply list_elem_of_lookup_2|].
    apply parseBlocks_numbered in Hin. lia.
Qed.

Lemma only_the_root_is_virtual_witness :
  ID (NodeBlock ParseExamples.familyTree) = -1
  /\ Forall (fun top =>
               Forall (fun n => NodeBlock n ∈ parseBlocks ParseExamples.family
                                /\ 0 <= ID (NodeBlock n)) (nodes top))
       (Children ParseExamples.familyTree).
Proof.
  apply (only_the_root_is_virtual ParseExamples.family).
  vm_compute. reflexivity.
Defined.

End BlockFacts.

(** ** The tree holds every block once *)

Module CoverFacts.
Import blueprint blueprintSpec heapSpec treeSpec coverSpec.

Lemma concat_fmap_perm {A B} (f g : A -> list B) (l : list A) :
  Forall (fun x => f x ≡ₚ g x) l -> concat (f <$> l) ≡ₚ concat (g <$> l).
Proof.
  induction 1 as [|x l Hx _ IH]; [done|].
  cbn [fmap list_fmap concat]. by rewrite Hx, IH.
Qed.

Lemma concat_fmap_perm_list {A B} (f : A -> list B) (l l' : list A) :
  l ≡ₚ l' -> concat (f <$> l) ≡ₚ concat (f <$> l').
Proof.
  induction 1 as [|x l l' _ IH|x y l|l1 l2 l3 _ IH1 _ IH2]; [done|..].
  - cbn [fmap list_fmap concat]. by rewrite IH.
  - cbn [fmap list_fmap concat]. solve_Permutation.
  - by rewrite IH1.
Qed.

Lemma concat_fmap_app {A B} (f g : A -> list B) (l : list A) :
  concat ((fun x => f x ++ g x) <$> l) ≡ₚ concat (f <$> l) ++ concat (g <$> l).
Proof.
  induction l as [|x l IH]; [done|].
  cbn [fmap list_fmap concat]. rewrite IH. solve_Permutation.
Qed.

Lemma under_app parent node l1 l2 :
  under parent node (l1 ++ l2) = under parent node l1 ++ under parent node l2.
Proof. unfold under. apply bind_app. Qed.

Lemma under_cons parent node x l :
  under parent node (x :: l)
  = (if decide (x = parent) then [node] else []) ++ under parent node l.
Proof. done. Qed.

Lemma under_concat parent node (ls : list (list nat)) :
  under parent node (concat ls) = concat (under parent node <$> ls).
Proof.
  induction ls as [|l ls IH]; [done|].
  cbn [concat fmap list_fmap]. by rewrite under_app, IH.
Qed.

Lemma under_absent parent node l : parent ∉ l -> under parent node l = [].
Proof.
  induction l as [|x l IH]; [done|]. intros H.
  apply not_elem_of_cons in H as [Hx Hl]. unfold under in *.
  cbn [mbind list_bind]. rewrite decide_False by done. by rewrite IH.
Qed.

Lemma under_once parent node l :
  NoDup l -> parent ∈ l -> under parent node l = [node].
Proof.
  induction 1 as [|x l Hx Hnd IH]; [by intros ?%elem_of_nil|].
  intros Hin. unfold under in *. cbn [mbind list_bind].
  destruct (decide (x = parent)) as [->|Hne].
  - fold (under parent node l). by rewrite under_absent.
  - apply elem_of_cons in Hin as [->|Hin]; [done|]. by rewrite IH.
Qed.

Section Attach.
Variables (heap : list cell) (nodeMap : gmap string nat).
Hypothesis Hinv : heapInv heap nodeMap.
Variables (parent : nat) (new : cell).
Hypothesis Hparent : (parent < length heap)%nat.
Hypothesis Hnew : cellChildren new = [].

Abbreviation node := (length heap).
Abbreviation heap' := (alter (appendChild node) parent (heap ++ [new])).

Lemma kidsAt_old a :
  (a < node)%nat ->
  kidsAt heap' a
  = kidsAt heap a ++ (if decide (a = parent) then [node] else []).
Proof.
  intros Ha. unfold kidsAt.
  destruct (lookup_lt_is_Some_2 heap a Ha) as [ca Hca].
  destruct (decide (a = parent)) as [->|Hne].
  - rewrite list_lookup_alter_eq, lookup_app_l, Hca by done. done.
  - rewrite list_lookup_alter_ne, lookup_app_l, Hca by done.
    by rewrite app_nil_r.
Qed.

Lemma kidsAt_new : kidsAt heap' node = [].
Proof.
  unfold kidsAt. rewrite list_lookup_alter_ne by lia.
  rewrite lookup_app_r by lia. rewrite Nat.sub_diag. cbn. exact Hnew.
Qed.

Lemma kidsAt_later a c : c ∈ kidsAt heap a -> (a < c < node)%nat.
Proof.
  unfold kidsAt. destruct (heap !! a) as [ca|] eqn:E; [|by intros ?%elem_of_nil].
  cbn. by apply (inv_later _ _ Hinv).
Qed.

(** Attaching a node adds it to the subtree of every ancestor of its
    parent and changes no subtree otherwise. *)
Lemma subtree_attach fuel a :
  (a < node)%nat -> (S node - a <= fuel)%nat ->
  subtree fuel heap' a
  ≡ₚ subtree fuel heap a ++ under parent node (subtree fuel heap a).
Proof.
  revert a. induction fuel as [|fuel IH]; intros a Ha Hfuel; [lia|].
  cbn [subtree]. rewrite kidsAt_old by done. rewrite fmap_app, concat_app.
  rewrite (concat_fmap_perm (subtree fuel heap')
             (fun c => subtree fuel heap c
                       ++ under parent node (subtree fuel heap c))).
  2:{ apply Forall_forall. intros c Hc. apply kidsAt_later in Hc.
      apply IH; lia. }
  rewrite concat_fmap_app.
  rewrite under_cons, under_concat, <- list_fmap_compose. unfold compose.
  destruct (decide (a = parent)) as [->|Hne].
  - cbn [fmap list_fmap concat]. destruct fuel as [|fuel]; [lia|].
    cbn [subtree]. rewrite kidsAt_new. cbn [fmap list_fmap concat].
    solve_Permutation.
  - cbn [fmap list_fmap concat]. rewrite !app_nil_r. done.
Qed.

Lemma cover_attach fuel :
  (S node <= fuel)%nat ->
  subtree fuel heap O ≡ₚ seq O node ->
  subtree fuel heap' O ≡ₚ seq O (S node).
Proof.
  intros Hfuel Hcover.
  assert (0 < node)%nat as Hpos by lia.
  rewrite subtree_attach by lia.
  rewrite (under_once parent node (subtree fuel heap O)).
  - rewrite Hcover. by rewrite seq_S.
  - rewrite Hcover. apply NoDup_seq.
  - rewrite Hcover. apply elem_of_seq. lia.
Qed.

End Attach.

Lemma covered_init : covered [rootCell].
Proof. intros [|fuel] Hfuel; [simpl in Hfuel; lia|done]. Qed.

Lemma attachAll_covered blocks heap nodeMap heap' nodeMap' :
  heapInv heap nodeMap -> covered heap ->
  attachAll blocks (heap, nodeMap) = Some (heap', nodeMap') ->
  covered heap'.
Proof.
  revert heap nodeMap.
  induction blocks as [|block blocks IH]; intros heap nodeMap Hinv Hcov.
  - by intros [= <- <-].
  - cbn [attachAll].
    destruct (attach (heap, nodeMap) block) as [[heap1 nodeMap1]|] eqn:E;
      [|done].
    cbn [mbind option_bind]. apply IH.
    + apply HeapFacts.attach_Some in E as (Hfree & -> & ->).
      by apply HeapFacts.attach_inv.
    + apply HeapFacts.attach_Some in E as (Hfree & -> & ->).
      pose proof (HeapFacts.attach_parent_lt heap nodeMap block Hinv Hfree)
        as Hlt.
      intros fuel Hfuel. rewrite length_alter, length_app in *.
      cbn [length] in *. rewrite Nat.add_1_r in *.
      apply (cover_attach heap nodeMap Hinv); [done|done|lia|].
      apply Hcov. lia.
Qed.

Lemma fmap_concat {A B} (f : A -> B) (ls : list (list A)) :
  f <$> concat ls = concat ((fun l : list A => f <$> l) <$> ls).
Proof.
  induction ls as [|l ls IH]; [done|].
  cbn [concat fmap list_fmap]. by rewrite fmap_app, IH.
Qed.

Lemma concat_Forall2_perm {A B C} (f : A -> list C) (g : B -> list C) l k :
  Forall2 (fun x y => g y ≡ₚ f x) l k ->
  concat (g <$> k) ≡ₚ concat (f <$> l).
Proof.
  induction 1 as [|x y l k Hxy _ IH]; [done|].
  cbn [fmap list_fmap concat]. by rewrite Hxy, IH.
Qed.

Lemma blockAt_seq heap :
  blockAt heap <$> seq O (length heap) = cellBlock <$> heap.
Proof.
  apply list_eq. intros i. rewrite !list_lookup_fmap.
  destruct (heap !! i) as [c|] eqn:E.
  - rewrite lookup_seq_lt by (by eapply lookup_lt_Some).
    cbn. unfold blockAt. by rewrite E.
  - rewrite lookup_seq_ge; [done|]. by apply lookup_ge_None.
Qed.

(** The blocks of the tree read off the heap are the blocks at the
    addresses of the subtree. *)
Lemma sortNodes_subtree heap fuel a n :
  sortNodes fuel heap a = Some n ->
  NodeBlock <$> nodes n ≡ₚ blockAt heap <$> subtree fuel heap a.
Proof.
  revert a n. induction fuel as [|fuel IH]; intros a n H; [done|].
  apply TreeFacts.sortNodes_unfold in H as (ca & Ha & Hb & Hkids).
  destruct n as [b kids]. cbn [nodes Children NodeBlock subtree] in *.
  unfold kidsAt. rewrite Ha. cbn [from_option fmap list_fmap].
  unfold blockAt at 1. rewrite Ha. cbn [from_option]. subst b.
  apply Permutation_skip.
  change (map nodes kids) with (nodes <$> kids).
  rewrite !fmap_concat, <- !list_fmap_compose. unfold compose.
  rewrite (concat_Forall2_perm
             (fun c => blockAt heap <$> subtree fuel heap c)
             (fun k => NodeBlock <$> nodes k)
             (sort.Slice (lessChild heap (Nat.eqb a O)) (cellChildren ca))
             kids).
  - apply concat_fmap_perm_list. apply SortFacts.Slice_perm.
  - eapply Forall2_impl; [exact Hkids|]. intros c k Hk. by apply IH.
Qed.

Lemma buildTree_attach blocks root :
  buildTree blocks = Some root ->
  exists heap nodeMap,
    attachAll blocks ([rootCell], {[ "" := O ]}) = Some (heap, nodeMap)
    /\ sortNodes (length heap) heap O = Some root.
Proof.
  unfold buildTree. destruct blocks as [|b blocks]; [done|].
  destruct (attachAll (b :: blocks) _) as [[heap nodeMap]|]; [|done].
  intros H. by exists heap, nodeMap.
Qed.

(** The tree of a blueprint holds the virtual root and every block of the
    blueprint, each once: no block is lost and none is put in twice, also
    when a block comes before its parent or has no parent at all. *)
Theorem tree_holds_every_block_once content root :
  fst (New content) = Some root ->
  NodeBlock <$> nodes root ≡ₚ cellBlock rootCell :: parseBlocks content.
Proof.
  intros Hroot. unfold New in Hroot. cbn [fst] in Hroot.
  apply buildTree_attach in Hroot as (heap & nodeMap & Hattach & Hsort).
  pose proof (HeapFacts.attachAll_blocks _ _ _ _ _ Hattach) as Hblocks.
  pose proof (attachAll_covered _ _ _ _ _ HeapFacts.heapInv_init covered_init
                Hattach) as Hcov.
  rewrite (sortNodes_subtree _ _ _ _ Hsort).
  rewrite (Hcov (length heap)) by done.
  by rewrite blockAt_seq, Hblocks.
Qed.

Lemma tree_holds_every_block_once_witness :
  NodeBlock <$> nodes ParseExamples.familyTree
  ≡ₚ cellBlock rootCell :: parseBlocks ParseExamples.family.
Proof.
  apply (tree_holds_every_block_once ParseExamples.family).
  vm_compute. reflexivity.
Defined.

(** Two indexes have the same key in the map of [buildTree] only if they
    are the same index: joining the segments with dots loses nothing, so a
    block is refused as a duplicate exactly when its index was seen
    before. *)
Theorem index_keys_never_collide index1 index2 :
  indexKey index1 = indexKey index2 <-> index1 = index2.
Proof. split; [apply KeyFacts.indexKey_inj|by intros ->]. Qed.

End CoverFacts.

(** ** The lines that the parser passes over *)

Module LineFacts.
Import blueprint parseSpec.

Lemma Split_append s sep rest :
  strings.Split (s +:+ String sep rest) sep
  = strings.Split s sep ++ strings.Split rest sep.
Proof.
  induction s as [|a s IH].
  - change ("" +:+ String sep rest) with (String sep rest).
    cbn [strings.Split]. by rewrite Ascii.eqb_refl.
  - rewrite StringFacts.append_cons. cbn [strings.Split]. rewrite IH.
    destruct (Ascii.eqb a sep); [done|].
    pose proof (ParseFacts.Split_nonempty s sep) as Hne.
    by destruct (strings.Split s sep).
Qed.

Lemma TrimSpace_comment r :
  exists r', strings.TrimSpace (String "#" r) = String "#" r'.
Proof.
  unfold strings.TrimSpace. cbn [strings.TrimLeftFunc].
  change (strings.isSpace "#") with false. cbn [strings.TrimRightFunc].
  destruct (strings.TrimRightFunc strings.isSpace r) as [|c r'].
  - change (strings.isSpace "#") with false. by eexists.
  - by eexists.
Qed.

Lemma scanLine_skipped st line : skipped line -> scanLine st line = st.
Proof.
  destruct st as [blocks id]. unfold scanLine, skipped. cbv zeta.
  intros [H|H].
  - rewrite H. by change (parseLine "" id) with (@None Block).
  - destruct (strings.TrimSpace line) as [|c r] eqn:E; [done|].
    rewrite NameFacts.HasPrefix_byte in H. apply Ascii.eqb_eq in H. subst c.
    change (strings.HasPrefix (String "#" r) ".") with false. cbv iota.
    unfold parseLine. cbv zeta.
    destruct (TrimSpace_comment r) as [r' ->].
    change (strings.HasPrefix (String "#" r') "#")
      with (String.prefix "" r'). by destruct r'.
Qed.

(** A blank line or a comment changes nothing wherever it stands, also
    between a block and its variables: the blueprint with the line gives
    the same blocks, and so the same tree, as the blueprint without it. *)
Theorem skipped_lines_change_nothing before line after :
  skipped line ->
  strings.IndexByte line "010" = None ->
  New (before +:+ Examples.nl +:+ line +:+ Examples.nl +:+ after)
  = New (before +:+ Examples.nl +:+ after).
Proof.
  intros Hskip Hline. unfold New, parseBlocks.
  change (before +:+ Examples.nl +:+ line +:+ Examples.nl +:+ after)
    with (before +:+ String "010" (line +:+ String "010" after)).
  change (before +:+ Examples.nl +:+ after)
    with (before +:+ String "010" after).
  rewrite !Split_append, (KeyFacts.Split_no_sep line) by done.
  rewrite !fold_left_app. cbn [fold_left]. by rewrite scanLine_skipped.
Qed.

Lemma skipped_lines_change_nothing_witness :
  New ("1 p" +:+ Examples.nl +:+ "  # the title" +:+ Examples.nl
       +:+ ".title = T")
  = New ("1 p" +:+ Examples.nl +:+ ".title = T").
Proof.
  apply (skipped_lines_change_nothing "1 p" "  # the title" ".title = T").
  - right. reflexivity.
  - reflexivity.
Defined.

End LineFacts.

(** ** The whole site *)

Module SiteFacts.
Import site siteSpec.

(** The loop over the blueprints, in whatever order they come: either
    every one is processed with no error, or those before the first that
    fails are, and the loop ends with the error and the store of that one. *)
Lemma buildEach_outcomes generateHash blueprints s :
  exists e s',
    buildEach generateHash blueprints s = Ok (e, s')
    /\ ((e = None /\ built generateHash blueprints s s')
        \/ exists before path outputRel after msg s0,
             blueprints = before ++ (path, outputRel) :: after
             /\ built generateHash before s s0
             /\ builder.processBlueprint generateHash path outputRel s0
                = Ok (Some msg, s')
             /\ diskError msg
             /\ e = Some ("processing blueprint " +:+ path +:+ ": " +:+ msg)).
Proof.
  revert s. induction blueprints as [|[path outputRel] rest IH]; intros s.
  - exists None, s. split; [done|by left].
  - cbn [buildEach].
    destruct (PipelineFacts.processBlueprint_outcomes generateHash path
                outputRel s) as (e & s1 & Hrun & He).
    rewrite Hrun. cbn [mbind Res_bind bindRes]. destruct e as [msg|].
    + eexists _, s1. split; [done|]. right.
      exists [], path, outputRel, rest, msg, s. split; [done|].
      split; [done|]. split; [done|]. split; [|done].
      destruct He as [He|[[cause [= ->]]|[[cause [[= ->]|[= ->]]] _]]];
        [done|by exists cause; right; right
             |by exists cause; left|by exists cause; right; left].
    + destruct (IH s1) as (e & s2 & Hrest & Hcases).
      exists e, s2. split; [done|].
      destruct Hcases
        as [[-> Hall]
           |(before & p & o & after & msg & s0 & -> & Hb & Hfail & Hd & ->)].
      * left. split; [done|]. by exists s1.
      * right. exists ((path, outputRel) :: before), p, o, after, msg, s0.
        split; [done|]. split; [by exists s1|]. done.
Qed.

(** [Build] never panics, in whatever order the blueprints are taken.  If
    the search for blueprints fails it returns that error and touches no
    blueprint.  Otherwise it returns no error exactly after it has
    processed every blueprint and none has failed; and when one fails, the
    blueprints taken before it have all been processed with no error, the
    error returned is the error of that blueprint (a failure to read it, to
    load a component or to write a file) under its path, and the store is
    the store as that blueprint left it: no later blueprint is processed. *)
Theorem build_stops_at_first_failure generateHash listed order s :
  (forall blueprints, listed = ok blueprints ->
     order ≡ₚ map_to_list blueprints) ->
  exists e s',
    Build generateHash listed order s = Ok (e, s')
    /\ match listed with
       | err cause => e = Some ("finding blueprints: " +:+ cause) /\ s' = s
       | ok blueprints =>
           (e = None /\ built generateHash order s s')
           \/ exists before path outputRel after msg s0,
                order = before ++ (path, outputRel) :: after
                /\ blueprints !! path = Some outputRel
                /\ built generateHash before s s0
                /\ builder.processBlueprint generateHash path outputRel s0
                   = Ok (Some msg, s')
                /\ diskError msg
                /\ e = Some ("processing blueprint " +:+ path +:+ ": "
                             +:+ msg)
       end.
Proof.
  intros Horder. unfold Build.
  destruct listed as [blueprints|cause]; [|by eexists _, _].
  specialize (Horder blueprints eq_refl).
  destruct (buildEach_outcomes generateHash order s)
    as (e & s' & Hrun & Hcases).
  exists e, s'. split; [done|].
  destruct Hcases
    as [Hall|(before & path & outputRel & after & msg & s0 & Hl & Hb & Hfail
              & Hd & ->)]; [by left|right].
  exists before, path, outputRel, after, msg, s0. split; [done|].
  split; [|done].
  apply elem_of_map_to_list. rewrite <- Horder, Hl. apply elem_of_app. right.
  apply list_elem_of_here.
Qed.

Lemma build_stops_at_first_failure_witness :
  Build Examples.idHash (ok brokenSite)
    [("index.blueprint", "blueprints/index")] brokenStore
  = Ok (Some ("processing blueprint index.blueprint: loading components: "
              +:+ "loading component a: finding template: "
              +:+ "no HTML template found in component a"),
        {| storage.sourcePath := "in"; storage.targetPath := "out";
           storage.fs := PageExamples.diskWith "1 a";
           storage.calls := [storage.CallReadBlueprint "index.blueprint";
                             storage.CallList "a" ".html"] |})
  /\ exists e s',
    Build Examples.idHash (ok brokenSite)
      [("index.blueprint", "blueprints/index")] brokenStore = Ok (e, s')
    /\ ((e = None
         /\ built Examples.idHash [("index.blueprint", "blueprints/index")]
              brokenStore s')
        \/ exists before path outputRel after msg s0,
             [("index.blueprint", "blueprints/index")]
             = before ++ (path, outputRel) :: after
             /\ brokenSite !! path = Some outputRel
             /\ built Examples.idHash before brokenStore s0
             /\ builder.processBlueprint Examples.idHash path outputRel s0
                = Ok (Some msg, s')
             /\ diskError msg
             /\ e = Some ("processing blueprint " +:+ path +:+ ": "
                          +:+ msg)).
Proof.
  split; [vm_compute; reflexivity|].
  apply (build_stops_at_first_failure Examples.idHash (ok brokenSite)
           [("index.blueprint", "blueprints/index")] brokenStore).
  intros blueprints [= <-]. unfold brokenSite.
  by rewrite map_to_list_singleton.
Defined.

End SiteFacts.
